(** * wiki_bot: the template-rewrite and tag-removal bots

    A shallow embedding of

    - [replace_templates.py]: the name normaliser, the limit extraction,
      the target detection and the rewrite engine [replace_templates];
      [process_category] with the choice of the edit summary, the loop of
      [main] over the pages and the reading of [--templates];
    - [category_diffusion_bot.py]: the member counter, [get_subcategories],
      the eligibility test, [remove_category_from_parent] with its page,
      and the loop of [main] with its counters;
    - [replace_catdiffuse.py]: the member counter, the parse-tree based
      [find_and_replace_templates], and of [main] the reading of
      [--templates], the quick check and the two loops, the parser and the
      printer of mwparserfromhell staying abstract;

    followed by the properties of the specification that were checked
    against it, and by further properties of the code.

    Modelling conventions.

    - A Python [str] is a [list ascii]; a character is a code point below
      256.  [lower], [is_space] and [is_digit] are Python's [str.lower],
      [str.isspace] and the regex class [\d] on that range.
    - A Python [int] is a [Z]; list positions are [nat], and the slice
      arithmetic of the engine, which can go negative, is done in [Z] with
      Python's slice clamping written out.  [int] of a string and [str]
      of an integer, also inside a format string, raise [ValueError]
      beyond 4300 digits, as CPython does by default.
    - The regular expressions of the source are values of [regex], run by a
      backtracking matcher with Python's priorities (greedy, leftmost).
      The engine covers the constructs the source uses: literals, classes,
      sequence, greedy [?], greedy [*] over a class, capturing groups, and
      the [IGNORECASE] flag.  [re.escape] of a name is the sequence of its
      characters as literals.
    - A function that reads or saves pages returns its value together with
      the saves that the wiki accepted, in order; an iteration is a value
      of [members], which yields, ends or raises; an exception that the
      code does not catch is [None], and a function that can raise
      returns an [option].  Logging and the pauses between edits are left
      out. *)

From Stdlib Require Import String.
From Stdlib Require Import List Ascii ZArith Lia Bool Arith Sorted.
From Stdlib Require Import Numbers.DecimalString Numbers.DecimalPos.
Import ListNotations.

Set Implicit Arguments.

Local Open Scope list_scope.

(** ** Python strings *)

Module PyStr.

Definition text := list ascii.

Definition code (c : ascii) : N := N_of_ascii c.

(** [str.lower] on one character: A-Z and the Latin-1 capitals
    (U+00C0..U+00DE without the multiplication sign) move up by 32. *)
Definition lower (c : ascii) : ascii :=
  let n := code c in
  if ((65 <=? n) && (n <=? 90))%N
     || ((192 <=? n) && (n <=? 222) && negb (n =? 215))%N
  then ascii_of_N (n + 32) else c.

(** [str.isspace], also the regex class [\s]. *)
Definition is_space (c : ascii) : bool :=
  let n := code c in
  (((9 <=? n) && (n <=? 13)) || ((28 <=? n) && (n <=? 32))
   || (n =? 133) || (n =? 160))%N.

(** The regex class [\d]. *)
Definition is_digit (c : ascii) : bool :=
  let n := code c in ((48 <=? n) && (n <=? 57))%N.

Definition ascii_eqb (a b : ascii) : bool := Ascii.eqb a b.

Definition str_lower (s : text) : text := map lower s.

Fixpoint dropwhile (p : ascii -> bool) (s : text) : text :=
  match s with
  | [] => []
  | c :: s' => if p c then dropwhile p s' else s
  end.

Definition lstrip (s : text) : text := dropwhile is_space s.
Definition rstrip (s : text) : text := rev (dropwhile is_space (rev s)).

(** [s.strip()] *)
Definition strip (s : text) : text := rstrip (lstrip s).

(** [s.replace(a, b)] for single characters [a] and [b]. *)
Definition replace_char (a b : ascii) (s : text) : text :=
  map (fun c => if ascii_eqb c a then b else c) s.

(** [a in s] for a character [a]. *)
Definition mem_char (a : ascii) (s : text) : bool := existsb (ascii_eqb a) s.

(** [s.split(a, 1)[1]] when [a in s]: what follows the first [a]. *)
Fixpoint after_first (a : ascii) (s : text) : text :=
  match s with
  | [] => []
  | c :: s' => if ascii_eqb c a then s' else after_first a s'
  end.

Fixpoint starts_with (p s : text) : bool :=
  match p, s with
  | [], _ => true
  | _ :: _, [] => false
  | a :: p', c :: s' => ascii_eqb a c && starts_with p' s'
  end.

(** [p in s] for strings. *)
Fixpoint contains (p s : text) : bool :=
  starts_with p s ||
  match s with
  | [] => false
  | _ :: s' => contains p s'
  end.

(** [s.replace(p, "")] for a non-empty [p]: the occurrences of [p] are
    deleted left to right, without overlap.  [skip] counts the characters
    of the occurrence in progress that are still to be dropped. *)
Fixpoint delete_all_from (p s : text) (skip : nat) : text :=
  match s with
  | [] => []
  | c :: s' =>
      match skip with
      | S k => delete_all_from p s' k
      | O => if starts_with p s
             then delete_all_from p s' (length p - 1)
             else c :: delete_all_from p s' 0
      end
  end.

Definition delete_all (p s : text) : text :=
  match p with
  | [] => s
  | _ :: _ => delete_all_from p s 0
  end.

(** Python's slice bounds: a negative index counts from the end, and both
    ends are clamped to the string. *)
Definition slice_index (len i : Z) : nat :=
  if (i <? 0)%Z then Z.to_nat (Z.max 0 (len + i)) else Z.to_nat (Z.min i len).

Definition zlen (s : text) : Z := Z.of_nat (length s).

(** [s[:i]] *)
Definition slice_to (s : text) (i : Z) : text :=
  firstn (slice_index (zlen s) i) s.

(** [s[i:]] *)
Definition slice_from (s : text) (i : Z) : text :=
  skipn (slice_index (zlen s) i) s.

(** The value of a run of decimal digits, and the decimal numeral of an
    integer. *)
Definition digit_val (c : ascii) : Z := Z.of_N (code c - 48).

Definition digits_value (s : text) : Z :=
  fold_left (fun acc c => (10 * acc + digit_val c)%Z) s 0%Z.

Definition decimal (n : Z) : text :=
  list_ascii_of_string (NilZero.string_of_int (Z.to_int n)).

(** [sys.get_int_max_str_digits()]: CPython converts between [int] and
    [str] up to this many digits and raises [ValueError] beyond. *)
Definition int_max_str_digits : Z := 4300.

(** [int(s)] for a string of decimal digits; [None] is the [ValueError]
    raised for more than [int_max_str_digits] digits. *)
Definition int_of_digits (s : text) : option Z :=
  if (zlen s <=? int_max_str_digits)%Z then Some (digits_value s) else None.

(** [str(n)] for an integer, also when a format string or an f-string
    prints it; [None] is the [ValueError] raised for an integer of more
    than [int_max_str_digits] digits. *)
Definition str_of_int (n : Z) : option text :=
  if (zlen (decimal (Z.abs n)) <=? int_max_str_digits)%Z
  then Some (decimal n) else None.

End PyStr.

Import PyStr.

(** String literals of the source, as texts. *)
Notation "'T' s" := (list_ascii_of_string s%string)
  (at level 9, s at level 0, only parsing).

(** ** The regular-expression engine *)

Module Re.

Inductive regex : Type :=
| Eps
| Lit (c : ascii)
| Cls (p : ascii -> bool)
| Seq (a b : regex)
| Opt (a : regex)
| Star (p : ascii -> bool)
| Grp (a : regex).

(** A literal compares by [lower] under [IGNORECASE]. *)
Definition lit_eqb (ic : bool) (c x : ascii) : bool :=
  if ic then ascii_eqb (lower x) (lower c) else ascii_eqb x c.

Definition captures := list text.

Section Matcher.

Variable R : Type.
Variable ic : bool.

(** Greedy [p*]: the longest run first, then one character less, and so on. *)
Fixpoint star (p : ascii -> bool) (s : text) (caps : captures)
  (k : text -> captures -> option R) : option R :=
  match s with
  | c :: s' =>
      if p c then
        match star p s' caps k with
        | Some r => Some r
        | None => k s caps
        end
      else k s caps
  | [] => k s caps
  end.

(** [run r s caps k]: match [r] at the head of [s], then continue with [k]
    on what is left; [None] makes the matcher backtrack. *)
Fixpoint run (r : regex) (s : text) (caps : captures)
  (k : text -> captures -> option R) {struct r} : option R :=
  match r with
  | Eps => k s caps
  | Lit c =>
      match s with
      | x :: s' => if lit_eqb ic c x then k s' caps else None
      | [] => None
      end
  | Cls p =>
      match s with
      | x :: s' => if p x then k s' caps else None
      | [] => None
      end
  | Seq a b => run a s caps (fun s' caps' => run b s' caps' k)
  | Opt a =>
      match run a s caps k with
      | Some r => Some r
      | None => k s caps
      end
  | Star p => star p s caps k
  | Grp a =>
      run a s caps
        (fun s' caps' => k s' (caps' ++ [firstn (length s - length s') s]))
  end.

End Matcher.

(** The match of [r] that starts at the head of [s]: its length and groups. *)
Definition match_at (ic : bool) (r : regex) (s : text) : option (nat * captures) :=
  run ic r s [] (fun s' caps => Some (length s - length s', caps)).

(** [re.search]: the leftmost match, as (start, end, groups). *)
Fixpoint search_from (ic : bool) (r : regex) (pos : nat) (s : text)
  : option (nat * nat * captures) :=
  match match_at ic r s with
  | Some (n, caps) => Some (pos, pos + n, caps)
  | None =>
      match s with
      | [] => None
      | _ :: s' => search_from ic r (S pos) s'
      end
  end.

Definition search (ic : bool) (r : regex) (s : text) := search_from ic r 0 s.

(** [re.finditer]: the spans of the non-overlapping matches, left to right.
    The patterns of the source match no empty string; [skip] counts the
    characters of the current match that the scan still has to pass. *)
Fixpoint finditer_from (ic : bool) (r : regex) (pos : nat) (s : text) (skip : nat)
  : list (nat * nat) :=
  match s with
  | [] => []
  | _ :: s' =>
      match skip with
      | S k => finditer_from ic r (S pos) s' k
      | O =>
          match match_at ic r s with
          | Some (S n, _) => (pos, pos + S n) :: finditer_from ic r (S pos) s' n
          | _ => finditer_from ic r (S pos) s' 0
          end
      end
  end.

Definition finditer (ic : bool) (r : regex) (s : text) : list (nat * nat) :=
  finditer_from ic r 0 s 0.

(** [re.sub(r, repl, s)] for a literal replacement. *)
Fixpoint sub_from (ic : bool) (r : regex) (repl : text) (s : text) (skip : nat)
  : text :=
  match s with
  | [] => []
  | c :: s' =>
      match skip with
      | S k => sub_from ic r repl s' k
      | O =>
          match match_at ic r s with
          | Some (S n, _) => repl ++ sub_from ic r repl s' n
          | _ => c :: sub_from ic r repl s' 0
          end
      end
  end.

Definition sub (ic : bool) (r : regex) (repl s : text) : text :=
  sub_from ic r repl s 0.

(** Pattern builders. *)
Fixpoint lits (s : text) : regex :=
  match s with
  | [] => Eps
  | c :: s' => Seq (Lit c) (lits s')
  end.

(** [re.escape(name)] as a pattern: the name, character by character. *)
Definition escape (name : text) : regex := lits name.

Fixpoint seq (rs : list regex) : regex :=
  match rs with
  | [] => Eps
  | r :: rs' => Seq r (seq rs')
  end.

Definition plus (p : ascii -> bool) : regex := Seq (Cls p) (Star p).

Definition ws : regex := Star is_space.

Definition is_char (a : ascii) (c : ascii) : bool := ascii_eqb c a.
Definition not_char (a : ascii) (c : ascii) : bool := negb (ascii_eqb c a).

(** A character and then one or more of it, as in [\n\n+]. *)
Definition run_of (c : ascii) : regex := seq [Lit c; plus (is_char c)].

End Re.

Import Re.

Local Open Scope char_scope.

(** ** replace_templates.py *)

Module ReplaceTemplates.

(** [normalize_template_name(name)] *)
Definition normalize_template_name (name : text) : text :=
  let name := if mem_char ":" name then after_first ":" name else name in
  replace_char "_" " " (str_lower (strip name)).

(** [r'\{\{\s*' + re.escape(template_name) + r'\s*\|\s*(\d+)\s*\}\}'] *)
Definition numbered_pattern (template_name : text) : regex :=
  seq [Lit "{"; Lit "{"; ws; escape template_name; ws; Lit "|"; ws;
       Grp (plus is_digit); ws; Lit "}"; Lit "}"].

(** [r'\{\{\s*' + re.escape(template_name) + r'\s*\|\s*limit\s*=\s*(\d+)'] *)
Definition named_pattern (template_name : text) : regex :=
  seq [Lit "{"; Lit "{"; ws; escape template_name; ws; Lit "|"; ws;
       lits (T "limit"); ws; Lit "="; ws; Grp (plus is_digit)].

(** [match.group(1)] of a search result. *)
Definition group1 (m : option (nat * nat * captures)) : option text :=
  match m with
  | Some (_, _, caps) => Some (nth 0 caps [])
  | None => None
  end.

(** [extract_limit_from_template(text, template_name)]: [Some (Some n)] is
    the limit [n], [Some None] the value [None] of the last line, and
    [None] the [ValueError] of [int(match.group(1))], which the function
    does not catch. *)
Definition extract_limit_from_template (txt template_name : text)
  : option (option Z) :=
  match group1 (search true (numbered_pattern template_name) txt) with
  | Some digits => option_map Some (int_of_digits digits)
  | None =>
      match group1 (search true (named_pattern template_name) txt) with
      | Some digits => option_map Some (int_of_digits digits)
      | None => Some None
      end
  end.

(** [r'\{\{\s*' + re.escape(target) + r'\s*[\|\}]'] *)
Definition target_pattern (target : text) : regex :=
  seq [Lit "{"; Lit "{"; ws; escape target; ws;
       Cls (fun c => is_char "|" c || is_char "}" c)].

(** [has_target_template(text, target)] *)
Definition has_target_template (txt target : text) : bool :=
  match search true (target_pattern target) txt with
  | Some _ => true
  | None => false
  end.

(** The pattern built from [re.escape(source)], written with blanks between
    its parts: [\{\{ \s* SOURCE \s* ( \| [^\}]* )? \}\}] *)
Definition source_pattern (source : text) : regex :=
  seq [Lit "{"; Lit "{"; ws; escape source; ws;
       Opt (Grp (Seq (Lit "|") (Star (not_char "}")))); Lit "}"; Lit "}"].

(** An entry of [source_found]: the source name and the match's span. *)
Record found : Type := Found { f_source : text; f_start : nat; f_end : nat }.

(** [match.group(0)] *)
Definition group0 (txt : text) (f : found) : text :=
  firstn (f_end f - f_start f) (skipn (f_start f) txt).

(** The loop that fills [source_found]. *)
Definition source_found (txt : text) (source_templates : list text) : list found :=
  flat_map
    (fun source =>
       map (fun se => Found source (fst se) (snd se))
           (finditer true (source_pattern source) txt))
    source_templates.

(** [source_found.sort(key=lambda x: x[1].start())]: a stable sort. *)
Fixpoint insert_found (f : found) (l : list found) : list found :=
  match l with
  | [] => [f]
  | g :: l' =>
      if (f_start f <=? f_start g)%nat then f :: g :: l' else g :: insert_found f l'
  end.

Fixpoint sort_found (l : list found) : list found :=
  match l with
  | [] => []
  | f :: l' => insert_found f (sort_found l')
  end.

(** The newline character. *)
Definition nl : ascii := "010".

(** [re.sub(r'\n\n+', '\n\n', text)] *)
Definition collapse_newlines (txt : text) : text :=
  sub false (run_of nl) [nl; nl] txt.

(** [re.sub(r'  +', ' ', text)] *)
Definition collapse_spaces (txt : text) : text :=
  sub false (run_of " ") [" "] txt.

(** [text[:match.start()] + text[match.end():]] *)
Definition cut (txt : text) (f : found) : text :=
  slice_to txt (Z.of_nat (f_start f)) ++ slice_from txt (Z.of_nat (f_end f)).

(** The branch taken when the target already exists. *)
Definition remove_redundant (txt : text) (sorted : list found) : text :=
  let txt := fold_left cut (rev sorted) txt in
  collapse_spaces (collapse_newlines txt).

(** [custom_limit if custom_limit else default_limit] *)
Definition applied_limit (custom_limit : option Z) (default_limit : Z) : Z :=
  match custom_limit with
  | Some n => if (n =? 0)%Z then default_limit else n
  | None => default_limit
  end.

(** [f'{{{{{target_template}|{limit}}}}}'], for the text that printing
    [limit] gives. *)
Definition replacement (target_template : text) (limit : text) : text :=
  T "{{" ++ target_template ++ T "|" ++ limit ++ T "}}".

(** One turn of the loop over [source_found[1:]]; the state is the text and
    the running [offset]. *)
Definition remove_step (first_start : Z) (st : text * Z) (f : found) : text * Z :=
  let '(txt, offset) := st in
  let s := Z.of_nat (f_start f) in
  let e := Z.of_nat (f_end f) in
  let new_start := if (s >? first_start)%Z then (s + offset)%Z else s in
  let new_end := if (e >? first_start)%Z then (e + offset)%Z else e in
  (slice_to txt new_start ++ slice_from txt new_end,
   (offset - (new_end - new_start))%Z).

(** The text of the replace-first branch, given the first match and the rest. *)
Definition replace_first (txt : text) (first : found) (rest : list found)
  (repl : text) : text :=
  let s0 := Z.of_nat (f_start first) in
  let txt1 := slice_to txt s0 ++ repl ++ slice_from txt (Z.of_nat (f_end first)) in
  let offset := (zlen repl - zlen (group0 txt first))%Z in
  collapse_newlines (fst (fold_left (remove_step s0) rest (txt1, offset))).

(** The action text of the replace-first branch, for the text that printing
    [limit] gives.  The number of duplicates is a count of matches in the
    text, far below the digit limit of [str], and is printed as its
    numeral. *)
Definition replaced_action (first_source target_template : text) (limit : text)
  (n_found : nat) : text :=
  T "Replaced " ++ first_source ++ T " with " ++ target_template ++ T "|"
    ++ limit
    ++ (if (1 <? n_found)%nat
        then T " and removed " ++ decimal (Z.of_nat (n_found - 1))
               ++ T " duplicate(s)"
        else []).

(** [replace_templates(text, source_templates, target_template, default_limit)],
    returning [(new_text, changed, action)]; [None] is a [ValueError], of
    the extraction or of printing the limit, which the function does not
    catch. *)
Definition replace_templates (txt : text) (source_templates : list text)
  (target_template : text) (default_limit : Z) : option (text * bool * text) :=
  let target_exists := has_target_template txt target_template in
  match sort_found (source_found txt source_templates) with
  | [] => Some (txt, false, T "No source templates found")
  | first :: rest =>
      if target_exists then
        Some (remove_redundant txt (first :: rest), true,
              T "Removed redundant source templates (target already exists)")
      else
        match extract_limit_from_template (group0 txt first) (f_source first) with
        | None => None
        | Some custom_limit =>
            let limit := applied_limit custom_limit default_limit in
            match str_of_int limit with
            | None => None
            | Some digits =>
                Some (replace_first txt first rest
                        (replacement target_template digits), true,
                      replaced_action (f_source first) target_template digits
                        (length (first :: rest)))
            end
        end
  end.

End ReplaceTemplates.

Import ReplaceTemplates.

(** ** category_diffusion_bot.py *)

Module CategoryDiffusionBot.

(** What iterating [category.members(...)] does: it yields a page, ends, or
    raises. *)
Inductive members (A : Type) : Type :=
| Stop
| Item (x : A) (rest : members A)
| Raise.

Arguments Stop {A}.
Arguments Raise {A}.

(** A category, as far as the counter sees it: [members(namespaces=[6],
    total=n)] for each [n]. *)
Definition category (A : Type) := Z -> members A.

(** The [for] loop of the counter; an exception ends it with the count so
    far (the [except Exception] clause only logs). *)
Fixpoint count_loop (A : Type) (g : members A) (count threshold : Z) : Z :=
  match g with
  | Stop => count
  | Raise => count
  | Item _ rest =>
      let count := (count + 1)%Z in
      if (count >? threshold)%Z then count else count_loop rest count threshold
  end.

(** [count_files_in_category(category, threshold)] *)
Definition count_files_in_category (A : Type) (cat : category A) (threshold : Z) : Z :=
  count_loop (cat (threshold + 1)%Z) 0 threshold.

(** The test of [main]: [if file_count <= threshold]. *)
Definition eligible (file_count threshold : Z) : bool :=
  (file_count <=? threshold)%Z.

(** [text == other] *)
Fixpoint text_eqb (a b : text) : bool :=
  match a, b with
  | [], [] => true
  | x :: a', y :: b' => ascii_eqb x y && text_eqb a' b'
  | _, _ => false
  end.

(** The pattern [\[\[ TITLE \| [^\]]* \]\]] built from
    [re.escape(parent_title)]. *)
Definition pipe_pattern (parent_title : text) : regex :=
  seq [Lit "["; Lit "["; escape parent_title; Lit "|"; Star (not_char "]");
       Lit "]"; Lit "]"].

Definition parent_tag (parent_title : text) : text :=
  T "[[" ++ parent_title ++ T "]]".

Definition parent_tag_with_pipe (parent_title : text) : text :=
  T "[[" ++ parent_title ++ T "|".

(** The text part of [remove_category_from_parent]: the page text after the
    call and the value returned, for the text read from the page and the
    parent's title.  When the function returns [False] the page keeps its
    text. *)
Definition remove_category_from_parent (txt parent_title : text) : text * bool :=
  if negb (contains (parent_tag parent_title) txt)
     && negb (contains (parent_tag_with_pipe parent_title) txt)
  then (txt, false)
  else
    let new_text :=
      if contains (parent_tag parent_title) txt
      then delete_all (parent_tag parent_title) txt else txt in
    let new_text := sub false (pipe_pattern parent_title) [] new_text in
    if text_eqb new_text txt then (txt, false) else (new_text, true).

End CategoryDiffusionBot.

(** ** replace_catdiffuse.py *)

Module ReplaceCatdiffuse.

Import CategoryDiffusionBot.

(** This file's counter has no [except] clause: an exception of the
    iteration leaves the function, written [None]. *)
Fixpoint count_loop (A : Type) (g : members A) (count threshold : Z) : option Z :=
  match g with
  | Stop => Some count
  | Raise => None
  | Item _ rest =>
      let count := (count + 1)%Z in
      if (count >? threshold)%Z then Some count else count_loop rest count threshold
  end.

Definition count_files_in_category (A : Type) (cat : category A) (threshold : Z)
  : option Z :=
  count_loop (cat (threshold + 1)%Z) 0 threshold.

(** [normalize_template_name(name)] of this file. *)
Definition normalize_template_name (name : text) : text :=
  str_lower (strip name).

(** The parse tree of [mwparserfromhell], as far as the function uses it:
    a page is a sequence of nodes, a node is text or a template with a name
    and parameters.  A positional parameter carries its number as name.
    [filter_templates] also yields the templates nested inside a
    parameter's value; these are not part of the model, which speaks of
    pages whose templates are not nested. *)
Record param : Type := Param { p_name : text; p_value : text }.
Record template : Type := Template { t_name : text; t_params : list param }.
Inductive node : Type :=
| NText (s : text)
| NTemplate (t : template).
Definition wikicode := list node.

(** [Template.add(name, value)]: the parameter of that name gets the value,
    a new name is appended.  The blanks that the library may put around a
    name or a value are left out; the code strips both before it uses
    them. *)
Fixpoint add (ps : list param) (name value : text) : list param :=
  match ps with
  | [] => [Param name value]
  | p :: ps' =>
      if CategoryDiffusionBot.text_eqb (strip (p_name p)) (strip name)
      then Param (p_name p) value :: ps'
      else p :: add ps' name value
  end.

(** [int(s)] for a stripped string: an optional sign, then digits, single
    underscores allowed between digits, and no more than
    [int_max_str_digits] digits; [None] is the [ValueError]. *)
Fixpoint int_digits (s : text) (after_digit : bool) (acc : Z) : option Z :=
  match s with
  | [] => if after_digit then Some acc else None
  | c :: s' =>
      if is_digit c then int_digits s' true (10 * acc + digit_val c)%Z
      else if ascii_eqb c "_" && after_digit then int_digits s' false acc
      else None
  end.

Definition parse_int (s : text) : option Z :=
  if (zlen (filter is_digit s) <=? int_max_str_digits)%Z then
    match s with
    | "-" :: s' => option_map Z.opp (int_digits s' false 0)
    | "+" :: s' => int_digits s' false 0
    | _ => int_digits s false 0
    end
  else None.

(** [str(p.name).strip().lower() == 'threshold'] *)
Definition is_threshold (p : param) : bool :=
  CategoryDiffusionBot.text_eqb (str_lower (strip (p_name p))) (T "threshold").

(** The loop over [tpl.params] that looks for a threshold: the last one that
    [int] accepts. *)
Definition existing_threshold (ps : list param) : option Z :=
  fold_left
    (fun acc p =>
       if is_threshold p then
         match parse_int (strip (p_value p)) with
         | Some n => Some n
         | None => acc
         end
       else acc)
    ps None.

(** The name compared with the source names: normalised, and without a
    leading [template:]. *)
Definition tpl_key (t : template) : text :=
  let n := normalize_template_name (t_name t) in
  if starts_with (T "template:") n then strip (after_first ":" n) else n.

Definition is_source (src_normal : list text) (t : template) : bool :=
  existsb (CategoryDiffusionBot.text_eqb (tpl_key t)) src_normal.

(** The new template node built for a source template; [None] is the
    [ValueError] of [str(final_threshold)], which the function does not
    catch. *)
Definition new_tpl (t : template) (target_template_name : text)
  (threshold_value : Z) (preserve_params : bool) : option template :=
  let final_threshold :=
    match existing_threshold (t_params t) with
    | Some n => n
    | None => threshold_value
    end in
  let ps :=
    if preserve_params
    then fold_left (fun acc p => add acc (p_name p) (p_value p)) (t_params t) []
    else [] in
  if existsb is_threshold ps then Some (Template target_template_name ps)
  else
    match str_of_int final_threshold with
    | None => None
    | Some digits =>
        Some (Template target_template_name (add ps (T "threshold") digits))
    end.

(** The loop over the templates of the page; the state is [changed] and
    [detected_threshold], and [None] is an exception that leaves the
    loop. *)
Fixpoint replace_nodes (src_normal : list text) (target_template_name : text)
  (threshold_value : Z) (preserve_params : bool) (doc : wikicode)
  (changed : bool) (detected : option Z) : option (wikicode * bool * option Z) :=
  match doc with
  | [] => Some ([], changed, detected)
  | NText s :: doc' =>
      match replace_nodes src_normal target_template_name threshold_value
              preserve_params doc' changed detected with
      | None => None
      | Some (out, ch, det) => Some (NText s :: out, ch, det)
      end
  | NTemplate t :: doc' =>
      if is_source src_normal t then
        let detected' :=
          match existing_threshold (t_params t) with
          | Some n => Some n
          | None => detected
          end in
        match new_tpl t target_template_name threshold_value preserve_params with
        | None => None
        | Some new =>
            match replace_nodes src_normal target_template_name threshold_value
                    preserve_params doc' true detected' with
            | None => None
            | Some (out, ch, det) => Some (NTemplate new :: out, ch, det)
            end
        end
      else
        match replace_nodes src_normal target_template_name threshold_value
                preserve_params doc' changed detected with
        | None => None
        | Some (out, ch, det) => Some (NTemplate t :: out, ch, det)
        end
  end.

(** [find_and_replace_templates], on the parsed page. *)
Definition find_and_replace_templates (parsed : wikicode)
  (source_template_names : list text) (target_template_name : text)
  (threshold_value : Z) (preserve_params : bool)
  : option (wikicode * bool * option Z) :=
  replace_nodes (map normalize_template_name source_template_names)
    target_template_name threshold_value preserve_params parsed false None.


End ReplaceCatdiffuse.

(** ** Pages, as the bots meet them *)

Module Site.

(** The exceptions the bots name, and any other. *)
Inductive error : Type :=
| NoPageError
| LockedPageError
| EditConflictError
| OtherPageSaveError
| SpamblacklistError
| OtherError.

Inductive result (A : Type) : Type :=
| Ok (a : A)
| Err (e : error).

Arguments Ok {A} a.
Arguments Err {A} e.

(** A page object: its title, what reading its text gives, and what
    [save] gives for a new text and a summary. *)
Record page : Type := Page {
  title : text;
  get : result text;
  save : text -> text -> result unit }.

(** A save that the wiki accepted: the page, its new text, the summary. *)
Record edit : Type := Edit { e_title : text; e_text : text; e_summary : text }.

End Site.

(** ** category_diffusion_bot.py: the functions around the tag remover

    A function of this part returns its value together with the saves it
    made; logging and the pause between edits are left out. *)

Module DiffusionRun.

Import Site CategoryDiffusionBot.

(** [get_subcategories(parent_category)]: the members gathered until the
    iteration ends, or raises (the [except Exception] clause only logs). *)
Fixpoint get_subcategories (A : Type) (g : members A) : list A :=
  match g with
  | Stop => []
  | Raise => []
  | Item x rest => x :: get_subcategories rest
  end.

Definition DIFFUSION_CATEGORY : text :=
  T "Category:Categories requiring temporary diffusion".

(** [EDIT_SUMMARY.format(threshold=threshold)]; [None] is the
    [ValueError] of printing the threshold. *)
Definition EDIT_SUMMARY (threshold : Z) : option text :=
  match str_of_int threshold with
  | None => None
  | Some digits =>
      Some (T "Bot: Removing category with <" ++ digits
              ++ T " files from diffusion list (decluttering)")
  end.

(** [remove_category_from_parent(category, parent_category, dry_run,
    threshold)] for the page of the category and the parent's title; every
    exception ends in [return False]. *)
Definition remove_category_from_parent (pg : page) (parent_title : text)
  (dry_run : bool) (threshold : Z) : bool * list edit :=
  match get pg with
  | Err _ => (false, [])
  | Ok txt =>
      let '(new_text, removed) :=
        CategoryDiffusionBot.remove_category_from_parent txt parent_title in
      if negb removed then (false, [])
      else if dry_run then (true, [])
      else
        match EDIT_SUMMARY threshold with
        | None => (false, [])
        | Some summary =>
            match save pg new_text summary with
            | Ok _ => (true, [Edit (title pg) new_text summary])
            | Err _ => (false, [])
            end
        end
  end.

(** A subcategory of the diffusion list: its file listing and its page. *)
Record subcategory : Type := Subcategory {
  files : category unit;
  page_of : page }.

(** The counters of [main]. *)
Record tally : Type := Tally { processed : Z; removed : Z; skipped : Z }.

(** The loop of [main] over the subcategories. *)
Fixpoint loop (limit threshold : Z) (dry_run : bool) (parent_title : text)
  (subcategories : list subcategory) (t : tally) (edits : list edit)
  : tally * list edit :=
  match subcategories with
  | [] => (t, edits)
  | subcat :: rest =>
      if negb (limit =? 0)%Z && (processed t >=? limit)%Z then (t, edits)
      else
        let file_count := count_files_in_category (files subcat) threshold in
        let '(t', edits') :=
          if eligible file_count threshold then
            let '(ok, es) :=
              remove_category_from_parent (page_of subcat) parent_title dry_run
                threshold in
            if ok
            then (Tally (processed t) (removed t + 1) (skipped t), edits ++ es)
            else (Tally (processed t) (removed t) (skipped t + 1), edits ++ es)
          else (Tally (processed t) (removed t) (skipped t + 1), edits) in
        loop limit threshold dry_run parent_title rest
          (Tally (processed t' + 1) (removed t') (skipped t')) edits'
  end.

(** [main()] once the arguments are read: [live], [min] and [limit] are
    the flags, [parent_members] is the listing of the diffusion category. *)
Definition main (live : bool) (min limit : Z)
  (parent_members : members subcategory) : tally * list edit :=
  let dry_run := negb live in
  let threshold := min in
  match get_subcategories parent_members with
  | [] => (Tally 0 0 0, [])
  | subcategories =>
      loop limit threshold dry_run DIFFUSION_CATEGORY subcategories
        (Tally 0 0 0) []
  end.

End DiffusionRun.

(** ** replace_templates.py: [process_category] and the loop of [main] *)

Module TemplateRun.

Import Site.

Definition EDIT_SUMMARY_REMOVED_REDUNDANT : text :=
  T "Bot: Removing redundant {{CatDiffuse}} ({{Diffusion by condition}} already present)".

(** [config.EDIT_SUMMARY.format(limit=limit)]: the doubled braces of the
    format string come out single. *)
Definition EDIT_SUMMARY (limit : text) : text :=
  T "Bot: Replacing {CatDiffuse} with {Diffusion by condition|" ++ limit ++ T "}".

(** [r'\|(\d+)'] *)
Definition limit_pattern : regex := seq [Lit "|"; Grp (plus is_digit)].

(** The summary chosen for an action; [None] is the [ValueError] of
    printing the default limit. *)
Definition summary_of (action : text) (default_limit : Z) : option text :=
  if contains (T "Removed redundant") action
  then Some EDIT_SUMMARY_REMOVED_REDUNDANT
  else
    match search false limit_pattern action with
    | Some (_, _, caps) => Some (EDIT_SUMMARY (nth 0 caps []))
    | None =>
        match str_of_int default_limit with
        | None => None
        | Some digits => Some (EDIT_SUMMARY digits)
        end
    end.

(** [process_category(page, source_templates, target_template,
    default_limit, dry_run, verbose)]; every exception, that of the engine
    included, ends in [return False]. *)
Definition process_category (pg : page) (source_templates : list text)
  (target_template : text) (default_limit : Z) (dry_run : bool)
  : bool * list edit :=
  match get pg with
  | Err _ => (false, [])
  | Ok txt =>
      match replace_templates txt source_templates target_template
              default_limit with
      | None => (false, [])
      | Some (new_text, changed, action) =>
          if negb changed then (true, [])
          else if dry_run then (true, [])
          else
            match summary_of action default_limit with
            | None => (false, [])
            | Some summary =>
                match save pg new_text summary with
                | Ok _ => (true, [Edit (title pg) new_text summary])
                | Err _ => (false, [])
                end
            end
      end
  end.

(** The loop of [main] over the page generator; an exception of the
    generator is not caught, written [None]. *)
Fixpoint loop (limit : Z) (gen : CategoryDiffusionBot.members page)
  (source_templates : list text) (target_template : text) (default_limit : Z)
  (dry_run : bool) (processed updated : Z) (edits : list edit)
  : option (Z * Z * list edit) :=
  match gen with
  | CategoryDiffusionBot.Stop => Some (processed, updated, edits)
  | CategoryDiffusionBot.Raise => None
  | CategoryDiffusionBot.Item pg rest =>
      if (limit >? 0)%Z && (processed >=? limit)%Z
      then Some (processed, updated, edits)
      else
        let processed := (processed + 1)%Z in
        let '(success, es) :=
          process_category pg source_templates target_template default_limit
            dry_run in
        let updated := if success then (updated + 1)%Z else updated in
        loop limit rest source_templates target_template default_limit dry_run
          processed updated (edits ++ es)
  end.

(** [s.split(a)] for a character [a]. *)
Fixpoint split (a : ascii) (s : text) : list text :=
  match s with
  | [] => [[]]
  | c :: s' =>
      if ascii_eqb c a then [] :: split a s'
      else
        match split a s' with
        | piece :: pieces => (c :: piece) :: pieces
        | [] => [[c]]
        end
  end.

(** [[t.strip() for t in args.templates.split(',')]] *)
Definition source_templates_of (templates : text) : list text :=
  map strip (split "," templates).

End TemplateRun.

(** ** replace_catdiffuse.py: the string tests of [main] *)

Module CatdiffuseRun.

(** [[t.strip() for t in args.templates.split(',') if t.strip()]] *)
Definition source_templates_of (templates : text) : list text :=
  map strip
    (filter (fun t => negb (Nat.eqb (length (strip t)) 0))
       (TemplateRun.split "," templates)).

(** The quick check before parsing:
    [all(s.lower() not in text.lower() for s in source_templates)]. *)
Definition quick_skip (txt : text) (source_templates : list text) : bool :=
  forallb (fun s => negb (contains (str_lower s) (str_lower txt)))
    source_templates.

(** [detected_threshold if detected_threshold is not None else args.threshold] *)
Definition used_threshold (detected_threshold : option Z) (threshold : Z) : Z :=
  match detected_threshold with
  | Some n => n
  | None => threshold
  end.

(** A category page: the page, and the listing of its files. *)
Record cat_page : Type := CatPage {
  c_page : Site.page;
  c_files : CategoryDiffusionBot.category unit }.

(** [args.summary or f'Bot: Replace {src} with {target_template}
    (threshold={used_threshold})']; [None] is the [ValueError] of printing
    the threshold. *)
Definition edit_summary_of (summary : option text) (src target_template : text)
  (used : Z) : option text :=
  match summary with
  | Some (c :: s) => Some (c :: s)
  | _ =>
      match str_of_int used with
      | None => None
      | Some digits =>
          Some (T "Bot: Replace " ++ src ++ T " with " ++ target_template
                  ++ T " (threshold=" ++ digits ++ T ")")
      end
  end.

(** The counters of [main] and the saves made so far. *)
Record progress : Type := Progress {
  processed : Z;
  total_candidates : Z;
  edits : list Site.edit }.

Section Main.

(** The parser and the printer of mwparserfromhell stay abstract. *)
Variable parse : text -> ReplaceCatdiffuse.wikicode.
Variable render : ReplaceCatdiffuse.wikicode -> text.

Variable source_templates : list text.
Variable target_template : text.
Variable threshold : Z.
Variable dry_run : bool.
Variable limit : Z.
Variable summary : option text.

(** The loop over the categories that embed [src]; an exception of the
    generator, of the counter, of the engine or of building the summary
    is not caught, written [None]. *)
Fixpoint pages_loop (gen : CategoryDiffusionBot.members cat_page) (src : text)
  (st : progress) : option progress :=
  match gen with
  | CategoryDiffusionBot.Stop => Some st
  | CategoryDiffusionBot.Raise => None
  | CategoryDiffusionBot.Item cat rest =>
      let st := Progress (processed st) (total_candidates st + 1) (edits st) in
      if negb (limit =? 0)%Z && (processed st >=? limit)%Z then Some st
      else
        match Site.get (c_page cat) with
        | Site.Err _ => pages_loop rest src st
        | Site.Ok txt =>
            if quick_skip txt source_templates then pages_loop rest src st
            else
              match ReplaceCatdiffuse.count_files_in_category (c_files cat)
                      threshold with
              | None => None
              | Some file_count =>
                  if (file_count <=? threshold)%Z then
                    match ReplaceCatdiffuse.find_and_replace_templates
                            (parse txt) [src] target_template threshold true with
                    | None => None
                    | Some (new, changed, detected_threshold) =>
                        if changed then
                          let used :=
                            used_threshold detected_threshold threshold in
                          let next saved :=
                            pages_loop rest src
                              (Progress (processed st + 1) (total_candidates st)
                                 (edits st ++ saved)) in
                          if dry_run then next []
                          else
                            match edit_summary_of summary src target_template
                                    used with
                            | None => None
                            | Some edit_summary =>
                                match Site.save (c_page cat) (render new)
                                        edit_summary with
                                | Site.Ok _ =>
                                    next [Site.Edit (Site.title (c_page cat))
                                            (render new) edit_summary]
                                | Site.Err _ => next []
                                end
                            end
                        else pages_loop rest src st
                    end
                  else pages_loop rest src st
              end
        end
  end.

(** The loop over the source templates; [None] for a generator stands for
    a call of [embeddedin] that raises, which is caught. *)
Fixpoint sources_loop
  (embedding : list (text * option (CategoryDiffusionBot.members cat_page)))
  (st : progress) : option progress :=
  match embedding with
  | [] => Some st
  | (_, None) :: rest => sources_loop rest st
  | (src, Some gen) :: rest =>
      match pages_loop gen src st with
      | None => None
      | Some st =>
          if negb (limit =? 0)%Z && (processed st >=? limit)%Z then Some st
          else sources_loop rest st
      end
  end.

End Main.

End CatdiffuseRun.

(** ** Notions used to state the properties *)

Module Notions.

Import ReplaceTemplates CategoryDiffusionBot.

(** The strings a pattern matches: the declarative reading of [regex]. *)
Inductive Matches (ic : bool) : regex -> text -> Prop :=
| MEps : Matches ic Eps []
| MLit c x : lit_eqb ic c x = true -> Matches ic (Lit c) [x]
| MCls p x : p x = true -> Matches ic (Cls p) [x]
| MSeq a b s1 s2 :
    Matches ic a s1 -> Matches ic b s2 -> Matches ic (Seq a b) (s1 ++ s2)
| MOptNone a : Matches ic (Opt a) []
| MOptSome a s : Matches ic a s -> Matches ic (Opt a) s
| MStar p s : forallb p s = true -> Matches ic (Star p) s
| MGrp a s : Matches ic a s -> Matches ic (Grp a) s.

(** [p] occurs in [s] as a substring. *)
Definition occurs (p s : text) : Prop := exists pre post, s = pre ++ p ++ post.

(** Names equal up to letter case. *)
Definition same_name (a b : text) : Prop := str_lower a = str_lower b.

(** A run of whitespace. *)
Definition blank (w : text) : Prop := forallb is_space w = true.

(** The invocation grammar for a candidate name:
    ["{{" WS* NAME WS* ("|" ARGS)? "}}"], with [ARGS] free of ["}"]. *)
Inductive invocation (name : text) : text -> Prop :=
| inv_bare w1 n w2 :
    blank w1 -> same_name n name -> blank w2 ->
    invocation name (T "{{" ++ w1 ++ n ++ w2 ++ T "}}")
| inv_args w1 n w2 args :
    blank w1 -> same_name n name -> blank w2 ->
    forallb (not_char "}") args = true ->
    invocation name (T "{{" ++ w1 ++ n ++ w2 ++ T "|" ++ args ++ T "}}").

(** The text has no invocation of any of the source names. *)
Definition no_source (txt : text) (sources : list text) : Prop :=
  forall src pre inv post,
    In src sources -> txt = pre ++ inv ++ post -> ~ invocation src inv.

(** A sort-keyed tag closed by ["]]"], its key free of ["]"]. *)
Definition piped_tag (title tag : text) : Prop :=
  exists key,
    tag = T "[[" ++ title ++ T "|" ++ key ++ T "]]"
    /\ forallb (not_char "]") key = true.

(** A tag of the parent as pages write it: the plain form, or the
    sort-keyed form with a key free of brackets. *)
Definition closed_tag (title tag : text) : Prop :=
  tag = T "[[" ++ title ++ T "]]"
  \/ exists key,
       tag = T "[[" ++ title ++ T "|" ++ key ++ T "]]"
       /\ ~ In "[" key /\ ~ In "]" key.

(** A page written as the text before its first tag and then each tag with
    the text that follows it; and the text around the tags alone. *)
Definition page_of_tags (seg0 : text) (rest : list (text * text)) : text :=
  seg0 ++ flat_map (fun ts => fst ts ++ snd ts) rest.

Definition text_around (seg0 : text) (rest : list (text * text)) : text :=
  seg0 ++ flat_map (fun ts => snd ts) rest.

(** The spans of a list ordered by start do not overlap: each one ends
    where the next starts, or before. *)
Fixpoint separated (l : list found) : bool :=
  match l with
  | [] => true
  | f :: l' =>
      match l' with
      | [] => true
      | g :: _ => (f_end f <=? f_start g)%nat && separated l'
      end
  end.

(** What is left of [txt] from position [pos] on when the spans of [l] are
    taken out. *)
Fixpoint gaps (txt : text) (pos : nat) (l : list found) : text :=
  match l with
  | [] => skipn pos txt
  | f :: l' => firstn (f_start f - pos) (skipn pos txt) ++ gaps txt (f_end f) l'
  end.

(** The name that [normalize_template_name] works on once the namespace
    prefix is gone. *)
Definition without_namespace (name : text) : text :=
  if mem_char ":" name then after_first ":" name else name.

(** A text that does not begin with whitespace. *)
Definition head_ok (s : text) : Prop :=
  forall c r, s = c :: r -> is_space c = false.

(** One character through [lower] and the underscore replacement. *)
Definition fold_char (c : ascii) : ascii :=
  if ascii_eqb (lower c) "_" then " " else lower c.

(** The spans of [l], in order, lie between [pos] and [len] without
    overlap. *)
Fixpoint chain (pos : nat) (l : list found) (len : nat) : Prop :=
  match l with
  | [] => pos <= len
  | f :: l' => pos <= f_start f /\ f_start f <= f_end f /\ chain (f_end f) l' len
  end.

(** The same for the spans that [finditer] reports. *)
Fixpoint spans_chain (pos : nat) (l : list (nat * nat)) : Prop :=
  match l with
  | [] => True
  | (a, b) :: l' => pos <= a /\ a < b /\ spans_chain b l'
  end.


(** A text that does not begin with a character of the class [p]. *)
Definition stops (p : ascii -> bool) (s : text) : Prop :=
  match s with
  | [] => True
  | c :: _ => p c = false
  end.

(** The common head of the two patterns of the limit extraction. *)
Definition args_pattern (name : text) (rest : regex) : regex :=
  Seq (Lit "{") (Seq (Lit "{") (Seq ws (Seq (escape name)
    (Seq ws (Seq (Lit "|") (Seq ws rest)))))).



(** The groups of a pattern, by their bodies. *)
Fixpoint groups_of (r : regex) : list regex :=
  match r with
  | Grp a => a :: groups_of a
  | Seq a b => groups_of a ++ groups_of b
  | Opt a => groups_of a
  | _ => []
  end.

(** A generator that yields the elements of a list and ends. *)
Fixpoint of_list (A : Type) (l : list A) : members A :=
  match l with
  | [] => Stop
  | x :: l' => Item x (of_list l')
  end.

End Notions.

(** Notions for the functions around the engines. *)

Module RunNotions.

Import CategoryDiffusionBot.

(** A generator that yields the elements of a list and then raises. *)
Fixpoint then_raise (A : Type) (l : list A) : members A :=
  match l with
  | [] => Raise
  | x :: l' => Item x (then_raise l')
  end.

(** The iteration yields [x] before it ends or raises. *)
Fixpoint yields (A : Type) (g : members A) (x : A) : Prop :=
  match g with
  | Item y rest => y = x \/ yields rest x
  | _ => False
  end.

(** What justifies a save of replace_catdiffuse.py: a category that [gen]
    yields, whose page reads and passes the quick check, whose count is at
    most the threshold, and for whose parsed text the engine, run for
    [src] alone, reports a change; the save has the printed result of the
    engine as its text. *)
Definition justified (parse : text -> ReplaceCatdiffuse.wikicode)
  (render : ReplaceCatdiffuse.wikicode -> text) (source_templates : list text)
  (target : text) (threshold : Z) (summary : option text) (src : text)
  (gen : members CatdiffuseRun.cat_page) (e : Site.edit) : Prop :=
  exists cat txt n new detected,
    yields gen cat
    /\ Site.get (CatdiffuseRun.c_page cat) = Site.Ok txt
    /\ CatdiffuseRun.quick_skip txt source_templates = false
    /\ ReplaceCatdiffuse.count_files_in_category (CatdiffuseRun.c_files cat)
         threshold = Some n
    /\ (n <= threshold)%Z
    /\ ReplaceCatdiffuse.find_and_replace_templates (parse txt) [src] target
         threshold true
       = Some (new, true, detected)
    /\ Site.e_title e = Site.title (CatdiffuseRun.c_page cat)
    /\ Site.e_text e = render new
    /\ CatdiffuseRun.edit_summary_of summary src target
         (CatdiffuseRun.used_threshold detected threshold)
       = Some (Site.e_summary e).

(** How the counters of replace_catdiffuse.py move from one state of its
    loops to a later one. *)
Definition bounded (limit : Z) (dry_run : bool)
  (st st' : CatdiffuseRun.progress) : Prop :=
  (CatdiffuseRun.processed st <= CatdiffuseRun.processed st')%Z
  /\ (CatdiffuseRun.processed st' - CatdiffuseRun.processed st
      <= CatdiffuseRun.total_candidates st' - CatdiffuseRun.total_candidates st)%Z
  /\ (Z.of_nat (length (CatdiffuseRun.edits st'))
      - Z.of_nat (length (CatdiffuseRun.edits st))
      <= CatdiffuseRun.processed st' - CatdiffuseRun.processed st)%Z
  /\ ((0 < limit)%Z -> (CatdiffuseRun.processed st <= limit)%Z ->
      (CatdiffuseRun.processed st' <= limit)%Z)
  /\ (dry_run = true -> CatdiffuseRun.edits st' = CatdiffuseRun.edits st).

(** Two patterns that the matcher cannot tell apart. *)
Definition alike (r r' : regex) : Prop :=
  forall (R : Type) (s : text) (caps : captures) (k : text -> captures -> option R),
    run true r s caps k = run true r' s caps k.

(** The opening of an invocation: the braces, the name, and a ["|"] or one
    ["}"]. *)
Definition target_head (name head : text) : Prop :=
  exists w1 n w2 c,
    head = T "{{" ++ w1 ++ n ++ w2 ++ [c]
    /\ Notions.blank w1 /\ Notions.same_name n name /\ Notions.blank w2
    /\ (c = "|" \/ c = "}").

End RunNotions.

Import Notions.
Import RunNotions.
Import CategoryDiffusionBot.

(** * Properties *)

Unset Implicit Arguments.

(** ** Characters and strings *)

Ltac each_char c := destruct c as [[] [] [] [] [] [] [] []].

Lemma skipn_length_app (A : Type) (l1 l2 : list A) :
  skipn (length l1) (l1 ++ l2) = l2.
Proof. induction l1; simpl; auto. Qed.

Lemma firstn_length_app (A : Type) (l1 l2 : list A) :
  firstn (length l1) (l1 ++ l2) = l1.
Proof. induction l1; simpl; [reflexivity|now f_equal]. Qed.

Lemma ascii_eqb_true (a b : ascii) : ascii_eqb a b = true <-> a = b.
Proof. apply Ascii.eqb_eq. Qed.

Lemma ascii_eqb_false (a b : ascii) : ascii_eqb a b = false <-> a <> b.
Proof. apply Ascii.eqb_neq. Qed.

Lemma ascii_eqb_refl (a : ascii) : ascii_eqb a a = true.
Proof. apply Ascii.eqb_refl. Qed.

Lemma text_eqb_true (a b : text) : text_eqb a b = true <-> a = b.
Proof.
  revert b; induction a as [|x a IH]; intros [|y b]; simpl; split;
    try discriminate; try reflexivity.
  - intros H. apply andb_true_iff in H as [H1 H2].
    apply ascii_eqb_true in H1. apply IH in H2. congruence.
  - intros H. injection H as -> ->. rewrite ascii_eqb_refl. simpl.
    now apply IH.
Qed.

Lemma lower_idem (c : ascii) : lower (lower c) = lower c.
Proof. each_char c; reflexivity. Qed.

Lemma lower_space (c : ascii) : is_space (lower c) = is_space c.
Proof. each_char c; reflexivity. Qed.

Lemma lower_colon (c : ascii) : lower c = ":" -> c = ":".
Proof. each_char c; vm_compute; intros H; try reflexivity; discriminate H. Qed.

Lemma lower_underscore (c : ascii) : lower c = "_" -> c = "_".
Proof. each_char c; vm_compute; intros H; try reflexivity; discriminate H. Qed.

Lemma underscore_not_space : is_space "_" = false.
Proof. reflexivity. Qed.

Section Dropwhile.

Variable p : ascii -> bool.

Lemma dropwhile_head (s : text) (c : ascii) (r : text) :
  dropwhile p s = c :: r -> p c = false.
Proof.
  induction s as [|x s IH]; simpl; [discriminate|].
  destruct (p x) eqn:E; [exact IH|].
  intros H; injection H as -> _; exact E.
Qed.

Lemma dropwhile_fixed (s : text) :
  (forall c r, s = c :: r -> p c = false) -> dropwhile p s = s.
Proof.
  destruct s as [|x s]; simpl; [reflexivity|].
  intros H. now rewrite (H x s eq_refl).
Qed.

Lemma dropwhile_suffix (s : text) : exists w, s = w ++ dropwhile p s.
Proof.
  induction s as [|x s [w IH]]; simpl.
  - now exists [].
  - destruct (p x).
    + exists (x :: w). simpl. now f_equal.
    + now exists [].
Qed.

Lemma dropwhile_In (s : text) (c : ascii) : In c (dropwhile p s) -> In c s.
Proof.
  destruct (dropwhile_suffix s) as [w E]. intros H.
  rewrite E. apply in_or_app. now right.
Qed.

End Dropwhile.

Lemma rstrip_prefix (s : text) : exists w, s = rstrip s ++ w.
Proof.
  unfold rstrip. destruct (dropwhile_suffix is_space (rev s)) as [w E].
  exists (rev w). rewrite <- rev_app_distr, <- E. now rewrite rev_involutive.
Qed.

Lemma strip_head_ok (s : text) : head_ok (strip s).
Proof.
  unfold head_ok, strip. intros c r E.
  destruct (rstrip_prefix (lstrip s)) as [w Ew].
  rewrite E in Ew. simpl in Ew.
  apply (@dropwhile_head is_space s c _ Ew).
Qed.

Lemma strip_last_ok (s : text) : head_ok (rev (strip s)).
Proof.
  unfold head_ok, strip, rstrip. intros c r. rewrite rev_involutive.
  apply dropwhile_head.
Qed.

Lemma strip_fixed (s : text) : head_ok s -> head_ok (rev s) -> strip s = s.
Proof.
  intros H1 H2. unfold strip, lstrip, rstrip.
  rewrite (@dropwhile_fixed is_space s H1).
  rewrite (@dropwhile_fixed is_space (rev s) H2).
  apply rev_involutive.
Qed.

Lemma strip_In (s : text) (c : ascii) : In c (strip s) -> In c s.
Proof.
  unfold strip, rstrip, lstrip. intros H.
  apply in_rev in H. apply dropwhile_In in H. apply in_rev in H.
  now apply dropwhile_In in H.
Qed.

Lemma mem_char_false (a : ascii) (s : text) :
  mem_char a s = false <-> ~ In a s.
Proof.
  unfold mem_char. split.
  - intros H Hin. assert (existsb (ascii_eqb a) s = true) as E.
    { apply existsb_exists. exists a. split; [exact Hin|apply ascii_eqb_refl]. }
    congruence.
  - intros H. destruct (existsb (ascii_eqb a) s) eqn:E; [|reflexivity].
    apply existsb_exists in E as [x [Hx Hax]].
    apply ascii_eqb_true in Hax. subst x. contradiction.
Qed.

Lemma normalize_as_map (x : text) :
  normalize_template_name x = map fold_char (strip (without_namespace x)).
Proof.
  unfold normalize_template_name, without_namespace, replace_char, str_lower.
  now rewrite map_map.
Qed.

Lemma fold_char_idem (c : ascii) : fold_char (fold_char c) = fold_char c.
Proof. each_char c; reflexivity. Qed.

Lemma fold_char_colon (c : ascii) : fold_char c = ":" -> c = ":".
Proof. each_char c; vm_compute; intros H; try reflexivity; discriminate H. Qed.

Lemma fold_char_space (c : ascii) :
  is_space c = false -> c <> "_" -> is_space (fold_char c) = false.
Proof.
  each_char c; vm_compute; intros H1 H2; try reflexivity; try discriminate H1.
  now contradiction H2.
Qed.

Lemma head_ok_fold (s : text) :
  head_ok s -> hd_error s <> Some "_" -> head_ok (map fold_char s).
Proof.
  destruct s as [|c s]; intros H1 H2 d r E; [discriminate|].
  simpl in E. injection E as <- _.
  apply fold_char_space; [now apply (H1 c s)|].
  intros ->. now apply H2.
Qed.

(** ** The name normaliser *)

(** C6, as stated, fails: a second pass removes a second namespace prefix,
    and strips the blank that an underscore at the edge has become. *)
Lemma C6_counterexample :
  normalize_template_name (T "a:b:c") = T "b:c"
  /\ normalize_template_name (normalize_template_name (T "a:b:c")) = T "c"
  /\ normalize_template_name (T "A_") = T "a "
  /\ normalize_template_name (normalize_template_name (T "A_")) = T "a".
Proof. repeat split; reflexivity. Qed.

(** C6, amended: normalisation is idempotent on every name that has no
    second colon (none is left once the namespace prefix is removed) and
    whose trimmed remainder neither begins nor ends with an underscore. *)
Theorem C6_normalize_idempotent_on_clean_names (x : text) :
  mem_char ":" (without_namespace x) = false ->
  hd_error (strip (without_namespace x)) <> Some "_" ->
  hd_error (rev (strip (without_namespace x))) <> Some "_" ->
  normalize_template_name (normalize_template_name x)
  = normalize_template_name x.
Proof.
  intros Hcolon Hfirst Hlast.
  rewrite (normalize_as_map x).
  set (t := strip (without_namespace x)) in *.
  assert (mem_char ":" (map fold_char t) = false) as Hy.
  { apply mem_char_false. intros Hin.
    apply in_map_iff in Hin as [c [Hc Hin]].
    apply fold_char_colon in Hc. subst c.
    apply strip_In in Hin.
    apply mem_char_false in Hcolon. contradiction. }
  rewrite normalize_as_map. unfold without_namespace. rewrite Hy.
  rewrite strip_fixed.
  - rewrite map_map. apply map_ext. intros c. apply fold_char_idem.
  - apply head_ok_fold; [apply strip_head_ok|exact Hfirst].
  - rewrite <- map_rev. apply head_ok_fold; [apply strip_last_ok|exact Hlast].
Qed.

Lemma C6_witness :
  mem_char ":" (without_namespace (T " Template:Cat_Diffuse ")) = false
  /\ hd_error (strip (without_namespace (T " Template:Cat_Diffuse "))) <> Some "_"
  /\ hd_error (rev (strip (without_namespace (T " Template:Cat_Diffuse "))))
     <> Some "_"
  /\ normalize_template_name (normalize_template_name (T " Template:Cat_Diffuse "))
     = normalize_template_name (T " Template:Cat_Diffuse ").
Proof.
  assert (mem_char ":" (without_namespace (T " Template:Cat_Diffuse ")) = false)
    as H1 by reflexivity.
  assert (hd_error (strip (without_namespace (T " Template:Cat_Diffuse ")))
          <> Some "_") as H2 by (vm_compute; discriminate).
  assert (hd_error (rev (strip (without_namespace (T " Template:Cat_Diffuse "))))
          <> Some "_") as H3 by (vm_compute; discriminate).
  split; [exact H1|]. split; [exact H2|]. split; [exact H3|].
  exact (@C6_normalize_idempotent_on_clean_names (T " Template:Cat_Diffuse ")
           H1 H2 H3).
Defined.

(** The invariant's other half: case and underscores do not matter. *)
Lemma normalize_case_underscore :
  normalize_template_name (T "A_B") = normalize_template_name (T "a b").
Proof. reflexivity. Qed.

(** ** The member counter and the eligibility test *)




(** ** The loop of [main] in category_diffusion_bot.py, in closed form *)

Section DiffusionExact.

Import DiffusionRun.

Variable threshold : Z.
Variable dry_run : bool.
Variable parent : text.



End DiffusionExact.




(** ** Substrings *)

Lemma occurs_refl (s : text) : occurs s s.
Proof. exists [], []. now rewrite app_nil_r. Qed.

Lemma occurs_app_l (p a b : text) : occurs p a -> occurs p (a ++ b).
Proof.
  intros [pre [post ->]]. exists pre, (post ++ b). now rewrite <- !app_assoc.
Qed.

Lemma occurs_app_r (p a b : text) : occurs p b -> occurs p (a ++ b).
Proof.
  intros [pre [post ->]]. exists (a ++ pre), post. now rewrite <- !app_assoc.
Qed.

Lemma occurs_trans (a b c : text) : occurs a b -> occurs b c -> occurs a c.
Proof.
  intros [p1 [q1 ->]] [p2 [q2 ->]]. exists (p2 ++ p1), (q1 ++ q2).
  now rewrite <- !app_assoc.
Qed.

Lemma occurs_length (p s : text) : occurs p s -> length p <= length s.
Proof. intros [pre [post ->]]. rewrite !length_app. lia. Qed.

(** ** The matcher against the declarative reading *)

Section MatcherFacts.

Variable R : Type.
Variable ic : bool.

Lemma star_sound (p : ascii -> bool) (s : text) (caps : captures)
  (k : text -> captures -> option R) (x : R) :
  star p s caps k = Some x ->
  exists s1 s2, s = s1 ++ s2 /\ forallb p s1 = true /\ k s2 caps = Some x.
Proof.
  induction s as [|c s IH]; simpl.
  - intros H. now exists [], [].
  - destruct (p c) eqn:Ep.
    + destruct (star p s caps k) as [r|] eqn:Es.
      * intros H. injection H as ->.
        destruct (IH eq_refl) as [s1 [s2 [E [Hp Hk]]]].
        exists (c :: s1), s2. simpl. rewrite Ep, Hp, E. auto.
      * intros H. now exists [], (c :: s).
    + intros H. now exists [], (c :: s).
Qed.

Lemma star_keeps_success (p : ascii -> bool) (s : text) (caps : captures)
  (k : text -> captures -> option R) :
  k s caps <> None -> star p s caps k <> None.
Proof.
  destruct s as [|c s]; simpl; [auto|].
  destruct (p c); [|auto].
  destruct (star p s caps k); [discriminate|auto].
Qed.

Lemma star_complete (p : ascii -> bool) (s1 s2 : text) (caps : captures)
  (k : text -> captures -> option R) :
  forallb p s1 = true -> k s2 caps <> None -> star p (s1 ++ s2) caps k <> None.
Proof.
  induction s1 as [|c s1 IH]; simpl.
  - intros _. apply star_keeps_success.
  - intros H Hk. apply andb_true_iff in H as [Hc Hs]. rewrite Hc.
    specialize (IH Hs Hk).
    destruct (star p (s1 ++ s2) caps k); [discriminate|contradiction].
Qed.

Lemma run_sound (r : regex) :
  forall (s : text) (caps : captures) (k : text -> captures -> option R) (x : R),
    run ic r s caps k = Some x ->
    exists s1 s2 caps',
      s = s1 ++ s2 /\ Matches ic r s1 /\ k s2 caps' = Some x.
Proof.
  induction r as [|c|p|a IHa b IHb|a IHa|p|a IHa]; intros s caps k x; simpl.
  - intros H. exists [], s, caps. repeat split; [constructor|exact H].
  - destruct s as [|y s]; [discriminate|].
    destruct (lit_eqb ic c y) eqn:E; [|discriminate].
    intros H. exists [y], s, caps. repeat split; [now constructor|exact H].
  - destruct s as [|y s]; [discriminate|].
    destruct (p y) eqn:E; [|discriminate].
    intros H. exists [y], s, caps. repeat split; [now constructor|exact H].
  - intros H. apply IHa in H as [s1 [s2 [caps1 [E1 [M1 H]]]]].
    apply IHb in H as [t1 [t2 [caps2 [E2 [M2 H]]]]].
    exists (s1 ++ t1), t2, caps2. subst. rewrite app_assoc.
    repeat split; [now constructor|exact H].
  - destruct (run ic a s caps k) as [y|] eqn:E.
    + intros H. injection H as ->.
      apply IHa in E as [s1 [s2 [caps1 [E1 [M1 H]]]]].
      exists s1, s2, caps1. repeat split; [exact E1|now apply MOptSome|exact H].
    + intros H. exists [], s, caps. repeat split; [apply MOptNone|exact H].
  - intros H. apply star_sound in H as [s1 [s2 [E [Hp Hk]]]].
    exists s1, s2, caps. repeat split; [exact E|now constructor|exact Hk].
  - intros H. apply IHa in H as [s1 [s2 [caps1 [E1 [M1 H]]]]].
    exists s1, s2, (caps1 ++ [firstn (length s - length s2) s]).
    repeat split; [exact E1|now constructor|exact H].
Qed.

(** What a match records: each group is a part of the text matched, and
    matches the body of one of the pattern's groups. *)
Lemma run_captures (r : regex) :
  forall (s : text) (caps : captures) (k : text -> captures -> option R) (x : R),
    run ic r s caps k = Some x ->
    exists s1 s2 new,
      s = s1 ++ s2 /\ Matches ic r s1 /\ k s2 (caps ++ new) = Some x
      /\ Forall (fun g => occurs g s1
                          /\ exists a, In a (groups_of r) /\ Matches ic a g) new.
Proof.
  induction r as [|c|p|a IHa b IHb|a IHa|p|a IHa]; intros s caps k x;
    cbn [run groups_of].
  - intros H. exists [], s, []. rewrite app_nil_r.
    repeat split; [constructor|exact H|constructor].
  - destruct s as [|y s]; [discriminate|].
    destruct (lit_eqb ic c y) eqn:E; [|discriminate].
    intros H. exists [y], s, []. rewrite app_nil_r.
    repeat split; [now constructor|exact H|constructor].
  - destruct s as [|y s]; [discriminate|].
    destruct (p y) eqn:E; [|discriminate].
    intros H. exists [y], s, []. rewrite app_nil_r.
    repeat split; [now constructor|exact H|constructor].
  - intros H. apply IHa in H as [s1 [s2 [n1 [-> [Ma [H F1]]]]]].
    apply IHb in H as [t1 [t2 [n2 [-> [Mb [H F2]]]]]].
    exists (s1 ++ t1), t2, (n1 ++ n2).
    split; [now rewrite app_assoc|]. split; [now constructor|].
    split; [now rewrite app_assoc|].
    apply Forall_app. split.
    + eapply Forall_impl; [|exact F1]. intros g [Ho [a0 [Hin Hm]]].
      split; [now apply occurs_app_l|]. exists a0.
      split; [apply in_or_app; now left|exact Hm].
    + eapply Forall_impl; [|exact F2]. intros g [Ho [a0 [Hin Hm]]].
      split; [now apply occurs_app_r|]. exists a0.
      split; [apply in_or_app; now right|exact Hm].
  - destruct (run ic a s caps k) as [y|] eqn:E.
    + intros H. injection H as ->.
      apply IHa in E as [s1 [s2 [new [-> [Ma [H F]]]]]].
      exists s1, s2, new. repeat split; [now constructor|exact H|exact F].
    + intros H. exists [], s, []. rewrite app_nil_r.
      repeat split; [constructor|exact H|constructor].
  - intros H. apply star_sound in H as [s1 [s2 [-> [Hp H]]]].
    exists s1, s2, []. rewrite app_nil_r.
    repeat split; [now constructor|exact H|constructor].
  - intros H. apply IHa in H as [s1 [s2 [new [-> [Ma [H F]]]]]].
    replace (firstn (length (s1 ++ s2) - length s2) (s1 ++ s2)) with s1 in H.
    2:{ rewrite length_app, Nat.add_sub. now rewrite firstn_length_app. }
    exists s1, s2, (new ++ [s1]).
    split; [reflexivity|]. split; [now constructor|].
    split; [now rewrite app_assoc|].
    apply Forall_app. split.
    + eapply Forall_impl; [|exact F]. intros g [Ho [a0 [Hin Hm]]].
      split; [exact Ho|]. exists a0. split; [now right|exact Hm].
    + constructor; [|constructor]. split; [apply occurs_refl|].
      exists a. split; [now left|exact Ma].
Qed.

Lemma run_complete (r : regex) (s1 : text) :
  Matches ic r s1 ->
  forall (s2 : text) (caps : captures) (k : text -> captures -> option R),
    (forall caps', k s2 caps' <> None) ->
    run ic r (s1 ++ s2) caps k <> None.
Proof.
  induction 1 as [|c x E|p x E|a b s1 s2 Ma IHa Mb IHb|a|a s Ma IHa|p s E|a s Ma IHa];
    intros t caps k Hk; simpl.
  - apply Hk.
  - rewrite E. apply Hk.
  - rewrite E. apply Hk.
  - rewrite <- app_assoc. apply IHa. intros caps'. now apply IHb.
  - destruct (run ic a t caps k); [discriminate|apply Hk].
  - specialize (IHa t caps k Hk).
    destruct (run ic a (s ++ t) caps k); [discriminate|contradiction].
  - now apply star_complete.
  - apply IHa. intros caps'. apply Hk.
Qed.

End MatcherFacts.

Section GreedyPath.

Variable R : Type.
Variable ic : bool.

(** When what follows a run cannot extend it and the rest of the pattern
    succeeds there, the greedy star takes the whole run. *)
Lemma star_greedy (p : ascii -> bool) (w rest : text) (caps : captures)
  (k : text -> captures -> option R) (x : R) :
  forallb p w = true -> stops p rest ->
  k rest caps = Some x ->
  star p (w ++ rest) caps k = Some x.
Proof.
  intros Hw Hrest Hk. induction w as [|c w IH]; simpl.
  - destruct rest as [|c rest]; simpl; [exact Hk|].
    simpl in Hrest. now rewrite Hrest.
  - simpl in Hw. apply andb_true_iff in Hw as [Hc Hw].
    now rewrite Hc, (IH Hw).
Qed.

Lemma run_seq (a b : regex) (s : text) (caps : captures)
  (k : text -> captures -> option R) :
  run ic (Seq a b) s caps k = run ic a s caps (fun s' caps' => run ic b s' caps' k).
Proof. reflexivity. Qed.

Lemma run_lit (c x : ascii) (s : text) (caps : captures)
  (k : text -> captures -> option R) :
  lit_eqb ic c x = true -> run ic (Lit c) (x :: s) caps k = k s caps.
Proof. intros H. simpl. now rewrite H. Qed.

Lemma run_lit_seq (c x : ascii) (b : regex) (s : text) (caps : captures)
  (k : text -> captures -> option R) :
  lit_eqb ic c x = true ->
  run ic (Seq (Lit c) b) (x :: s) caps k = run ic b s caps k.
Proof. intros H. rewrite run_seq. now apply run_lit. Qed.

Lemma run_lits (name n rest : text) (b : regex) (caps : captures)
  (k : text -> captures -> option R) :
  Forall2 (fun c x => lit_eqb ic c x = true) name n ->
  run ic (Seq (lits name) b) (n ++ rest) caps k = run ic b rest caps k.
Proof.
  intros H. induction H as [|c x name n Hc Hn IH]; [reflexivity|].
  simpl lits. rewrite run_seq, run_seq. simpl app. rewrite run_lit by exact Hc.
  rewrite <- run_seq. exact IH.
Qed.

Lemma run_star_seq (p : ascii -> bool) (b : regex) (w rest : text)
  (caps : captures) (k : text -> captures -> option R) (x : R) :
  forallb p w = true -> stops p rest ->
  run ic b rest caps k = Some x ->
  run ic (Seq (Star p) b) (w ++ rest) caps k = Some x.
Proof.
  intros Hw Hrest Hk. rewrite run_seq. simpl. now apply star_greedy.
Qed.

(** A group around [p+], followed by [b]: the group takes the whole run and
    records it. *)
Lemma run_group_plus (p : ascii -> bool) (b : regex) (d : ascii) (ds rest : text)
  (caps : captures) (k : text -> captures -> option R) (x : R) :
  forallb p (d :: ds) = true -> stops p rest ->
  run ic b rest (caps ++ [d :: ds]) k = Some x ->
  run ic (Seq (Grp (plus p)) b) ((d :: ds) ++ rest) caps k = Some x.
Proof.
  intros Hd Hrest Hk. simpl in Hd. apply andb_true_iff in Hd as [Hd Hds].
  rewrite run_seq. cbn [run plus].
  change ((d :: ds) ++ rest) with (d :: (ds ++ rest)). cbv iota beta.
  rewrite Hd.
  apply star_greedy; [exact Hds|exact Hrest|].
  replace (firstn (length (d :: ds ++ rest) - length rest) (d :: ds ++ rest))
    with (d :: ds); [exact Hk|].
  change (d :: ds ++ rest) with ((d :: ds) ++ rest).
  rewrite length_app, Nat.add_sub. now rewrite firstn_length_app.
Qed.

End GreedyPath.

Lemma match_at_sound (ic : bool) (r : regex) (s : text) (n : nat) (caps : captures) :
  match_at ic r s = Some (n, caps) ->
  exists s1 s2, s = s1 ++ s2 /\ n = length s1 /\ Matches ic r s1.
Proof.
  unfold match_at. intros H.
  apply run_sound in H as [s1 [s2 [caps' [E [M H]]]]].
  exists s1, s2. injection H as <- _. subst s.
  rewrite length_app. repeat split; [lia|exact M].
Qed.

Lemma match_at_complete (ic : bool) (r : regex) (s1 s2 : text) :
  Matches ic r s1 -> match_at ic r (s1 ++ s2) <> None.
Proof.
  intros M. unfold match_at. apply run_complete; [exact M|discriminate].
Qed.

(** ** Scanning: [search], [finditer] and [sub] *)

Section Scanning.

Variable ic : bool.
Variable r : regex.

Lemma match_at_length (s : text) (n : nat) (caps : captures) :
  match_at ic r s = Some (n, caps) -> n <= length s.
Proof.
  intros H. apply match_at_sound in H as [s1 [s2 [E [En _]]]].
  subst. rewrite length_app. lia.
Qed.

Lemma finditer_from_skip (s : text) :
  forall pos k,
    finditer_from ic r pos s k = finditer_from ic r (pos + k) (skipn k s) 0.
Proof.
  induction s as [|c s IH]; intros pos k.
  - now rewrite skipn_nil.
  - destruct k as [|k].
    + now rewrite Nat.add_0_r.
    + simpl. rewrite IH. f_equal. lia.
Qed.

Lemma finditer_from_cons (pos : nat) (c : ascii) (s : text) :
  finditer_from ic r pos (c :: s) 0 =
  match match_at ic r (c :: s) with
  | Some (S n, _) =>
      (pos, pos + S n) :: finditer_from ic r (pos + S n) (skipn n s) 0
  | _ => finditer_from ic r (S pos) s 0
  end.
Proof.
  simpl. destruct (match_at ic r (c :: s)) as [[[|n] caps]|]; try reflexivity.
  rewrite finditer_from_skip. do 2 f_equal. lia.
Qed.

(** Every span that [finditer] reports lies in the text, is not empty, and
    is a match of the pattern at its start. *)
Lemma finditer_from_spans (n : nat) :
  forall (s : text) (pos a b : nat),
    length s <= n ->
    In (a, b) (finditer_from ic r pos s 0) ->
    pos <= a /\ a < b /\ b <= pos + length s
    /\ exists caps, match_at ic r (skipn (a - pos) s) = Some (b - a, caps).
Proof.
  induction n as [|n IH]; intros s pos a b Hn Hin.
  - destruct s; [contradiction|simpl in Hn; lia].
  - destruct s as [|c s]; [contradiction|].
    rewrite finditer_from_cons in Hin.
    destruct (match_at ic r (c :: s)) as [[[|m] caps]|] eqn:E.
    + apply IH in Hin; [|simpl in Hn; lia].
      destruct Hin as [H1 [H2 [H3 [caps' H4]]]].
      repeat split; try lia; [simpl; lia|].
      exists caps'. replace (a - pos) with (S (a - S pos)) by lia. exact H4.
    + pose proof (match_at_length _ _ _ E) as Hm. simpl in Hm.
      destruct Hin as [Hin|Hin].
      * injection Hin as <- <-. repeat split; try lia; [simpl; lia|].
        exists caps. rewrite Nat.sub_diag.
        replace (pos + S m - pos) with (S m) by lia. exact E.
      * apply IH in Hin; [|rewrite length_skipn; simpl in Hn; lia].
        rewrite length_skipn in Hin.
        destruct Hin as [H1 [H2 [H3 [caps' H4]]]].
        repeat split; try lia; [simpl; lia|].
        exists caps'. rewrite skipn_skipn in H4.
        replace (a - pos) with (S (a - (pos + S m) + m)) by lia. exact H4.
    + apply IH in Hin; [|simpl in Hn; lia].
      destruct Hin as [H1 [H2 [H3 [caps' H4]]]].
      repeat split; try lia; [simpl; lia|].
      exists caps'. replace (a - pos) with (S (a - S pos)) by lia. exact H4.
Qed.

(** A position where the pattern has a non-empty match lies inside one of
    the spans that [finditer] reports. *)
Lemma finditer_from_covers (n : nat) :
  forall (s : text) (pos q m : nat) (caps : captures),
    length s <= n ->
    match_at ic r (skipn q s) = Some (S m, caps) ->
    exists a b, In (a, b) (finditer_from ic r pos s 0) /\ a <= pos + q < b.
Proof.
  induction n as [|n IH]; intros s pos q m caps Hn Hq.
  - destruct s; [|simpl in Hn; lia].
    rewrite skipn_nil in Hq. apply match_at_length in Hq. simpl in Hq. lia.
  - destruct s as [|c s].
    + rewrite skipn_nil in Hq. apply match_at_length in Hq. simpl in Hq. lia.
    + rewrite finditer_from_cons.
      destruct q as [|q].
      * simpl in Hq. rewrite Hq. exists pos, (pos + S m).
        split; [now left|lia].
      * simpl in Hq.
        destruct (match_at ic r (c :: s)) as [[[|m0] caps0]|] eqn:E.
        -- destruct (IH s (S pos) q m caps) as [a [b [Hin Hab]]];
             [simpl in Hn; lia|exact Hq|].
           exists a, b. split; [exact Hin|lia].
        -- destruct (Nat.lt_ge_cases (S q) (S m0)) as [Hlt|Hge].
           ++ exists pos, (pos + S m0). split; [now left|lia].
           ++ destruct (IH (skipn m0 s) (pos + S m0) (q - m0) m caps)
                as [a [b [Hin Hab]]].
              ** rewrite length_skipn. simpl in Hn. lia.
              ** rewrite skipn_skipn.
                 replace (q - m0 + m0) with q by lia. exact Hq.
              ** exists a, b. split; [now right|lia].
        -- destruct (IH s (S pos) q m caps) as [a [b [Hin Hab]]];
             [simpl in Hn; lia|exact Hq|].
           exists a, b. split; [exact Hin|lia].
Qed.

Lemma finditer_spans (s : text) (a b : nat) :
  In (a, b) (finditer ic r s) ->
  a < b /\ b <= length s
  /\ exists caps, match_at ic r (skipn a s) = Some (b - a, caps).
Proof.
  intros H. apply (@finditer_from_spans (length s)) in H; [|lia].
  rewrite Nat.sub_0_r in H. tauto.
Qed.

Lemma finditer_covers (s : text) (q m : nat) (caps : captures) :
  match_at ic r (skipn q s) = Some (S m, caps) ->
  exists a b, In (a, b) (finditer ic r s) /\ a <= q < b.
Proof.
  intros H. apply (@finditer_from_covers (length s) s 0) in H; [|lia].
  exact H.
Qed.

Lemma search_from_found (s : text) :
  forall (pos a b : nat) (caps : captures),
    search_from ic r pos s = Some (a, b, caps) ->
    pos <= a /\ match_at ic r (skipn (a - pos) s) = Some (b - a, caps).
Proof.
  induction s as [|c s IH]; intros pos a b caps; simpl.
  - destruct (match_at ic r []) as [[n caps0]|] eqn:E; [|discriminate].
    intros H. injection H as <- <- <-. rewrite Nat.sub_diag.
    replace (pos + n - pos) with n by lia. split; [lia|exact E].
  - destruct (match_at ic r (c :: s)) as [[n caps0]|] eqn:E.
    + intros H. injection H as <- <- <-. rewrite Nat.sub_diag.
      replace (pos + n - pos) with n by lia. split; [lia|exact E].
    + intros H. apply IH in H as [H1 H2]. split; [lia|].
      replace (a - pos) with (S (a - S pos)) by lia. exact H2.
Qed.

Lemma search_from_finds (s : text) :
  forall (pos q : nat),
    match_at ic r (skipn q s) <> None -> search_from ic r pos s <> None.
Proof.
  induction s as [|c s IH]; intros pos q H; simpl.
  - rewrite skipn_nil in H.
    destruct (match_at ic r []) as [[n caps]|]; [discriminate|contradiction].
  - destruct (match_at ic r (c :: s)) as [[n caps]|] eqn:E; [discriminate|].
    destruct q as [|q]; [simpl in H; contradiction|].
    apply (IH (S pos) q). exact H.
Qed.

Lemma search_from_first (s : text) :
  forall (pos : nat) (n : nat) (caps : captures),
    match_at ic r s = Some (n, caps) ->
    search_from ic r pos s = Some (pos, pos + n, caps).
Proof.
  intros pos n caps H. destruct s; simpl; now rewrite H.
Qed.

Lemma sub_from_skip (repl s : text) :
  forall k, sub_from ic r repl s k = sub_from ic r repl (skipn k s) 0.
Proof.
  induction s as [|c s IH]; intros k.
  - now rewrite skipn_nil.
  - destruct k as [|k]; [reflexivity|]. simpl. apply IH.
Qed.

Lemma sub_from_cons (repl : text) (c : ascii) (s : text) :
  sub_from ic r repl (c :: s) 0 =
  match match_at ic r (c :: s) with
  | Some (S n, _) => repl ++ sub_from ic r repl (skipn n s) 0
  | _ => c :: sub_from ic r repl s 0
  end.
Proof.
  simpl. destruct (match_at ic r (c :: s)) as [[[|n] caps]|]; try reflexivity.
  now rewrite sub_from_skip.
Qed.

(** Deleting matches either leaves the text as it is, or makes it shorter,
    and then the pattern matched somewhere. *)
Lemma sub_delete_cases (n : nat) :
  forall s : text,
    length s <= n ->
    sub ic r [] s = s
    \/ (length (sub ic r [] s) < length s
        /\ exists q m caps, match_at ic r (skipn q s) = Some (S m, caps)).
Proof.
  unfold sub. induction n as [|n IH]; intros s Hn.
  - destruct s; [now left|simpl in Hn; lia].
  - destruct s as [|c s]; [now left|].
    rewrite sub_from_cons.
    destruct (match_at ic r (c :: s)) as [[[|m] caps]|] eqn:E.
    + destruct (IH s) as [H|[H1 [q [m [caps' H2]]]]]; [simpl in Hn; lia| |].
      * left. now rewrite H.
      * right. split; [simpl; lia|]. now exists (S q), m, caps'.
    + right. split.
      * simpl. pose proof (match_at_length _ _ _ E) as Hm. simpl in Hm.
        destruct (IH (skipn m s)) as [H|[H1 _]].
        -- rewrite length_skipn. simpl in Hn. lia.
        -- rewrite H, length_skipn. lia.
        -- rewrite length_skipn in H1. lia.
      * now exists 0, m, caps.
    + destruct (IH s) as [H|[H1 [q [m [caps' H2]]]]]; [simpl in Hn; lia| |].
      * left. now rewrite H.
      * right. split; [simpl; lia|]. now exists (S q), m, caps'.
Qed.

Lemma sub_delete_le (s : text) : length (sub ic r [] s) <= length s.
Proof.
  destruct (@sub_delete_cases (length s) s (le_n _)) as [H|[H _]];
    [rewrite H|]; lia.
Qed.

(** Where the pattern has a non-empty match, deleting matches shortens. *)
Lemma sub_delete_shrinks (n : nat) :
  forall (s : text) (q m : nat) (caps : captures),
    length s <= n ->
    match_at ic r (skipn q s) = Some (S m, caps) ->
    length (sub ic r [] s) < length s.
Proof.
  unfold sub. induction n as [|n IH]; intros s q m caps Hn Hq.
  - destruct s; [|simpl in Hn; lia].
    rewrite skipn_nil in Hq. apply match_at_length in Hq. simpl in Hq. lia.
  - destruct s as [|c s].
    { rewrite skipn_nil in Hq. apply match_at_length in Hq. simpl in Hq. lia. }
    rewrite sub_from_cons.
    destruct (match_at ic r (c :: s)) as [[[|m0] caps0]|] eqn:E.
    + destruct q as [|q]; [simpl in Hq; congruence|]. simpl in Hq.
      simpl. apply (IH s q m caps) in Hq; [lia|simpl in Hn; lia].
    + pose proof (sub_delete_le (skipn m0 s)) as Hle. unfold sub in Hle.
      rewrite length_skipn in Hle. simpl. lia.
    + destruct q as [|q]; [simpl in Hq; congruence|]. simpl in Hq.
      simpl. apply (IH s q m caps) in Hq; [lia|simpl in Hn; lia].
Qed.

End Scanning.

Lemma match_at_captures (ic : bool) (r : regex) (s : text) (n : nat)
  (caps : captures) :
  match_at ic r s = Some (n, caps) ->
  Forall (fun g => occurs g s /\ exists a, In a (groups_of r) /\ Matches ic a g)
    caps.
Proof.
  unfold match_at. intros H.
  apply run_captures in H as [s1 [s2 [new [-> [_ [H F]]]]]].
  injection H as _ <-. cbn [app].
  eapply Forall_impl; [|exact F]. intros g [Ho Hg].
  split; [now apply occurs_app_l|exact Hg].
Qed.

Lemma occurs_skipn (p s : text) (n : nat) : occurs p (skipn n s) -> occurs p s.
Proof.
  intros H. rewrite <- (firstn_skipn n s). now apply occurs_app_r.
Qed.

Lemma search_captures (ic : bool) (r : regex) (s : text) (a b : nat)
  (caps : captures) :
  search ic r s = Some (a, b, caps) ->
  Forall (fun g => occurs g s /\ exists a, In a (groups_of r) /\ Matches ic a g)
    caps.
Proof.
  unfold search. intros H. apply search_from_found in H as [_ H].
  apply match_at_captures in H.
  eapply Forall_impl; [|exact H]. intros g [Ho Hg].
  split; [now apply occurs_skipn in Ho|exact Hg].
Qed.

(** ** The patterns of the source against the invocation grammar *)

Section MatchesInversion.

Variable ic : bool.

Lemma Matches_Eps_inv (s : text) : Matches ic Eps s -> s = [].
Proof. now inversion 1. Qed.

Lemma Matches_Lit_inv (c : ascii) (s : text) :
  Matches ic (Lit c) s -> exists x, s = [x] /\ lit_eqb ic c x = true.
Proof. inversion 1; subst. now exists x. Qed.

Lemma Matches_Cls_inv (p : ascii -> bool) (s : text) :
  Matches ic (Cls p) s -> exists x, s = [x] /\ p x = true.
Proof. inversion 1; subst. now exists x. Qed.

Lemma Matches_Seq_inv (a b : regex) (s : text) :
  Matches ic (Seq a b) s ->
  exists s1 s2, s = s1 ++ s2 /\ Matches ic a s1 /\ Matches ic b s2.
Proof. inversion 1; subst. now exists s1, s2. Qed.

Lemma Matches_Opt_inv (a : regex) (s : text) :
  Matches ic (Opt a) s -> s = [] \/ Matches ic a s.
Proof. inversion 1; subst; auto. Qed.

Lemma Matches_Star_inv (p : ascii -> bool) (s : text) :
  Matches ic (Star p) s -> forallb p s = true.
Proof. now inversion 1. Qed.

Lemma Matches_Grp_inv (a : regex) (s : text) :
  Matches ic (Grp a) s -> Matches ic a s.
Proof. now inversion 1. Qed.

End MatchesInversion.

(** Take a derivation of [Matches] for a sequence apart. *)
Ltac split_match H :=
  let s1 := fresh "s" in
  let s2 := fresh "s" in
  let E := fresh "E" in
  let M := fresh "M" in
  apply Matches_Seq_inv in H as [s1 [s2 [E [M H]]]].

Lemma lit_true_char (c x : ascii) :
  lit_eqb true c x = true <-> lower x = lower c.
Proof. unfold lit_eqb. apply ascii_eqb_true. Qed.

Lemma lit_false_char (c x : ascii) : lit_eqb false c x = true <-> x = c.
Proof. unfold lit_eqb. apply ascii_eqb_true. Qed.

Lemma lower_open_brace (x : ascii) : lower x = lower "{" -> x = "{".
Proof. each_char x; vm_compute; intros H; try reflexivity; discriminate H. Qed.

Lemma lower_close_brace (x : ascii) : lower x = lower "}" -> x = "}".
Proof. each_char x; vm_compute; intros H; try reflexivity; discriminate H. Qed.

Lemma lower_pipe (x : ascii) : lower x = lower "|" -> x = "|".
Proof. each_char x; vm_compute; intros H; try reflexivity; discriminate H. Qed.


Lemma Matches_lits_fold (name s : text) :
  Matches true (lits name) s <-> same_name s name.
Proof.
  unfold same_name, str_lower. revert s.
  induction name as [|c name IH]; intros s; simpl; split.
  - intros H. apply Matches_Eps_inv in H. now subst.
  - destruct s; [constructor|discriminate].
  - intros H. split_match H. apply Matches_Lit_inv in M as [x [-> Hx]].
    apply lit_true_char in Hx. apply IH in H. subst s. simpl. congruence.
  - destruct s as [|x s]; [discriminate|]. simpl. intros H.
    injection H as Hx Hs.
    change (x :: s) with ([x] ++ s). constructor.
    + constructor. now apply lit_true_char.
    + now apply IH.
Qed.

Lemma Matches_lits_exact (name s : text) :
  Matches false (lits name) s <-> s = name.
Proof.
  revert s. induction name as [|c name IH]; intros s; simpl; split.
  - apply Matches_Eps_inv.
  - intros ->. constructor.
  - intros H. split_match H. apply Matches_Lit_inv in M as [x [-> Hx]].
    apply lit_false_char in Hx. apply IH in H. subst. reflexivity.
  - intros ->. change (c :: name) with ([c] ++ name). constructor.
    + constructor. now apply lit_false_char.
    + now apply IH.
Qed.

Lemma Matches_char (ic : bool) (c : ascii) :
  Matches ic (Lit c) [c].
Proof.
  constructor. unfold lit_eqb. destruct ic; apply ascii_eqb_refl.
Qed.

(** The source pattern matches exactly the invocations of the name. *)
Lemma source_pattern_sound (name s : text) :
  Matches true (source_pattern name) s -> invocation name s.
Proof.
  unfold source_pattern. simpl. intros H.
  split_match H. apply Matches_Lit_inv in M as [x1 [-> H1]].
  split_match H. apply Matches_Lit_inv in M as [x2 [-> H2]].
  split_match H. apply Matches_Star_inv in M.
  split_match H. apply Matches_lits_fold in M0.
  split_match H. apply Matches_Star_inv in M1.
  split_match H. apply Matches_Opt_inv in M2.
  split_match H. apply Matches_Lit_inv in M3 as [y1 [-> H3]].
  split_match H. apply Matches_Lit_inv in M3 as [y2 [-> H4]].
  apply Matches_Eps_inv in H.
  apply lit_true_char, lower_open_brace in H1, H2.
  apply lit_true_char, lower_close_brace in H3, H4.
  subst. destruct M2 as [->|M2].
  - apply (@inv_bare name _ _ _ M M0 M1).
  - apply Matches_Grp_inv in M2. split_match M2.
    apply Matches_Lit_inv in M3 as [z [-> Hz]].
    apply lit_true_char, lower_pipe in Hz. subst.
    apply Matches_Star_inv in M2.
    pose proof (@inv_args name _ _ _ _ M M0 M1 M2) as I.
    simpl in *. exact I.
Qed.

Lemma source_pattern_complete (name s : text) :
  invocation name s -> Matches true (source_pattern name) s.
Proof.
  unfold source_pattern. simpl.
  intros [w1 n w2 H1 Hn H2|w1 n w2 args H1 Hn H2 Ha].
  - change (T "{{" ++ w1 ++ n ++ w2 ++ T "}}")
      with (["{"] ++ ["{"] ++ w1 ++ n ++ w2 ++ [] ++ ["}"] ++ ["}"] ++ []).
    repeat (constructor; try apply Matches_char); try assumption.
    now apply Matches_lits_fold.
  - change (T "{{" ++ w1 ++ n ++ w2 ++ T "|" ++ args ++ T "}}")
      with (["{"] ++ ["{"] ++ w1 ++ n ++ w2 ++ (["|"] ++ args ++ T "}}")).
    replace (["|"] ++ args ++ T "}}")
      with ((["|"] ++ args) ++ ["}"] ++ ["}"] ++ [])
      by (now rewrite <- app_assoc).
    constructor; [apply Matches_char|].
    constructor; [apply Matches_char|].
    constructor; [now constructor|].
    constructor; [now apply Matches_lits_fold|].
    constructor; [now constructor|].
    constructor.
    + apply MOptSome. constructor. constructor; [apply Matches_char|].
      now constructor.
    + constructor; [apply Matches_char|].
      constructor; [apply Matches_char|constructor].
Qed.

(** ** Detection *)

Lemma insert_found_In (f g : found) (l : list found) :
  In g (insert_found f l) <-> g = f \/ In g l.
Proof.
  induction l as [|h l IH]; simpl.
  - intuition congruence.
  - destruct (f_start f <=? f_start h)%nat; simpl; [intuition congruence|].
    rewrite IH. intuition congruence.
Qed.

Lemma sort_found_In (g : found) (l : list found) :
  In g (sort_found l) <-> In g l.
Proof.
  induction l as [|f l IH]; simpl; [tauto|].
  rewrite insert_found_In, IH. intuition congruence.
Qed.

Lemma source_found_In (txt : text) (sources : list text) (f : found) :
  In f (source_found txt sources) <->
  In (f_source f) sources
  /\ In (f_start f, f_end f) (finditer true (source_pattern (f_source f)) txt).
Proof.
  unfold source_found. rewrite in_flat_map. split.
  - intros [src [Hsrc Hin]]. apply in_map_iff in Hin as [[a b] [E Hin]].
    subst f. simpl. auto.
  - intros [Hsrc Hin]. exists (f_source f). split; [exact Hsrc|].
    apply in_map_iff. exists (f_start f, f_end f). split; [|exact Hin].
    now destruct f.
Qed.

Lemma invocation_not_empty (name s : text) : invocation name s -> 0 < length s.
Proof. intros [w1 n w2 _ _ _|w1 n w2 args _ _ _ _]; simpl; lia. Qed.

(** What [finditer] reports for a source name is an invocation of it. *)
Lemma span_is_invocation (txt name : text) (a b : nat) :
  In (a, b) (finditer true (source_pattern name) txt) ->
  a < b /\ b <= length txt
  /\ invocation name (firstn (b - a) (skipn a txt)).
Proof.
  intros H. apply finditer_spans in H as [H1 [H2 [caps H3]]].
  repeat split; try assumption.
  apply match_at_sound in H3 as [s1 [s2 [E [En M]]]].
  rewrite E, En, firstn_length_app. now apply source_pattern_sound.
Qed.

(** An invocation in the text lies inside a span that [finditer] reports. *)
Lemma invocation_is_covered (txt name pre inv post : text) :
  txt = pre ++ inv ++ post -> invocation name inv ->
  exists a b,
    In (a, b) (finditer true (source_pattern name) txt)
    /\ a <= length pre < b.
Proof.
  intros E I.
  pose proof (match_at_complete true _ inv post (source_pattern_complete _ _ I))
    as Hm.
  destruct (match_at true (source_pattern name) (inv ++ post))
    as [[n caps]|] eqn:Em; [clear Hm|contradiction].
  destruct n as [|m].
  - apply match_at_sound in Em as [s1 [s2 [_ [En M]]]].
    apply source_pattern_sound, invocation_not_empty in M. lia.
  - apply (@finditer_covers true (source_pattern name) txt (length pre) m caps).
    now rewrite E, skipn_length_app.
Qed.

(** Nothing is recorded exactly when the text has no invocation of a
    source name. *)
Lemma no_source_iff (txt : text) (sources : list text) :
  no_source txt sources <-> source_found txt sources = [].
Proof.
  split.
  - intros H. destruct (source_found txt sources) as [|f l] eqn:E; [reflexivity|].
    exfalso.
    assert (In f (source_found txt sources)) as Hin by (rewrite E; now left).
    apply source_found_In in Hin as [Hsrc Hin].
    apply span_is_invocation in Hin as [_ [_ I]].
    apply (H (f_source f) (firstn (f_start f) txt)
             (firstn (f_end f - f_start f) (skipn (f_start f) txt))
             (skipn (f_end f - f_start f) (skipn (f_start f) txt)));
      [exact Hsrc| |exact I].
    now rewrite !firstn_skipn.
  - intros H src pre inv post Hsrc E I.
    destruct (invocation_is_covered _ _ _ _ _ E I) as [a [b [Hin _]]].
    assert (In (Found src a b) (source_found txt sources)) as Hf.
    { apply source_found_In. simpl. auto. }
    rewrite H in Hf. contradiction.
Qed.

(** C5: on a text without an invocation of a source name, whether or not
    the target is present, the engine returns the text as it is, with
    [changed = false]; no number is converted on such a text, so nothing
    is raised. *)
Theorem C5_no_source_no_change (txt : text) (sources : list text)
  (target : text) (default_limit : Z) :
  no_source txt sources ->
  replace_templates txt sources target default_limit
  = Some (txt, false, T "No source templates found").
Proof.
  intros H. apply no_source_iff in H.
  unfold replace_templates. now rewrite H.
Qed.

Lemma C5_witness :
  no_source (T "{{SomeOtherTemplate}}") [T "CatDiffuse"]
  /\ replace_templates (T "{{SomeOtherTemplate}}") [T "CatDiffuse"]
       (T "Diffusion by condition") 200
     = Some (T "{{SomeOtherTemplate}}", false, T "No source templates found").
Proof.
  assert (no_source (T "{{SomeOtherTemplate}}") [T "CatDiffuse"]) as H.
  { apply no_source_iff. vm_compute. reflexivity. }
  split; [exact H|].
  exact (@C5_no_source_no_change (T "{{SomeOtherTemplate}}") [T "CatDiffuse"]
           (T "Diffusion by condition") 200%Z H).
Defined.

(** The empty text and a text with only the target are further cases. *)
Lemma no_source_examples :
  replace_templates [] [T "CatDiffuse"] (T "Diffusion by condition") 200
  = Some ([], false, T "No source templates found")
  /\ replace_templates (T "{{Diffusion by condition|200}} {{CatDiffuse")
       [T "CatDiffuse"] (T "Diffusion by condition") 200
     = Some (T "{{Diffusion by condition|200}} {{CatDiffuse", false,
             T "No source templates found").
Proof. split; reflexivity. Qed.

(** The target pattern matches the head of every invocation of the name. *)
Lemma target_pattern_head (name inv : text) :
  invocation name inv ->
  exists head rest, inv = head ++ rest /\ Matches true (target_pattern name) head.
Proof.
  unfold target_pattern. simpl.
  intros [w1 n w2 H1 Hn H2|w1 n w2 args H1 Hn H2 Ha].
  - exists (["{"] ++ ["{"] ++ w1 ++ n ++ w2 ++ ["}"] ++ []), ["}"].
    split; [simpl; now rewrite <- !app_assoc|].
    repeat (constructor; try apply Matches_char); try assumption.
    now apply Matches_lits_fold.
  - exists (["{"] ++ ["{"] ++ w1 ++ n ++ w2 ++ ["|"] ++ []), (args ++ T "}}").
    split; [simpl; now rewrite <- !app_assoc|].
    repeat (constructor; try apply Matches_char); try assumption.
    now apply Matches_lits_fold.
Qed.

(** C4, as stated, fails: an underscore written for a blank is not
    recognised, neither as a source nor as the target. *)
Lemma C4_counterexample :
  normalize_template_name (T "Cat_diffuse") = normalize_template_name (T "Cat diffuse")
  /\ source_found (T "{{Cat_diffuse}}") [T "Cat diffuse"] = []
  /\ has_target_template (T "{{Diffusion_by_condition|200}}")
       (T "Diffusion by condition") = false.
Proof. repeat split; reflexivity. Qed.

(** C4, amended: for a candidate name, an invocation whose written name
    equals the candidate up to letter case, with any whitespace around it,
    is detected wherever it stands in the text: as the target by
    [has_target_template], and as a source by a recorded match whose span
    contains the invocation's start.  Underscores and blanks are different
    characters for the detection. *)
Theorem C4_detection_up_to_case_and_blanks (txt name pre inv post : text)
  (sources : list text) :
  txt = pre ++ inv ++ post ->
  invocation name inv ->
  has_target_template txt name = true
  /\ (In name sources ->
      exists f,
        In f (sort_found (source_found txt sources))
        /\ f_source f = name
        /\ f_start f <= length pre < f_end f).
Proof.
  intros E I. split.
  - unfold has_target_template, search.
    destruct (target_pattern_head _ _ I) as [head [rest [Eh M]]].
    pose proof (@search_from_finds true (target_pattern name) txt 0 (length pre))
      as Hs.
    destruct (search_from true (target_pattern name) 0 txt); [reflexivity|].
    exfalso. apply Hs; [|reflexivity].
    rewrite E, skipn_length_app, Eh, <- app_assoc.
    now apply match_at_complete.
  - intros Hsrc. destruct (invocation_is_covered _ _ _ _ _ E I) as [a [b [Hin Hab]]].
    exists (Found name a b). split; [|now split].
    apply sort_found_In, source_found_In. simpl. auto.
Qed.

Lemma C4_witness :
  T "x {{ catDIFFUSE |150}} y" = T "x " ++ T "{{ catDIFFUSE |150}}" ++ T " y"
  /\ invocation (T "CatDiffuse") (T "{{ catDIFFUSE |150}}")
  /\ has_target_template (T "x {{ catDIFFUSE |150}} y") (T "CatDiffuse") = true.
Proof.
  assert (invocation (T "CatDiffuse") (T "{{ catDIFFUSE |150}}")) as I.
  { apply (@inv_args (T "CatDiffuse") (T " ") (T "catDIFFUSE") (T " ") (T "150"));
      reflexivity. }
  split; [reflexivity|]. split; [exact I|].
  exact (proj1 (@C4_detection_up_to_case_and_blanks
                  (T "x {{ catDIFFUSE |150}} y") (T "CatDiffuse") (T "x ")
                  (T "{{ catDIFFUSE |150}}") (T " y") [T "CatDiffuse"]
                  eq_refl I)).
Defined.

(** ** Slices and the two editing loops *)

Lemma slice_to_nat (s : text) (n : nat) : slice_to s (Z.of_nat n) = firstn n s.
Proof.
  unfold slice_to, slice_index, zlen.
  destruct (Z.of_nat n <? 0)%Z eqn:E; [apply Z.ltb_lt in E; lia|].
  destruct (Nat.le_gt_cases n (length s)) as [H|H].
  - f_equal. lia.
  - rewrite !firstn_all2 by lia. reflexivity.
Qed.

Lemma slice_from_nat (s : text) (n : nat) : slice_from s (Z.of_nat n) = skipn n s.
Proof.
  unfold slice_from, slice_index, zlen.
  destruct (Z.of_nat n <? 0)%Z eqn:E; [apply Z.ltb_lt in E; lia|].
  destruct (Nat.le_gt_cases n (length s)) as [H|H].
  - f_equal. lia.
  - rewrite !skipn_all2 by lia. reflexivity.
Qed.

Lemma cut_nat (s : text) (f : found) :
  cut s f = firstn (f_start f) s ++ skipn (f_end f) s.
Proof. unfold cut. now rewrite slice_to_nat, slice_from_nat. Qed.

Lemma firstn_then_gap (s : text) (pos k : nat) :
  pos <= k -> firstn pos s ++ firstn (k - pos) (skipn pos s) = firstn k s.
Proof.
  intros H. rewrite <- (firstn_skipn pos (firstn k s)).
  rewrite firstn_firstn, Nat.min_l by exact H. f_equal.
  rewrite firstn_skipn_comm. do 2 f_equal. lia.
Qed.

Lemma chain_bounds (l : list found) :
  forall pos len, chain pos l len -> pos <= len.
Proof.
  induction l as [|f l IH]; intros pos len; simpl; [auto|].
  intros [H1 [H2 H3]]. apply IH in H3. lia.
Qed.

Lemma separated_chain (len : nat) (l : list found) :
  separated l = true ->
  Forall (fun f => f_start f < f_end f /\ f_end f <= len) l ->
  forall pos, (forall f, hd_error l = Some f -> pos <= f_start f) ->
              pos <= len -> chain pos l len.
Proof.
  induction l as [|f l IH]; intros Hs Hb pos Hpos Hlen; simpl; [exact Hlen|].
  inversion Hb as [|? ? [Hf1 Hf2] Hb']; subst.
  split; [now apply Hpos|]. split; [lia|].
  apply IH; [| exact Hb' | | exact Hf2].
  - simpl in Hs. destruct l; [reflexivity|].
    now apply andb_true_iff in Hs as [_ Hs].
  - intros g Hg. simpl in Hs. destruct l as [|g' l]; [discriminate|].
    injection Hg as ->. apply andb_true_iff in Hs as [Hs _].
    now apply Nat.leb_le in Hs.
Qed.

(** Deleting the spans from the last to the first leaves the gaps. *)
Lemma remove_from_end (txt : text) (l : list found) :
  forall pos,
    chain pos l (length txt) ->
    fold_right (fun f t => cut t f) txt l = firstn pos txt ++ gaps txt pos l.
Proof.
  induction l as [|f l IH]; intros pos H; simpl.
  - now rewrite firstn_skipn.
  - destruct H as [H1 [H2 H3]].
    rewrite (IH _ H3), cut_nat.
    pose proof (chain_bounds _ _ _ H3) as Hlen.
    rewrite firstn_app, firstn_firstn, Nat.min_l by exact H2.
    rewrite length_firstn, Nat.min_l by exact Hlen.
    replace (f_start f - f_end f) with 0 by lia. rewrite firstn_O, app_nil_r.
    rewrite skipn_app, length_firstn, Nat.min_l by exact Hlen.
    rewrite Nat.sub_diag, skipn_O.
    rewrite (skipn_all2 (firstn (f_end f) txt))
      by (rewrite length_firstn; lia).
    simpl. rewrite app_assoc, firstn_then_gap by exact H1. reflexivity.
Qed.

Lemma fold_left_rev_cut (txt : text) (l : list found) :
  fold_left cut (rev l) txt = fold_right (fun f t => cut t f) txt l.
Proof. now rewrite <- fold_left_rev_right, rev_involutive. Qed.

Lemma slice_to_Z (s : text) (i : Z) :
  (0 <= i)%Z -> slice_to s i = firstn (Z.to_nat i) s.
Proof. intros H. rewrite <- (Z2Nat.id i H) at 1. apply slice_to_nat. Qed.

Lemma slice_from_Z (s : text) (i : Z) :
  (0 <= i)%Z -> slice_from s i = skipn (Z.to_nat i) s.
Proof. intros H. rewrite <- (Z2Nat.id i H) at 1. apply slice_from_nat. Qed.

(** The loop that removes the later spans, with its running offset: when
    the text so far is [done ++ skipn e txt] and [offset] is the difference
    between [length done] and [e], the loop leaves the gaps behind [done]. *)
Lemma remove_rest (txt : text) (s0 : nat) (rest : list found) :
  forall (done : text) (e : nat) (offset : Z),
    chain e rest (length txt) ->
    s0 < e ->
    Z.of_nat (length done) = (Z.of_nat e + offset)%Z ->
    fst (fold_left (remove_step (Z.of_nat s0)) rest (done ++ skipn e txt, offset))
    = done ++ gaps txt e rest.
Proof.
  induction rest as [|f rest IH]; intros done e offset Hc Hs Hoff; simpl.
  - reflexivity.
  - destruct Hc as [H1 [H2 H3]].
    pose proof (chain_bounds _ _ _ H3) as Hlen.
    destruct (Z.of_nat (f_start f) >? Z.of_nat s0)%Z eqn:E1; [|lia].
    destruct (Z.of_nat (f_end f) >? Z.of_nat s0)%Z eqn:E2; [|lia].
    rewrite slice_to_Z, slice_from_Z by lia.
    replace (Z.to_nat (Z.of_nat (f_start f) + offset))
      with (length done + (f_start f - e)) by lia.
    replace (Z.to_nat (Z.of_nat (f_end f) + offset))
      with (length done + (f_end f - e)) by lia.
    rewrite firstn_app_2, skipn_app.
    rewrite (skipn_all2 done) by lia.
    replace (length done + (f_end f - e) - length done) with (f_end f - e) by lia.
    rewrite skipn_skipn. replace (f_end f - e + e) with (f_end f) by lia.
    simpl. rewrite <- app_assoc.
    rewrite app_assoc. rewrite IH; [now rewrite <- app_assoc|exact H3|lia|].
    rewrite length_app, length_firstn, length_skipn. lia.
Qed.

(** ** The rewrite engine *)



Lemma length_group0 (txt : text) (f : found) :
  f_start f <= f_end f -> f_end f <= length txt ->
  length (group0 txt f) = f_end f - f_start f.
Proof.
  intros H1 H2. unfold group0. rewrite length_firstn, length_skipn. lia.
Qed.

(** Every entry of the sorted [source_found] is an invocation of one of the
    source names, with its span inside the text. *)
Lemma found_entries (txt : text) (sources : list text) (f : found) :
  In f (sort_found (source_found txt sources)) ->
  f_start f < f_end f /\ f_end f <= length txt
  /\ In (f_source f) sources /\ invocation (f_source f) (group0 txt f).
Proof.
  intros H. apply sort_found_In, source_found_In in H as [Hsrc Hin].
  apply span_is_invocation in Hin as [H1 [H2 H3]]. auto.
Qed.

Lemma found_chain (txt : text) (sources : list text) (l : list found) :
  sort_found (source_found txt sources) = l ->
  separated l = true ->
  chain 0 l (length txt).
Proof.
  intros E Hs. apply separated_chain; [exact Hs| |intros; lia|lia].
  apply Forall_forall. intros f Hf. rewrite <- E in Hf.
  apply found_entries in Hf. tauto.
Qed.

(** The spans of one [finditer] run come in order and do not overlap. *)
Lemma finditer_from_chain (ic : bool) (r : regex) (n : nat) :
  forall (s : text) (pos : nat),
    length s <= n -> spans_chain pos (finditer_from ic r pos s 0).
Proof.
  induction n as [|n IH]; intros s pos Hn.
  - destruct s; [exact I|simpl in Hn; lia].
  - destruct s as [|c s]; [exact I|].
    rewrite finditer_from_cons.
    assert (forall l, spans_chain (S pos) l -> spans_chain pos l) as Hweak.
    { intros [|[a b] l]; simpl; [auto|]. intros [H1 H2]. split; [lia|exact H2]. }
    destruct (match_at ic r (c :: s)) as [[[|m] caps]|] eqn:E.
    + apply Hweak, IH. simpl in Hn. lia.
    + simpl. split; [lia|]. split; [lia|].
      apply IH. rewrite length_skipn. simpl in Hn. lia.
    + apply Hweak, IH. simpl in Hn. lia.
Qed.

Lemma chain_sorted_separated (src : text) (l : list (nat * nat)) :
  forall pos,
    spans_chain pos l ->
    let fs := map (fun se => Found src (fst se) (snd se)) l in
    sort_found fs = fs /\ separated fs = true.
Proof.
  induction l as [|[a b] l IH]; intros pos H; simpl; [auto|].
  destruct H as [H1 [H2 H3]].
  destruct (IH b H3) as [Es Hs]. cbv zeta in Es, Hs. rewrite Es.
  destruct l as [|[a' b'] l]; simpl; [auto|].
  simpl in H3. destruct H3 as [H4 [H5 H6]].
  assert ((a <=? a')%nat = true) as -> by (apply Nat.leb_le; lia).
  assert ((b <=? a')%nat = true) as -> by (apply Nat.leb_le; lia).
  split; [reflexivity|]. simpl in Hs. exact Hs.
Qed.

(** X3: with one source name the recorded occurrences never overlap. *)
Lemma single_source_separated (txt src : text) :
  separated (sort_found (source_found txt [src])) = true.
Proof.
  unfold source_found. simpl. rewrite app_nil_r.
  destruct (chain_sorted_separated src (finditer true (source_pattern src) txt) 0
              (finditer_from_chain true (source_pattern src) (length txt) txt 0
                 (le_n _))) as [Es Hs].
  cbv zeta in Es, Hs. now rewrite Es.
Qed.




(** When two source names are equal up to case, as [CatDiffuse] and
    [Catdiffuse] of [config.SOURCE_TEMPLATES] are, the same span is recorded
    once for each; the second copy is then removed at the place of the
    replacement, or at the place of what follows the first removal. *)
Lemma overlapping_spans_destroy_the_edit :
  sort_found (source_found (T "{{CatDiffuse}}")
                [T "CatDiffuse"; T "Cat diffuse"; T "Category diffuse"; T "Catdiffuse"])
  = [Found (T "CatDiffuse") 0 14; Found (T "Catdiffuse") 0 14]
  /\ replace_templates (T "{{CatDiffuse}}")
       [T "CatDiffuse"; T "Cat diffuse"; T "Category diffuse"; T "Catdiffuse"]
       (T "Diffusion by condition") 200
     = Some ([], true,
             T "Replaced CatDiffuse with Diffusion by condition|200 and removed 1 duplicate(s)")
  /\ replace_templates (T "{{CatDiffuse}}{{Diffusion by condition|200}}")
       [T "CatDiffuse"; T "Cat diffuse"; T "Category diffuse"; T "Catdiffuse"]
       (T "Diffusion by condition") 200
     = Some (T " condition|200}}", true,
             T "Removed redundant source templates (target already exists)").
Proof. repeat split; vm_compute; reflexivity. Qed.

(** C2, as stated, fails: the cleanup runs over the whole text, so blanks
    inside the parameters of the target are collapsed, and a source name in
    the running text stays. *)
Lemma C2_counterexample :
  has_target_template (T "{{Diffusion by condition|a  b}} CatDiffuse {{CatDiffuse}}")
    (T "Diffusion by condition") = true
  /\ replace_templates (T "{{Diffusion by condition|a  b}} CatDiffuse {{CatDiffuse}}")
       [T "CatDiffuse"] (T "Diffusion by condition") 200
     = Some (T "{{Diffusion by condition|a b}} CatDiffuse ", true,
             T "Removed redundant source templates (target already exists)")
  /\ contains (T "{{Diffusion by condition|a  b}}")
       (T "{{Diffusion by condition|a b}} CatDiffuse ")
     = false
  /\ contains (T "CatDiffuse") (T "{{Diffusion by condition|a b}} CatDiffuse ")
     = true.
Proof. repeat split; vm_compute; reflexivity. Qed.

(** C2, amended: when the text has a target invocation and the recorded
    source occurrences, ordered by start, do not overlap, the engine
    returns [changed = true] and the text with every recorded span deleted
    and nothing written in its place; everything outside the spans, the
    target invocations included, is kept up to the cleanup, which collapses
    runs of newlines and of blanks over the whole text.  Each recorded
    occurrence is an invocation of a source name. *)
Theorem C2_sources_removed_target_kept (txt : text) (sources : list text)
  (target : text) (default_limit : Z) (first : found) (rest : list found) :
  sort_found (source_found txt sources) = first :: rest ->
  has_target_template txt target = true ->
  separated (first :: rest) = true ->
  replace_templates txt sources target default_limit
  = Some (collapse_spaces (collapse_newlines (gaps txt 0 (first :: rest))),
          true,
          T "Removed redundant source templates (target already exists)")
  /\ Forall (fun f => In (f_source f) sources
                      /\ invocation (f_source f) (group0 txt f)) (first :: rest).
Proof.
  intros Hl Ht Hs.
  pose proof (found_chain _ _ _ Hl Hs) as Hc.
  split.
  - unfold replace_templates. rewrite Hl, Ht.
    do 3 f_equal. unfold remove_redundant. do 2 f_equal.
    rewrite fold_left_rev_cut, (remove_from_end _ _ 0 Hc). reflexivity.
  - apply Forall_forall. intros f Hf. rewrite <- Hl in Hf.
    apply found_entries in Hf. tauto.
Qed.

Lemma C2_witness :
  sort_found (source_found (T "{{Diffusion by condition|200}} {{CatDiffuse}} {{Cat diffuse}}")
                [T "CatDiffuse"; T "Cat diffuse"])
  = [Found (T "CatDiffuse") 31 45; Found (T "Cat diffuse") 46 61]
  /\ has_target_template (T "{{Diffusion by condition|200}} {{CatDiffuse}} {{Cat diffuse}}")
       (T "Diffusion by condition") = true
  /\ separated [Found (T "CatDiffuse") 31 45; Found (T "Cat diffuse") 46 61] = true
  /\ replace_templates (T "{{Diffusion by condition|200}} {{CatDiffuse}} {{Cat diffuse}}")
       [T "CatDiffuse"; T "Cat diffuse"] (T "Diffusion by condition") 200
     = Some (T "{{Diffusion by condition|200}} ", true,
             T "Removed redundant source templates (target already exists)").
Proof.
  assert (sort_found (source_found (T "{{Diffusion by condition|200}} {{CatDiffuse}} {{Cat diffuse}}")
                        [T "CatDiffuse"; T "Cat diffuse"])
          = [Found (T "CatDiffuse") 31 45; Found (T "Cat diffuse") 46 61]) as H1
    by (vm_compute; reflexivity).
  assert (has_target_template
            (T "{{Diffusion by condition|200}} {{CatDiffuse}} {{Cat diffuse}}")
            (T "Diffusion by condition") = true) as H2 by (vm_compute; reflexivity).
  assert (separated [Found (T "CatDiffuse") 31 45; Found (T "Cat diffuse") 46 61]
          = true) as H3 by reflexivity.
  split; [exact H1|]. split; [exact H2|]. split; [exact H3|].
  exact (proj1 (C2_sources_removed_target_kept
                  (T "{{Diffusion by condition|200}} {{CatDiffuse}} {{Cat diffuse}}")
                  [T "CatDiffuse"; T "Cat diffuse"] (T "Diffusion by condition")
                  200%Z _ _ H1 H2 H3)).
Defined.

(** ** The tag remover *)

Lemma starts_with_prefix (p s : text) :
  starts_with p s = true <-> exists post, s = p ++ post.
Proof.
  revert s. induction p as [|a p IH]; intros s; simpl.
  - split; [intros _; now exists s|reflexivity].
  - destruct s as [|c s].
    + split; [discriminate|intros [post H]; discriminate H].
    + rewrite andb_true_iff, ascii_eqb_true, IH. split.
      * intros [-> [post ->]]. now exists post.
      * intros [post H]. injection H as -> ->. split; [reflexivity|now exists post].
Qed.

Lemma contains_occurs (p s : text) : contains p s = true <-> occurs p s.
Proof.
  unfold occurs. induction s as [|c s IH].
  - simpl. rewrite orb_false_r, starts_with_prefix. split.
    + intros [post H]. now exists [], post.
    + intros [pre [post H]]. destruct pre; [now exists post|discriminate H].
  - cbn [contains]. rewrite orb_true_iff, starts_with_prefix, IH. split.
    + intros [[post H]|[pre [post H]]].
      * now exists [], post.
      * exists (c :: pre), post. simpl. now f_equal.
    + intros [[|d pre] [post H]].
      * left. now exists post.
      * right. injection H as -> ->. now exists pre, post.
Qed.

Section DeleteAll.

Variable p : text.

Lemma delete_all_from_skip (s : text) :
  forall k, delete_all_from p s k = delete_all_from p (skipn k s) 0.
Proof.
  induction s as [|c s IH]; intros k.
  - now rewrite skipn_nil.
  - destruct k as [|k]; [reflexivity|]. simpl. apply IH.
Qed.

Lemma delete_all_from_cons (c : ascii) (s : text) :
  delete_all_from p (c :: s) 0 =
  if starts_with p (c :: s)
  then delete_all_from p (skipn (length p - 1) s) 0
  else c :: delete_all_from p s 0.
Proof.
  cbn [delete_all_from]. destruct (starts_with p (c :: s)); [|reflexivity].
  apply delete_all_from_skip.
Qed.

(** Deleting the occurrences of a non-empty [p] leaves a text without one
    as it is, and shortens a text that has one. *)
Lemma delete_all_from_cases (n : nat) :
  p <> [] ->
  forall s : text,
    length s <= n ->
    (contains p s = false /\ delete_all_from p s 0 = s)
    \/ (contains p s = true /\ length (delete_all_from p s 0) < length s).
Proof.
  intros Hp. induction n as [|n IH]; intros s Hn.
  - destruct s; [|simpl in Hn; lia]. left. destruct p; [contradiction|auto].
  - destruct s as [|c s].
    { left. destruct p; [contradiction|auto]. }
    rewrite delete_all_from_cons. cbn [contains].
    destruct (starts_with p (c :: s)) eqn:E.
    + right. split; [reflexivity|].
      destruct (IH (skipn (length p - 1) s)) as [[_ H]|[_ H]].
      * rewrite length_skipn. simpl in Hn. lia.
      * rewrite H, length_skipn. simpl. lia.
      * rewrite length_skipn in H. simpl. lia.
    + destruct (IH s) as [[H1 H2]|[H1 H2]]; [simpl in Hn; lia| |].
      * left. now rewrite H1, H2.
      * right. rewrite H1. simpl. split; [reflexivity|lia].
Qed.

End DeleteAll.

Lemma delete_all_cases (p s : text) :
  p <> [] ->
  (contains p s = false /\ delete_all p s = s)
  \/ (contains p s = true /\ length (delete_all p s) < length s).
Proof.
  intros Hp. unfold delete_all. destruct p as [|a p]; [contradiction|].
  now apply (delete_all_from_cases (a :: p) (length s)).
Qed.

Lemma lower_free_bracket (x c : ascii) : lit_eqb false c x = true -> x = c.
Proof. apply lit_false_char. Qed.

(** The pattern of the sort-keyed form matches exactly the closed tags. *)
Lemma pipe_pattern_sound (title s : text) :
  Matches false (pipe_pattern title) s -> piped_tag title s.
Proof.
  unfold pipe_pattern. simpl. intros H.
  split_match H. apply Matches_Lit_inv in M as [x1 [-> H1]].
  split_match H. apply Matches_Lit_inv in M as [x2 [-> H2]].
  split_match H. apply Matches_lits_exact in M.
  split_match H. apply Matches_Lit_inv in M0 as [x3 [-> H3]].
  split_match H. apply Matches_Star_inv in M0.
  split_match H. apply Matches_Lit_inv in M1 as [y1 [-> H4]].
  split_match H. apply Matches_Lit_inv in M1 as [y2 [-> H5]].
  apply Matches_Eps_inv in H.
  apply lit_false_char in H1, H2, H3, H4, H5. subst.
  unfold piped_tag. eexists. split; [|eassumption]. reflexivity.
Qed.

Lemma pipe_pattern_complete (title s : text) :
  piped_tag title s -> Matches false (pipe_pattern title) s.
Proof.
  unfold pipe_pattern. simpl. intros [key [-> Hk]].
  change (T "[[" ++ title ++ T "|" ++ key ++ T "]]")
    with (["["] ++ ["["] ++ title ++ ["|"] ++ key ++ ["]"] ++ ["]"] ++ []).
  repeat (constructor; try apply Matches_char); try assumption.
  now apply Matches_lits_exact.
Qed.

Lemma piped_tag_starts (title tag : text) :
  piped_tag title tag ->
  exists rest, tag = parent_tag_with_pipe title ++ rest /\ 0 < length tag.
Proof.
  intros [key [-> _]]. exists (key ++ T "]]"). unfold parent_tag_with_pipe.
  split; [now rewrite <- !app_assoc|simpl; lia].
Qed.

Lemma parent_tag_not_empty (title : text) : parent_tag title <> [].
Proof. unfold parent_tag. simpl. discriminate. Qed.

Lemma text_eqb_shorter (a b : text) : length a < length b -> text_eqb a b = false.
Proof.
  intros H. destruct (text_eqb a b) eqn:E; [|reflexivity].
  apply text_eqb_true in E. subst. lia.
Qed.

(** The two stages of the remover, and what each does to the length. *)
Lemma remove_tag_plain_stage (txt title : text) :
  contains (parent_tag title) txt = true ->
  length (sub false (pipe_pattern title) [] (delete_all (parent_tag title) txt))
  < length txt.
Proof.
  intros Hc.
  destruct (delete_all_cases (parent_tag title) txt (parent_tag_not_empty title))
    as [[H _]|[_ H]]; [congruence|].
  pose proof (sub_delete_le false (pipe_pattern title)
                (delete_all (parent_tag title) txt)). lia.
Qed.

Lemma remove_tag_piped_stage (txt title : text) :
  sub false (pipe_pattern title) [] txt = txt
  \/ (length (sub false (pipe_pattern title) [] txt) < length txt
      /\ exists q m caps,
           match_at false (pipe_pattern title) (skipn q txt) = Some (S m, caps)).
Proof. apply (sub_delete_cases false (pipe_pattern title) (length txt)). lia. Qed.

Lemma remove_tag_unfold (txt title : text) :
  remove_category_from_parent txt title =
  if contains (parent_tag title) txt then
    let new_text :=
      sub false (pipe_pattern title) [] (delete_all (parent_tag title) txt) in
    if text_eqb new_text txt then (txt, false) else (new_text, true)
  else if contains (parent_tag_with_pipe title) txt then
    let new_text := sub false (pipe_pattern title) [] txt in
    if text_eqb new_text txt then (txt, false) else (new_text, true)
  else (txt, false).
Proof.
  unfold remove_category_from_parent.
  destruct (contains (parent_tag title) txt); [reflexivity|].
  destruct (contains (parent_tag_with_pipe title) txt); reflexivity.
Qed.

(** The patterns that are scanned for match no empty string. *)
Lemma scanned_patterns_not_empty (ic : bool) (name s : text) (n : nat)
  (caps : captures) :
  match_at true (source_pattern name) s = Some (n, caps)
  \/ match_at false (pipe_pattern name) s = Some (n, caps)
  \/ match_at ic (run_of nl) s = Some (n, caps)
  \/ match_at ic (run_of " ") s = Some (n, caps) ->
  0 < n.
Proof.
  intros [H|[H|[H|H]]]; apply match_at_sound in H as [s1 [s2 [_ [-> M]]]].
  - now apply source_pattern_sound, invocation_not_empty in M.
  - apply pipe_pattern_sound in M as [key [-> _]]. simpl. lia.
  - unfold run_of in M. cbn [seq] in M. split_match M.
    apply Matches_Lit_inv in M0 as [x [-> _]]. subst. simpl. lia.
  - unfold run_of in M. cbn [seq] in M. split_match M.
    apply Matches_Lit_inv in M0 as [x [-> _]]. subst. simpl. lia.
Qed.

(** ** Limit extraction *)


Lemma same_name_lits (name n : text) :
  same_name n name -> Forall2 (fun c x => lit_eqb true c x = true) name n.
Proof.
  unfold same_name, str_lower. revert n.
  induction name as [|c name IH]; intros [|x n] H; try discriminate H.
  - constructor.
  - simpl in H. injection H as Hx Hn. constructor; [|now apply IH].
    now apply lit_true_char.
Qed.

Lemma same_name_head (name n : text) :
  same_name n name -> name <> [] -> head_ok name ->
  stops is_space n /\ n <> [].
Proof.
  unfold same_name, str_lower. intros H Hne Hh.
  destruct name as [|c name]; [contradiction|].
  destruct n as [|x n]; [discriminate H|].
  simpl in H. injection H as Hx _. split; [|discriminate].
  simpl. rewrite <- lower_space, Hx, lower_space. now apply (Hh c name).
Qed.

Lemma stops_app (p : ascii -> bool) (a b : text) :
  a <> [] -> stops p a -> stops p (a ++ b).
Proof. destruct a; [contradiction|auto]. Qed.

Lemma same_name_length (name n : text) :
  same_name n name -> length n = length name.
Proof.
  unfold same_name, str_lower. intros H.
  now rewrite <- (length_map lower n), H, length_map.
Qed.





Lemma digit_not_space (c : ascii) : is_digit c = true -> is_space c = false.
Proof. each_char c; vm_compute; intros H; try reflexivity; discriminate H. Qed.

Lemma space_not_digit (c : ascii) : is_space c = true -> is_digit c = false.
Proof. each_char c; vm_compute; intros H; try reflexivity; discriminate H. Qed.



Lemma blank_stops_digit (w rest : text) :
  blank w -> stops is_digit rest -> stops is_digit (w ++ rest).
Proof.
  destruct w as [|c w]; [auto|]. unfold blank. simpl. intros H _.
  apply andb_true_iff in H as [H _]. now apply space_not_digit.
Qed.









Section Extraction.

Variable name : text.
Hypothesis name_not_empty : name <> [].
Hypothesis name_head : head_ok name.

Lemma numbered_pattern_head :
  numbered_pattern name
  = args_pattern name (seq [Grp (plus is_digit); ws; Lit "}"; Lit "}"]).
Proof. reflexivity. Qed.


(** The greedy path through the common head. *)
Lemma args_pattern_path (R : Type) (rest : regex) (w1 n w2 w3 more : text)
  (caps : captures) (k : text -> captures -> option R) (x : R) :
  blank w1 -> same_name n name -> blank w2 -> blank w3 ->
  stops is_space more ->
  run true rest more caps k = Some x ->
  run true (args_pattern name rest)
    (T "{{" ++ w1 ++ n ++ w2 ++ T "|" ++ w3 ++ more) caps k = Some x.
Proof.
  intros H1 Hn H2 H3 Hmore Hk. unfold args_pattern, ws.
  cbn [list_ascii_of_string app].
  rewrite !run_lit_seq by reflexivity.
  destruct (same_name_head _ _ Hn name_not_empty name_head) as [Hs Hne].
  apply run_star_seq; [exact H1|exact (stops_app is_space n _ Hne Hs)|].
  unfold escape. rewrite run_lits by now apply same_name_lits.
  apply run_star_seq; [exact H2|reflexivity|].
  rewrite run_lit_seq by reflexivity.
  now apply run_star_seq.
Qed.


(** Shape (a): the only argument is a number. *)
Lemma extract_numbered (w1 n w2 w3 w4 ds post : text) (d : ascii) :
  blank w1 -> same_name n name -> blank w2 -> blank w3 -> blank w4 ->
  forallb is_digit (d :: ds) = true ->
  extract_limit_from_template
    (T "{{" ++ w1 ++ n ++ w2 ++ T "|" ++ w3 ++ (d :: ds) ++ w4 ++ T "}}" ++ post)
    name
  = option_map Some (int_of_digits (d :: ds)).
Proof.
  intros H1 Hn H2 H3 H4 Hd. unfold extract_limit_from_template, search.
  match goal with |- context [search_from true ?r 0 ?s] =>
    assert (exists len, match_at true r s = Some (len, [d :: ds])) as [len Hm]
  end; [|now rewrite (search_from_first _ _ _ _ _ _ Hm)].
  eexists. unfold match_at. rewrite numbered_pattern_head.
  apply args_pattern_path; try assumption.
  { simpl. apply digit_not_space. simpl in Hd.
    now apply andb_true_iff in Hd as [Hd _]. }
  cbn [seq]. unfold ws. apply run_group_plus; [exact Hd| |].
  { apply blank_stops_digit; [exact H4|reflexivity]. }
  apply run_star_seq; [exact H4|reflexivity|].
  cbn [list_ascii_of_string app].
  rewrite !run_lit_seq by reflexivity. cbn [run app]. reflexivity.
Qed.





End Extraction.


(** An override of zero is read and then dropped by the truth test on
    it. *)
Lemma zero_override_gives_default :
  extract_limit_from_template (T "{{CatDiffuse|0}}") (T "CatDiffuse")
  = Some (Some 0%Z)
  /\ replace_templates (T "{{CatDiffuse|0}}") [T "CatDiffuse"]
       (T "Diffusion by condition") 200
     = Some (T "{{Diffusion by condition|200}}", true,
             T "Replaced CatDiffuse with Diffusion by condition|200").
Proof. split; vm_compute; reflexivity. Qed.

(** The search runs over the whole of the first occurrence, so with a
    ["{"] among the arguments an inner invocation of the name can be the
    one that is read. *)
Lemma inner_invocation_is_read :
  source_found (T "{{CatDiffuse|x{{CatDiffuse|7}}") [T "CatDiffuse"]
  = [Found (T "CatDiffuse") 0 30]
  /\ extract_limit_from_template (T "{{CatDiffuse|x{{CatDiffuse|7}}")
       (T "CatDiffuse")
     = Some (Some 7%Z).
Proof. split; vm_compute; reflexivity. Qed.



(** ** The cleanup after an edit *)

(** C7: the replace-first branch runs the newline cleanup but not the blank
    cleanup of the other branch.  The scenario of the module's own
    description keeps the blank before the deleted duplicate, and two
    deletions side by side leave a run of two blanks. *)
Theorem C7_replace_branch_leaves_blanks :
  replace_templates (T "{{CatDiffuse}} text {{Cat diffuse}}")
    [T "CatDiffuse"; T "Cat diffuse"] (T "Diffusion by condition") 200
  = Some (T "{{Diffusion by condition|200}} text ", true,
          T "Replaced CatDiffuse with Diffusion by condition|200 and removed 1 duplicate(s)")
  /\ replace_templates (T "{{CatDiffuse}} {{Cat diffuse}} text")
       [T "CatDiffuse"; T "Cat diffuse"] (T "Diffusion by condition") 200
     = Some (T "{{Diffusion by condition|200}}  text", true,
             T "Replaced CatDiffuse with Diffusion by condition|200 and removed 1 duplicate(s)")
  /\ collapse_spaces (T "{{Diffusion by condition|200}}  text")
     = T "{{Diffusion by condition|200}} text".
Proof. repeat split; vm_compute; reflexivity. Qed.

Lemma contains_cons (q : text) (x : ascii) (s : text) :
  contains q (x :: s) = starts_with q (x :: s) || contains q s.
Proof. reflexivity. Qed.

Section RunCleanup.

Variable c : ascii.

Lemma is_char_true (x : ascii) : is_char c x = true <-> x = c.
Proof. unfold is_char. apply ascii_eqb_true. Qed.

Lemma maximal_run (p : ascii -> bool) (s : text) :
  exists w r, s = w ++ r /\ forallb p w = true /\ stops p r.
Proof.
  induction s as [|x s [w [r [E [Hw Hr]]]]].
  - now exists [], [].
  - destruct (p x) eqn:Ex.
    + exists (x :: w), r. simpl. rewrite Ex, Hw, E. auto.
    + exists [], (x :: s). simpl. auto.
Qed.

Lemma match_run_some (w r : text) :
  forallb (is_char c) w = true -> stops (is_char c) r ->
  match_at false (run_of c) (c :: c :: w ++ r) = Some (S (S (length w)), []).
Proof.
  intros Hw Hr. unfold match_at, run_of. cbn [seq].
  rewrite run_lit_seq by apply ascii_eqb_refl.
  rewrite run_seq. unfold plus. rewrite run_seq. cbn [run].
  unfold is_char at 1. rewrite ascii_eqb_refl.
  apply star_greedy; [exact Hw|exact Hr|].
  cbn [length]. rewrite length_app. do 2 f_equal. lia.
Qed.

Lemma match_run_shape (s : text) (n : nat) (caps : captures) :
  match_at false (run_of c) s = Some (n, caps) ->
  exists rest, s = c :: c :: rest.
Proof.
  intros H. apply match_at_sound in H as [s1 [s2 [-> [_ M]]]].
  unfold run_of in M. cbn [seq] in M.
  split_match M. apply Matches_Lit_inv in M0 as [x [-> Hx]].
  split_match M. unfold plus in M0. split_match M0.
  apply Matches_Cls_inv in M1 as [y [-> Hy]].
  apply lit_false_char in Hx. apply is_char_true in Hy. subst.
  eexists. simpl. reflexivity.
Qed.

(** What the scan does at the head of a text. *)
Lemma sub_run_head (repl : text) (x : ascii) (s : text) :
  (exists w r,
      s = c :: w ++ r /\ x = c /\ forallb (is_char c) w = true
      /\ stops (is_char c) r
      /\ sub_from false (run_of c) repl (x :: s) 0
         = repl ++ sub_from false (run_of c) repl r 0)
  \/ ((x = c -> stops (is_char c) s)
      /\ sub_from false (run_of c) repl (x :: s) 0
         = x :: sub_from false (run_of c) repl s 0).
Proof.
  rewrite sub_from_cons.
  destruct (match_at false (run_of c) (x :: s)) as [[n caps]|] eqn:E.
  - destruct (match_run_shape _ _ _ E) as [rest Er].
    injection Er as -> ->.
    destruct (maximal_run (is_char c) rest) as [w [r [-> [Hw Hr]]]].
    rewrite (match_run_some w r Hw Hr) in E. injection E as <- <-.
    left. exists w, r. repeat split; try assumption.
    f_equal. cbn [skipn]. now rewrite skipn_length_app.
  - right. split; [|reflexivity].
    intros ->. destruct s as [|y s]; [exact I|]. simpl.
    destruct (is_char c y) eqn:Ey; [|reflexivity].
    apply is_char_true in Ey. subst y.
    destruct (maximal_run (is_char c) s) as [w [r [-> [Hw Hr]]]].
    rewrite (match_run_some w r Hw Hr) in E. discriminate E.
Qed.

Lemma stops_starts_with (q o : text) :
  stops (is_char c) o -> starts_with (c :: q) o = false.
Proof.
  destruct o as [|y o]; [reflexivity|]. simpl. unfold is_char. intros H.
  destruct (ascii_eqb c y) eqn:E; [|reflexivity].
  apply ascii_eqb_true in E. subst. now rewrite ascii_eqb_refl in H.
Qed.

(** If the output begins with [c], so does the input. *)
Lemma sub_run_stops (repl : text) (s : text) :
  stops (is_char c) s -> stops (is_char c) (sub_from false (run_of c) repl s 0).
Proof.
  destruct s as [|x s]; [intros; exact I|]. intros Hx.
  destruct (sub_run_head repl x s) as [[w [r [_ [-> _]]]]|[_ ->]].
  - simpl in Hx. unfold is_char in Hx. now rewrite ascii_eqb_refl in Hx.
  - exact Hx.
Qed.

Lemma starts_with_run (j k : nat) (o : text) :
  stops (is_char c) o -> j <= k ->
  starts_with (repeat c (S k)) (repeat c j ++ o) = false.
Proof.
  intros Ho. revert k. induction j as [|j IH]; intros k Hjk.
  - simpl repeat at 2. simpl app. destruct o as [|y o]; [reflexivity|].
    simpl. simpl in Ho. unfold is_char in Ho.
    destruct (ascii_eqb c y) eqn:E; [|reflexivity].
    apply ascii_eqb_true in E. subst. now rewrite ascii_eqb_refl in Ho.
  - destruct k as [|k]; [lia|]. simpl. rewrite ascii_eqb_refl. simpl.
    apply (IH k). lia.
Qed.

Lemma contains_run (j k : nat) (o : text) :
  stops (is_char c) o -> j <= k ->
  contains (repeat c (S k)) o = false ->
  contains (repeat c (S k)) (repeat c j ++ o) = false.
Proof.
  intros Ho Hjk Hc. induction j as [|j IH]; [exact Hc|].
  change (repeat c (S j) ++ o) with (c :: (repeat c j ++ o)).
  rewrite contains_cons.
  change (c :: (repeat c j ++ o)) with (repeat c (S j) ++ o).
  rewrite (starts_with_run (S j) k o Ho Hjk). simpl. apply IH. lia.
Qed.

(** Replacing every run of two or more [c] by [k] of them, [k] at least
    one, leaves no run of more than [k]. *)
Lemma sub_run_bounded (k : nat) (n : nat) :
  forall s : text,
    length s <= n ->
    contains (repeat c (S (S k)))
      (sub_from false (run_of c) (repeat c (S k)) s 0) = false.
Proof.
  induction n as [|n IH]; intros s Hn.
  - destruct s; [reflexivity|simpl in Hn; lia].
  - destruct s as [|x s]; [reflexivity|].
    destruct (sub_run_head (repeat c (S k)) x s)
      as [[w [r [Es [-> [Hw [Hr ->]]]]]]|[Hx ->]].
    + apply contains_run; [now apply sub_run_stops|lia|].
      apply IH. subst s. simpl in Hn. rewrite length_app in Hn. lia.
    + rewrite contains_cons, (IH s) by (simpl in Hn; lia).
      rewrite orb_false_r.
      change (repeat c (S (S k))) with (c :: repeat c (S k)).
      cbn [starts_with].
      destruct (ascii_eqb c x) eqn:E; [|reflexivity].
      apply ascii_eqb_true in E. subst x. simpl andb.
      apply stops_starts_with, sub_run_stops, Hx. reflexivity.
Qed.

(** A string without [c] that the output begins with, or contains, the
    input begins with, or contains. *)
Lemma sub_run_starts (k : nat) (q : text) :
  forallb (not_char c) q = true ->
  forall s,
    starts_with q (sub_from false (run_of c) (repeat c (S k)) s 0) = true ->
    starts_with q s = true.
Proof.
  induction q as [|y q IH]; intros Hq s; [reflexivity|].
  simpl in Hq. apply andb_true_iff in Hq as [Hy Hq].
  unfold not_char in Hy. apply negb_true_iff, ascii_eqb_false in Hy.
  destruct s as [|x s]; [simpl; discriminate|].
  destruct (sub_run_head (repeat c (S k)) x s)
    as [[w [r [Es [-> [Hw [Hr ->]]]]]]|[Hx ->]].
  - simpl. intros H. apply andb_true_iff in H as [H _].
    apply ascii_eqb_true in H. congruence.
  - simpl. intros H. apply andb_true_iff in H as [H1 H2].
    rewrite H1. simpl. now apply IH.
Qed.

Lemma contains_suffix (q pre s : text) :
  contains q s = true -> contains q (pre ++ s) = true.
Proof.
  rewrite !contains_occurs. intros [a [b ->]].
  exists (pre ++ a), b. now rewrite <- app_assoc.
Qed.

Lemma contains_after_run (q : text) (j : nat) (o : text) :
  forallb (not_char c) q = true -> q <> [] ->
  contains q (repeat c j ++ o) = contains q o.
Proof.
  intros Hq Hne. induction j as [|j IH]; [reflexivity|].
  cbn [repeat app contains]. rewrite IH.
  destruct q as [|y q]; [contradiction|]. simpl in Hq.
  apply andb_true_iff in Hq as [Hy _].
  unfold not_char in Hy. apply negb_true_iff in Hy.
  cbn [starts_with]. now rewrite Hy.
Qed.

Lemma sub_run_contains (k : nat) (q : text) (n : nat) :
  forallb (not_char c) q = true -> q <> [] ->
  forall s,
    length s <= n ->
    contains q (sub_from false (run_of c) (repeat c (S k)) s 0) = true ->
    contains q s = true.
Proof.
  intros Hq Hne. induction n as [|n IH]; intros s Hn.
  - destruct s; [auto|simpl in Hn; lia].
  - destruct s as [|x s]; [auto|].
    destruct (sub_run_head (repeat c (S k)) x s)
      as [[w [r [Es [-> [Hw [Hr ->]]]]]]|[Hx ->]].
    + rewrite contains_after_run by assumption. intros H.
      apply IH in H; [|subst s; simpl in Hn; rewrite length_app in Hn; lia].
      subst s. change (c :: c :: w ++ r) with ((c :: c :: w) ++ r).
      now apply contains_suffix.
    + cbn [contains]. intros H. apply orb_true_iff in H as [H|H].
      * assert (starts_with q (x :: s) = true) as ->; [|reflexivity].
        destruct q as [|y q]; [reflexivity|].
        simpl in H |- *. apply andb_true_iff in H as [H1 H2]. rewrite H1.
        simpl. simpl in Hq. apply andb_true_iff in Hq as [_ Hq].
        now apply (sub_run_starts k q Hq s).
      * rewrite (IH s); [apply orb_true_r|simpl in Hn; lia|exact H].
Qed.

End RunCleanup.

(** After the newline cleanup no three newlines stand in a row; after the
    blank cleanup no two blanks do, and no three newlines if there were
    none before. *)
Lemma collapse_newlines_bounded (s : text) :
  contains [nl; nl; nl] (collapse_newlines s) = false.
Proof. apply (sub_run_bounded nl 1 (length s)). lia. Qed.

Lemma collapse_spaces_bounded (s : text) :
  contains (T "  ") (collapse_spaces s) = false.
Proof. apply (sub_run_bounded " " 0 (length s)). lia. Qed.

Lemma collapse_spaces_keeps_newlines (s : text) :
  contains [nl; nl; nl] s = false ->
  contains [nl; nl; nl] (collapse_spaces s) = false.
Proof.
  intros H. destruct (contains [nl; nl; nl] (collapse_spaces s)) eqn:E;
    [|reflexivity].
  apply (sub_run_contains " " 0 [nl; nl; nl] (length s)) in E;
    [congruence|reflexivity|discriminate|lia].
Qed.

(** What the engine returns, branch by branch. *)
Lemma replace_templates_cases (txt : text) (sources : list text)
  (target : text) (default_limit : Z) (out : text) (changed : bool)
  (action : text) :
  replace_templates txt sources target default_limit
  = Some (out, changed, action) ->
  (sort_found (source_found txt sources) = []
   /\ out = txt /\ changed = false /\ action = T "No source templates found")
  \/ (exists first rest,
        sort_found (source_found txt sources) = first :: rest
        /\ has_target_template txt target = true
        /\ out = remove_redundant txt (first :: rest) /\ changed = true
        /\ action
           = T "Removed redundant source templates (target already exists)")
  \/ (exists first rest custom_limit limit,
        sort_found (source_found txt sources) = first :: rest
        /\ has_target_template txt target = false
        /\ extract_limit_from_template (group0 txt first) (f_source first)
           = Some custom_limit
        /\ str_of_int (applied_limit custom_limit default_limit) = Some limit
        /\ out = replace_first txt first rest (replacement target limit)
        /\ changed = true
        /\ action = replaced_action (f_source first) target limit
                      (length (first :: rest))).
Proof.
  unfold replace_templates.
  destruct (sort_found (source_found txt sources)) as [|first rest] eqn:El.
  { intros E. injection E as <- <- <-. now left. }
  destruct (has_target_template txt target) eqn:Et.
  { intros E. injection E as <- <- <-. right. left. now exists first, rest. }
  destruct (extract_limit_from_template (group0 txt first) (f_source first))
    as [custom_limit|] eqn:Ec; [|discriminate].
  cbv zeta.
  destruct (str_of_int (applied_limit custom_limit default_limit))
    as [limit|] eqn:Ep; [|discriminate].
  intros E. injection E as <- <- <-. right. right.
  exists first, rest, custom_limit, limit. repeat split; assumption.
Qed.

(** Whenever the engine reports a change, its text has no run of three
    newlines, that is, no two blank lines in a row. *)
Lemma cleanup_after_every_edit (txt : text) (sources : list text)
  (target : text) (default_limit : Z) (out action : text) :
  replace_templates txt sources target default_limit = Some (out, true, action) ->
  contains [nl; nl; nl] out = false.
Proof.
  intros E.
  apply replace_templates_cases in E
    as [[_ [_ [E _]]]|[[first [rest [_ [_ [-> _]]]]]
                      |[first [rest [c [l [_ [_ [_ [_ [-> _]]]]]]]]]]].
  - discriminate E.
  - unfold remove_redundant.
    apply collapse_spaces_keeps_newlines, collapse_newlines_bounded.
  - unfold replace_first. apply collapse_newlines_bounded.
Qed.

(** In the remove-redundant branch the text returned has no run of two
    blanks. *)
Lemma remove_branch_collapses_blanks (txt : text) (sources : list text)
  (target : text) (default_limit : Z) (out action : text) :
  replace_templates txt sources target default_limit = Some (out, true, action) ->
  has_target_template txt target = true ->
  contains (T "  ") out = false.
Proof.
  intros E Ht.
  apply replace_templates_cases in E
    as [[_ [_ [E _]]]|[[first [rest [_ [_ [-> _]]]]]
                      |[first [rest [c [l [_ [Hf _]]]]]]]].
  - discriminate E.
  - unfold remove_redundant. apply collapse_spaces_bounded.
  - congruence.
Qed.

(** ** The tag remover on a page with one tag *)

Section OneTag.

Variable title : text.

Lemma lits_exact (name : text) :
  Forall2 (fun c x => lit_eqb false c x = true) name name.
Proof.
  induction name as [|c name IH]; constructor; [|exact IH].
  now apply lit_false_char.
Qed.

Lemma pipe_pattern_path (key post : text) :
  forallb (not_char "]") key = true ->
  match_at false (pipe_pattern title)
    (T "[[" ++ title ++ T "|" ++ key ++ T "]]" ++ post)
  = Some (length (T "[[" ++ title ++ T "|" ++ key ++ T "]]"), []).
Proof.
  intros Hk. unfold match_at, pipe_pattern. cbn [seq list_ascii_of_string app].
  rewrite !run_lit_seq by reflexivity.
  unfold escape. rewrite run_lits by apply lits_exact.
  rewrite run_lit_seq by reflexivity.
  apply run_star_seq; [exact Hk|reflexivity|].
  rewrite !run_lit_seq by reflexivity. cbn [run]. do 2 f_equal.
  cbn [length]. rewrite !length_app. cbn [length]. rewrite !length_app.
  cbn [length]. lia.
Qed.

Lemma pipe_pattern_needs_bracket (x : ascii) (s : text) :
  x <> "[" -> match_at false (pipe_pattern title) (x :: s) = None.
Proof.
  intros Hx.
  destruct (match_at false (pipe_pattern title) (x :: s)) as [[n caps]|] eqn:E;
    [exfalso|reflexivity].
  apply match_at_sound in E as [s1 [s2 [E [_ M]]]].
  apply pipe_pattern_sound in M as [key [-> _]].
  cbn [list_ascii_of_string app] in E. injection E as E _. contradiction.
Qed.

(** Where no ["["] stands, the scans keep the text. *)
Lemma sub_pipe_keeps (pre s : text) :
  ~ In "[" pre ->
  sub false (pipe_pattern title) [] (pre ++ s)
  = pre ++ sub false (pipe_pattern title) [] s.
Proof.
  unfold sub. induction pre as [|x pre IH]; intros H; [reflexivity|].
  cbn [app]. rewrite sub_from_cons, pipe_pattern_needs_bracket.
  - f_equal. apply IH. intros Hin. apply H. now right.
  - intros ->. apply H. now left.
Qed.

Lemma sub_pipe_keeps_all (s : text) :
  ~ In "[" s -> sub false (pipe_pattern title) [] s = s.
Proof.
  intros H. rewrite <- (app_nil_r s) at 1.
  rewrite (sub_pipe_keeps s [] H). unfold sub. simpl. apply app_nil_r.
Qed.

Lemma delete_plain_keeps (pre s : text) :
  ~ In "[" pre ->
  delete_all (parent_tag title) (pre ++ s)
  = pre ++ delete_all (parent_tag title) s.
Proof.
  unfold delete_all, parent_tag. cbn [list_ascii_of_string app].
  induction pre as [|x pre IH]; intros H; [reflexivity|].
  cbn [app]. rewrite delete_all_from_cons.
  destruct (ascii_eqb_false "[" x) as [_ Hx].
  cbn [starts_with]. rewrite Hx; [|intros <-; apply H; now left].
  cbn [andb]. f_equal. apply IH. intros Hin. apply H. now right.
Qed.

Lemma no_bracket_no_tag (p s : text) :
  ~ In "[" s -> contains (T "[[" ++ p) s = false.
Proof.
  intros H. destruct (contains (T "[[" ++ p) s) eqn:E; [|reflexivity].
  apply contains_occurs in E as [a [b ->]]. exfalso. apply H.
  apply in_or_app. right. now left.
Qed.

Lemma delete_plain_keeps_all (s : text) :
  ~ In "[" s -> delete_all (parent_tag title) s = s.
Proof.
  intros H.
  destruct (delete_all_cases (parent_tag title) s (parent_tag_not_empty title))
    as [[_ E]|[E _]]; [exact E|].
  unfold parent_tag in E. now rewrite no_bracket_no_tag in E.
Qed.

Lemma starts_with_self (p s : text) : starts_with p (p ++ s) = true.
Proof. apply starts_with_prefix. now exists s. Qed.

Lemma delete_plain_tag (post : text) :
  ~ In "[" post ->
  delete_all (parent_tag title) (parent_tag title ++ post) = post.
Proof.
  intros H. unfold delete_all.
  destruct (parent_tag title) as [|a p] eqn:Ep.
  { now apply parent_tag_not_empty in Ep. }
  cbn [app]. rewrite delete_all_from_cons.
  change (a :: p ++ post) with ((a :: p) ++ post).
  rewrite starts_with_self.
  replace (length (a :: p) - 1) with (length p) by (simpl; lia).
  rewrite skipn_length_app.
  pose proof (delete_plain_keeps_all post H) as E.
  unfold delete_all in E. now rewrite Ep in E.
Qed.

Lemma sub_pipe_tag (key post : text) :
  forallb (not_char "]") key = true ->
  sub false (pipe_pattern title) []
    ((T "[[" ++ title ++ T "|" ++ key ++ T "]]") ++ post)
  = sub false (pipe_pattern title) [] post.
Proof.
  intros Hk. pose proof (pipe_pattern_path key post Hk) as Hm.
  replace (T "[[" ++ title ++ T "|" ++ key ++ T "]]" ++ post)
    with ((T "[[" ++ title ++ T "|" ++ key ++ T "]]") ++ post) in Hm
    by (now rewrite <- !app_assoc).
  remember (T "[[" ++ title ++ T "|" ++ key ++ T "]]") as tag eqn:Et.
  destruct tag as [|x tag]; [discriminate Et|].
  unfold sub. cbn [app length] in *. rewrite sub_from_cons, Hm.
  now rewrite skipn_length_app.
Qed.

Lemma first_bracket (pre : text) :
  forall a X Y,
    ~ In "[" pre -> pre ++ "[" :: X = a ++ "[" :: Y ->
    (a = pre /\ X = Y) \/ (exists a', X = a' ++ "[" :: Y).
Proof.
  induction pre as [|x pre IH]; intros a X Y H E.
  - destruct a as [|y a]; cbn [app] in E; injection E as E.
    + now left.
    + right. now exists a.
  - destruct a as [|y a]; cbn [app] in E; injection E as Ex E.
    + exfalso. apply H. left. exact Ex.
    + destruct (IH a X Y) as [[-> ->]|[a' ->]];
        [intros Hin; apply H; now right|exact E| |].
      * left. now subst.
      * right. now exists a'.
Qed.

Lemma piped_has_no_plain (pre key post : text) :
  ~ In "[" pre -> ~ In "[" post -> ~ In "[" title -> ~ In "[" key ->
  contains (parent_tag title)
    (pre ++ (T "[[" ++ title ++ T "|" ++ key ++ T "]]") ++ post) = false.
Proof.
  intros Hpre Hpost Htitle Hkey.
  destruct (contains (parent_tag title)
              (pre ++ (T "[[" ++ title ++ T "|" ++ key ++ T "]]") ++ post))
    eqn:E; [exfalso|reflexivity].
  apply contains_occurs in E as [a [b E]].
  unfold parent_tag in E. cbn [list_ascii_of_string app] in E.
  repeat (rewrite <- !app_assoc in E; cbn [app] in E).
  assert (~ In "[" (title ++ "|" :: key ++ "]" :: "]" :: post)) as Htail.
  { intros Hin. apply in_app_or in Hin as [Hin|[Hin|Hin]];
      [tauto|discriminate Hin|].
    apply in_app_or in Hin as [Hin|[Hin|[Hin|Hin]]];
      [tauto|discriminate Hin|discriminate Hin|tauto]. }
  apply first_bracket in E as [[_ E]|[a' E]]; [| |exact Hpre].
  - injection E as E. apply app_inv_head in E. discriminate E.
  - destruct a' as [|y a']; cbn [app] in E.
    + injection E as E. apply Htail. rewrite E. now left.
    + injection E as _ E. apply Htail. rewrite E.
      apply in_or_app. right. now left.
Qed.

(** A page whose only ["["] are those of one tag, plain or sort-keyed with
    a key free of brackets, loses exactly the tag, key included. *)
Lemma one_tag_removed (pre tag post : text) :
  ~ In "[" pre -> ~ In "[" post -> ~ In "[" title ->
  tag = parent_tag title
  \/ (exists key, tag = T "[[" ++ title ++ T "|" ++ key ++ T "]]"
                  /\ forallb (not_char "]") key = true /\ ~ In "[" key) ->
  remove_category_from_parent (pre ++ tag ++ post) title = (pre ++ post, true).
Proof.
  intros Hpre Hpost Htitle Htag.
  assert (length (pre ++ post) < length (pre ++ tag ++ post)) as Hlen.
  { rewrite !length_app.
    destruct Htag as [->|[key [-> _]]]; unfold parent_tag; simpl; lia. }
  rewrite remove_tag_unfold. cbv zeta.
  destruct Htag as [->|[key [-> [Hkey Hkey']]]].
  - assert (contains (parent_tag title) (pre ++ parent_tag title ++ post) = true)
      as ->.
    { apply contains_occurs. now exists pre, post. }
    rewrite delete_plain_keeps, delete_plain_tag by assumption.
    rewrite sub_pipe_keeps_all.
    + now rewrite text_eqb_shorter.
    + intros Hin. apply in_app_or in Hin. tauto.
  - rewrite (piped_has_no_plain pre key post) by assumption.
    assert (contains (parent_tag_with_pipe title)
              (pre ++ (T "[[" ++ title ++ T "|" ++ key ++ T "]]") ++ post) = true)
      as ->.
    { apply contains_occurs. exists pre, (key ++ T "]]" ++ post).
      unfold parent_tag_with_pipe. now rewrite <- !app_assoc. }
    rewrite sub_pipe_keeps, sub_pipe_tag, sub_pipe_keeps_all by assumption.
    now rewrite text_eqb_shorter.
Qed.

End OneTag.

(** ** The tag remover on a page with several tags *)

(** The opening of a tag does not begin in a text that has no opening and
    run over its end, into nothing or into the brackets of a tag. *)
Lemma no_opening_across (title : text) (c : ascii) (b C r : text) :
  ~ In "[" title -> c <> "[" -> b <> [] ->
  ~ occurs (T "[[" ++ title) b ->
  C = [] \/ (exists C', C = "[" :: "[" :: C') ->
  b ++ C <> T "[[" ++ title ++ c :: r.
Proof.
  intros Ht Hc Hb Ho HC E. cbn [list_ascii_of_string app] in E.
  destruct b as [|x b]; [contradiction|].
  destruct b as [|y b]; cbn [app] in E.
  - injection E as _ E.
    destruct HC as [->|[C' ->]]; [discriminate E|].
    injection E as E.
    destruct title as [|t tl]; cbn [app] in E; injection E as Et _.
    + now apply Hc.
    + apply Ht. now left.
  - injection E as -> -> E.
    apply app_eq_app in E as [l [[E1 E2]|[E1 E2]]].
    + apply Ho. exists [], l. subst b. cbn [list_ascii_of_string app].
      reflexivity.
    + destruct l as [|t l].
      * apply Ho. exists [], []. rewrite app_nil_r in E1. subst b.
        cbn [list_ascii_of_string app]. now rewrite app_nil_r.
      * destruct HC as [->|[C' ->]]; [discriminate E2|].
        injection E2 as <- _. apply Ht. rewrite E1.
        apply in_or_app. right. now left.
Qed.

Lemma delete_all_keeps (pat seg C : text) :
  (forall a b, seg = a ++ b -> b <> [] -> starts_with pat (b ++ C) = false) ->
  delete_all_from pat (seg ++ C) 0 = seg ++ delete_all_from pat C 0.
Proof.
  induction seg as [|x seg IH]; intros H; [reflexivity|].
  cbn [app]. rewrite delete_all_from_cons.
  change (x :: seg ++ C) with ((x :: seg) ++ C).
  rewrite (H [] (x :: seg) eq_refl) by discriminate.
  cbn [app]. f_equal. apply IH. intros a b -> Hb.
  now apply (H (x :: a) b).
Qed.

Lemma sub_keeps (r : regex) (seg C : text) :
  (forall a b, seg = a ++ b -> b <> [] ->
     forall n caps, match_at false r (b ++ C) <> Some (S n, caps)) ->
  sub_from false r [] (seg ++ C) 0 = seg ++ sub_from false r [] C 0.
Proof.
  induction seg as [|x seg IH]; intros H; [reflexivity|].
  assert (sub_from false r [] (seg ++ C) 0 = seg ++ sub_from false r [] C 0)
    as Hrest.
  { apply IH. intros a b -> Hb. now apply (H (x :: a) b). }
  cbn [app]. rewrite sub_from_cons.
  destruct (match_at false r (x :: seg ++ C)) as [[[|n] caps]|] eqn:E.
  - now rewrite Hrest.
  - exfalso. apply (H [] (x :: seg) eq_refl ltac:(discriminate) n caps).
    exact E.
  - now rewrite Hrest.
Qed.

Lemma segment_has_no_plain (title seg C : text) :
  ~ In "[" title -> ~ occurs (T "[[" ++ title) seg ->
  C = [] \/ (exists C', C = "[" :: "[" :: C') ->
  forall a b, seg = a ++ b -> b <> [] ->
    starts_with (parent_tag title) (b ++ C) = false.
Proof.
  intros Ht Ho HC a b -> Hb.
  destruct (starts_with (parent_tag title) (b ++ C)) eqn:E; [exfalso|reflexivity].
  apply starts_with_prefix in E as [post E]. unfold parent_tag in E.
  apply (no_opening_across title "]" b C ("]" :: post)); try assumption;
    [discriminate| |].
  - intros Hocc. apply Ho. now apply occurs_app_r.
  - rewrite E. cbn [list_ascii_of_string app]. now rewrite <- app_assoc.
Qed.

Lemma segment_has_no_piped (title seg C : text) :
  ~ In "[" title -> ~ occurs (T "[[" ++ title) seg ->
  C = [] \/ (exists C', C = "[" :: "[" :: C') ->
  forall a b, seg = a ++ b -> b <> [] ->
    forall n caps,
      match_at false (pipe_pattern title) (b ++ C) <> Some (S n, caps).
Proof.
  intros Ht Ho HC a b -> Hb n caps E.
  apply match_at_sound in E as [s1 [s2 [E [_ M]]]].
  apply pipe_pattern_sound in M as [key [-> _]].
  apply (no_opening_across title "|" b C (key ++ T "]]" ++ s2));
    try assumption; [discriminate| |].
  - intros Hocc. apply Ho. now apply occurs_app_r.
  - rewrite E. cbn [list_ascii_of_string app].
    repeat (rewrite <- !app_assoc; cbn [app]). reflexivity.
Qed.

Lemma keyed_has_no_plain (title key C : text) :
  ~ In "[" title -> ~ In "[" key ->
  forall a b, T "[[" ++ title ++ T "|" ++ key ++ T "]]" = a ++ b -> b <> [] ->
    starts_with (parent_tag title) (b ++ C) = false.
Proof.
  intros Ht Hk a b E Hb.
  destruct (starts_with (parent_tag title) (b ++ C)) eqn:S; [exfalso|reflexivity].
  apply starts_with_prefix in S as [post S]. unfold parent_tag in S.
  cbn [list_ascii_of_string app] in E, S.
  assert (~ In "[" (title ++ "|" :: key ++ ["]"; "]"])) as Hw.
  { intros H. apply in_app_or in H as [H|[H|H]]; [tauto|discriminate H|].
    apply in_app_or in H as [H|[H|[H|[]]]]; [tauto|discriminate H|discriminate H]. }
  destruct a as [|x [|y a]]; cbn [app] in E.
  - subst b. cbn [app] in S. injection S as S.
    rewrite <- !app_assoc in S. apply app_inv_head in S. discriminate S.
  - injection E as _ E. subst b. cbn [app] in S. injection S as S.
    destruct title as [|t tl]; cbn [app] in S; injection S as S _.
    + discriminate S.
    + apply Ht. now left.
  - injection E as _ _ E. destruct b as [|z b]; [contradiction|].
    cbn [app] in S. injection S as -> _. apply Hw. rewrite E.
    apply in_or_app. right. now left.
Qed.

Lemma closed_tag_opens (title tag : text) :
  closed_tag title tag -> exists C', tag = "[" :: "[" :: C'.
Proof. intros [->|[key [-> _]]]; cbn [list_ascii_of_string app]; eauto. Qed.

Lemma not_in_not_char (a : ascii) (s : text) :
  ~ In a s -> forallb (not_char a) s = true.
Proof.
  induction s as [|c s IH]; intros H; [reflexivity|]. cbn [forallb].
  rewrite IH by (intros Hin; apply H; now right). rewrite andb_true_r.
  unfold not_char. apply negb_true_iff, ascii_eqb_false. intros ->.
  apply H. now left.
Qed.

Lemma keyed_is_not_plain (title key : text) :
  text_eqb (T "[[" ++ title ++ T "|" ++ key ++ T "]]") (parent_tag title) = false.
Proof.
  destruct (text_eqb _ _) eqn:E; [|reflexivity].
  apply text_eqb_true in E. unfold parent_tag in E.
  apply app_inv_head in E. apply app_inv_head in E. discriminate E.
Qed.

Lemma plain_stage (title : text) (rest : list (text * text)) :
  ~ In "[" title ->
  Forall (fun ts => closed_tag title (fst ts)) rest ->
  forall seg0,
    ~ occurs (T "[[" ++ title) (text_around seg0 rest) ->
    delete_all_from (parent_tag title) (page_of_tags seg0 rest) 0
    = seg0
      ++ flat_map
           (fun ts =>
              (if text_eqb (fst ts) (parent_tag title) then [] else fst ts)
              ++ snd ts) rest.
Proof.
  intros Ht. unfold text_around, page_of_tags.
  induction rest as [|[tag seg] rest IH]; intros Hr seg0 Ho.
  - cbn [flat_map]. rewrite delete_all_keeps; [reflexivity|].
    apply segment_has_no_plain; [exact Ht| |now left].
    intros H. apply Ho. now apply occurs_app_l.
  - pose proof (Forall_inv Hr) as Htag. cbn [fst] in Htag.
    apply Forall_inv_tail in Hr.
    cbn [flat_map fst snd] in Ho |- *.
    assert (~ occurs (T "[[" ++ title) (seg ++ flat_map (fun ts => snd ts) rest))
      as Ho'.
    { intros H. apply Ho. now apply occurs_app_r. }
    rewrite delete_all_keeps.
    2:{ apply segment_has_no_plain; [exact Ht| |].
        - intros H. apply Ho. now apply occurs_app_l.
        - right. apply closed_tag_opens in Htag as [C' ->].
          cbn [app]. eauto. }
    f_equal. rewrite <- !app_assoc.
    destruct Htag as [->|[key [-> [Hk1 Hk2]]]].
    + fold (parent_tag title).
      rewrite (proj2 (text_eqb_true _ _) eq_refl). cbn [app].
      rewrite <- (IH Hr seg Ho').
      destruct (parent_tag title) as [|a p] eqn:Ep.
      { now apply parent_tag_not_empty in Ep. }
      cbn [app]. rewrite delete_all_from_cons.
      change (a :: p ++ seg ++ flat_map (fun ts => fst ts ++ snd ts) rest)
        with ((a :: p) ++ seg ++ flat_map (fun ts => fst ts ++ snd ts) rest).
      rewrite starts_with_self.
      replace (length (a :: p) - 1) with (length p) by (cbn [length]; lia).
      now rewrite skipn_length_app.
    + rewrite keyed_is_not_plain.
      rewrite delete_all_keeps by (now apply keyed_has_no_plain).
      rewrite <- !app_assoc. do 2 f_equal.
      rewrite (IH Hr seg Ho'). reflexivity.
Qed.

Lemma piped_stage (title : text) (rest : list (text * text)) :
  ~ In "[" title ->
  Forall (fun ts => closed_tag title (fst ts)) rest ->
  forall seg0,
    ~ occurs (T "[[" ++ title) (text_around seg0 rest) ->
    sub false (pipe_pattern title) []
      (seg0
       ++ flat_map
            (fun ts =>
               (if text_eqb (fst ts) (parent_tag title) then [] else fst ts)
               ++ snd ts) rest)
    = text_around seg0 rest.
Proof.
  intros Ht. unfold text_around, sub.
  induction rest as [|[tag seg] rest IH]; intros Hr seg0 Ho.
  - cbn [flat_map]. rewrite sub_keeps; [reflexivity|].
    apply segment_has_no_piped; [exact Ht| |now left].
    intros H. apply Ho. now apply occurs_app_l.
  - pose proof (Forall_inv Hr) as Htag. cbn [fst] in Htag.
    apply Forall_inv_tail in Hr.
    cbn [flat_map fst snd] in Ho |- *.
    destruct Htag as [->|[key [-> [Hk1 Hk2]]]].
    + fold (parent_tag title).
      rewrite (proj2 (text_eqb_true _ _) eq_refl). cbn [app].
      rewrite app_assoc. rewrite IH; [now rewrite <- app_assoc|exact Hr|].
      now rewrite <- app_assoc.
    + rewrite keyed_is_not_plain.
      rewrite sub_keeps.
      2:{ apply segment_has_no_piped; [exact Ht| |].
          - intros H. apply Ho. now apply occurs_app_l.
          - right. cbn [list_ascii_of_string app]. eauto. }
      f_equal. rewrite <- app_assoc.
      pose proof (sub_pipe_tag title key
                    (seg
                     ++ flat_map
                          (fun ts =>
                             (if text_eqb (fst ts) (parent_tag title)
                              then [] else fst ts) ++ snd ts) rest)
                    (not_in_not_char _ _ Hk2)) as Hs.
      unfold sub in Hs. rewrite Hs.
      apply IH; [exact Hr|].
      intros H. apply Ho. now apply occurs_app_r.
Qed.

Lemma tags_add_length (title : text) (seg0 : text) (rest : list (text * text)) :
  Forall (fun ts => closed_tag title (fst ts)) rest -> rest <> [] ->
  length (text_around seg0 rest) < length (page_of_tags seg0 rest).
Proof.
  unfold text_around, page_of_tags. intros Hr Hne. rewrite !length_app.
  assert (forall l : list (text * text),
             length (flat_map (fun ts => snd ts) l)
             <= length (flat_map (fun ts => fst ts ++ snd ts) l)) as Hle.
  { induction l as [|[tg sg] l IH]; cbn [flat_map fst snd]; [lia|].
    rewrite !length_app. lia. }
  destruct rest as [|[tag seg] rest]; [contradiction|].
  apply Forall_inv in Hr. cbn [fst] in Hr.
  apply closed_tag_opens in Hr as [C' ->].
  cbn [flat_map fst snd]. rewrite !length_app. cbn [length].
  specialize (Hle rest). lia.
Qed.

(** A page written around tags of the parent, plain or sort-keyed, loses
    all of them and nothing else, when the opening of a tag does not occur
    in the text around them. *)
Lemma all_tags_removed (title seg0 : text) (rest : list (text * text)) :
  rest <> [] ->
  ~ In "[" title ->
  Forall (fun ts => closed_tag title (fst ts)) rest ->
  ~ occurs (T "[[" ++ title) (text_around seg0 rest) ->
  remove_category_from_parent (page_of_tags seg0 rest) title
  = (text_around seg0 rest, true).
Proof.
  intros Hne Ht Hr Ho.
  pose proof (plain_stage title rest Ht Hr seg0 Ho) as Hplain.
  pose proof (piped_stage title rest Ht Hr seg0 Ho) as Hpiped.
  pose proof (tags_add_length title seg0 rest Hr Hne) as Hlen.
  assert (delete_all (parent_tag title) (page_of_tags seg0 rest)
          = delete_all_from (parent_tag title) (page_of_tags seg0 rest) 0) as Hd.
  { unfold delete_all. destruct (parent_tag title) eqn:Ep; [|reflexivity].
    now apply parent_tag_not_empty in Ep. }
  rewrite remove_tag_unfold. cbv zeta.
  destruct (contains (parent_tag title) (page_of_tags seg0 rest)) eqn:Ec.
  - rewrite Hd, Hplain, Hpiped. now rewrite text_eqb_shorter.
  - destruct (delete_all_cases (parent_tag title) (page_of_tags seg0 rest)
                (parent_tag_not_empty title)) as [[_ E]|[E _]];
      [|congruence].
    rewrite Hd, Hplain in E. rewrite E in Hpiped. rewrite Hpiped.
    assert (contains (parent_tag_with_pipe title) (page_of_tags seg0 rest) = true)
      as ->.
    { destruct rest as [|[tag seg] rest]; [contradiction|].
      apply Forall_inv in Hr. cbn [fst] in Hr.
      apply contains_occurs. unfold page_of_tags. cbn [flat_map fst snd].
      destruct Hr as [->|[key [-> _]]].
      - exfalso. apply not_true_iff_false in Ec. apply Ec.
        apply contains_occurs. unfold page_of_tags. cbn [flat_map fst snd].
        exists seg0, (seg ++ flat_map (fun ts => fst ts ++ snd ts) rest).
        unfold parent_tag. now rewrite <- !app_assoc.
      - exists seg0,
          (key ++ T "]]" ++ seg ++ flat_map (fun ts => fst ts ++ snd ts) rest).
        unfold parent_tag_with_pipe.
        repeat (rewrite <- !app_assoc; cbn [app]). reflexivity. }
    now rewrite text_eqb_shorter.
Qed.

(** C8, as stated, fails: a sort-keyed form that is not closed, or whose
    key holds a ["]"], is found in the text and left there, with
    [removed = false]; and what is left after the deletions can itself be
    the tag. *)
Lemma C8_counterexample :
  contains (parent_tag_with_pipe (T "Category:Parent"))
    (T "[[Category:Parent|Sort") = true
  /\ remove_category_from_parent (T "[[Category:Parent|Sort") (T "Category:Parent")
     = (T "[[Category:Parent|Sort", false)
  /\ remove_category_from_parent (T "[[Category:Parent|a]b]]") (T "Category:Parent")
     = (T "[[Category:Parent|a]b]]", false)
  /\ remove_category_from_parent (T "[[T[[T|a]]|b]]") (T "T") = (T "[[T|b]]", true).
Proof. repeat split; vm_compute; reflexivity. Qed.

Lemma remove_tag_outcomes (txt title : text) :
  (~ occurs (parent_tag title) txt ->
   ~ occurs (parent_tag_with_pipe title) txt ->
   remove_category_from_parent txt title = (txt, false))
  /\ (snd (remove_category_from_parent txt title) = true <->
      occurs (parent_tag title) txt
      \/ exists tag, piped_tag title tag /\ occurs tag txt)
  /\ (snd (remove_category_from_parent txt title) = true ->
      length (fst (remove_category_from_parent txt title)) < length txt)
  /\ (snd (remove_category_from_parent txt title) = false ->
      fst (remove_category_from_parent txt title) = txt).
Proof.
  rewrite remove_tag_unfold. cbv zeta.
  pose proof (remove_tag_plain_stage txt title) as Hplain.
  pose proof (remove_tag_piped_stage txt title) as Hpiped.
  pose proof (proj2 (text_eqb_true txt txt) eq_refl) as Hrefl.
  split; [|split; [|split]].
  - intros H1 H2. rewrite <- contains_occurs in H1, H2.
    apply not_true_is_false in H1, H2. now rewrite H1, H2.
  - split.
    + destruct (contains (parent_tag title) txt) eqn:Ec.
      * intros _. left. now apply contains_occurs.
      * destruct (contains (parent_tag_with_pipe title) txt); [|discriminate].
        destruct Hpiped as [E|[_ [q [m [caps Hm]]]]].
        -- rewrite E, Hrefl. discriminate.
        -- intros _. right.
           apply match_at_sound in Hm as [s1 [s2 [E [_ M]]]].
           exists s1. split; [now apply pipe_pattern_sound|].
           exists (firstn q txt), s2. now rewrite <- E, firstn_skipn.
    + intros [H|[tag [Htag [pre [post E]]]]].
      * apply contains_occurs in H. rewrite H.
        now rewrite (text_eqb_shorter _ _ (Hplain H)).
      * destruct (contains (parent_tag title) txt) eqn:Ec.
        { now rewrite (text_eqb_shorter _ _ (Hplain eq_refl)). }
        destruct (piped_tag_starts _ _ Htag) as [rest [Er _]].
        assert (contains (parent_tag_with_pipe title) txt = true) as Hp.
        { apply contains_occurs. exists pre, (rest ++ post).
          now rewrite E, Er, <- app_assoc. }
        rewrite Hp.
        pose proof (match_at_complete false _ tag post
                      (pipe_pattern_complete _ _ Htag)) as Hm.
        destruct (match_at false (pipe_pattern title) (tag ++ post))
          as [[n caps]|] eqn:Em; [clear Hm|contradiction].
        destruct n as [|m].
        { apply match_at_sound in Em as [s1 [s2 [_ [En M]]]].
          apply pipe_pattern_sound, piped_tag_starts in M as [_ [_ M]]. lia. }
        rewrite text_eqb_shorter; [reflexivity|].
        apply (sub_delete_shrinks false (pipe_pattern title) (length txt)
                 txt (length pre) m caps); [lia|].
        now rewrite E, skipn_length_app.
  - destruct (contains (parent_tag title) txt) eqn:Ec.
    + rewrite (text_eqb_shorter _ _ (Hplain eq_refl)). intros _.
      now apply Hplain.
    + destruct (contains (parent_tag_with_pipe title) txt); [|discriminate].
      destruct Hpiped as [E|[Hlt _]].
      * rewrite E, Hrefl. discriminate.
      * rewrite (text_eqb_shorter _ _ Hlt). intros _. exact Hlt.
  - destruct (contains (parent_tag title) txt);
      [|destruct (contains (parent_tag_with_pipe title) txt); [|reflexivity]];
      match goal with |- context [text_eqb ?a txt] => destruct (text_eqb a txt) end;
      try reflexivity; discriminate.
Qed.

(** C8, amended: the remover returns the text as it is, with
    [removed = false], when neither form occurs.  It returns
    [removed = true] exactly when the plain form occurs or a sort-keyed tag
    occurs that is closed by ["]]"] with no ["]"] in its key; the text it
    then returns is shorter, the occurrences of the plain form and then the
    closed sort-keyed tags having been deleted from left to right; and with
    [removed = false] the text is the one given.  On a page whose only
    ["["] are those of one such tag the result is the page without the
    tag, its key included.  More generally, on a page written around any
    number of tags of the parent, at least one, each plain or sort-keyed
    with a key free of brackets, every tag is deleted and the text around
    them is returned as it is, when the title has no ["["] and the opening
    ["[[" title] does not occur in the text around the tags.  Titles are
    compared character by character. *)
Theorem C8_remove_tag_plain_and_closed (txt title : text) :
  (~ occurs (parent_tag title) txt ->
   ~ occurs (parent_tag_with_pipe title) txt ->
   remove_category_from_parent txt title = (txt, false))
  /\ (snd (remove_category_from_parent txt title) = true <->
      occurs (parent_tag title) txt
      \/ exists tag, piped_tag title tag /\ occurs tag txt)
  /\ (snd (remove_category_from_parent txt title) = true ->
      length (fst (remove_category_from_parent txt title)) < length txt)
  /\ (snd (remove_category_from_parent txt title) = false ->
      fst (remove_category_from_parent txt title) = txt)
  /\ (forall pre tag post,
        txt = pre ++ tag ++ post ->
        ~ In "[" pre -> ~ In "[" post -> ~ In "[" title ->
        tag = parent_tag title
        \/ (exists key, tag = T "[[" ++ title ++ T "|" ++ key ++ T "]]"
                        /\ forallb (not_char "]") key = true /\ ~ In "[" key) ->
        remove_category_from_parent txt title = (pre ++ post, true))
  /\ (forall seg0 rest,
        txt = page_of_tags seg0 rest ->
        rest <> [] ->
        ~ In "[" title ->
        Forall (fun ts => closed_tag title (fst ts)) rest ->
        ~ occurs (T "[[" ++ title) (text_around seg0 rest) ->
        remove_category_from_parent txt title = (text_around seg0 rest, true)).
Proof.
  destruct (remove_tag_outcomes txt title) as [H1 [H2 [H3 H4]]].
  split; [exact H1|]. split; [exact H2|]. split; [exact H3|].
  split; [exact H4|]. split.
  - intros pre tag post ->. apply one_tag_removed.
  - intros seg0 rest ->. apply all_tags_removed.
Qed.

(** The scenario of the specification, and a title in another case. *)
Lemma remove_tag_examples :
  remove_category_from_parent (T "Some text" ++ [nl] ++ T "[[Category:Parent|SortKey]]" ++ [nl]
                ++ T "More text") (T "Category:Parent")
  = (T "Some text" ++ [nl; nl] ++ T "More text", true)
  /\ remove_category_from_parent (T "a [[Category:Parent]] b [[Category:Parent|k]] c")
       (T "Category:Parent") = (T "a  b  c", true)
  /\ remove_category_from_parent (T "[[category:parent]]") (T "Category:Parent")
     = (T "[[category:parent]]", false)
  /\ remove_category_from_parent
       (T "[[Category:Parent]] [[Category:Other]] [[Category:Parent|x]]")
       (T "Category:Parent")
     = (T " [[Category:Other]] ", true).
Proof. repeat split; vm_compute; reflexivity. Qed.

(** * Further properties *)

(** ** Numbers as text *)

Lemma uint_digits (d : Decimal.uint) :
  forallb is_digit (list_ascii_of_string (NilEmpty.string_of_uint d)) = true.
Proof. induction d; cbn; auto. Qed.

Lemma decimal_shape (n : Z) :
  exists d ds,
    forallb is_digit (d :: ds) = true
    /\ ((0 <= n)%Z -> decimal n = d :: ds)
    /\ ((n < 0)%Z -> decimal n = "-" :: d :: ds).
Proof.
  unfold decimal.
  assert (forall u, exists d ds,
             list_ascii_of_string (NilZero.string_of_uint u) = d :: ds
             /\ forallb is_digit (d :: ds) = true) as Hu.
  { intros u. pose proof (uint_digits u) as H.
    destruct u; cbn in H |- *; eauto. }
  destruct n as [|p|p]; cbn [Z.to_int NilZero.string_of_int].
  - exists "0", []. split; [reflexivity|]. split; [intros _; reflexivity|lia].
  - destruct (Hu (Pos.to_uint p)) as [d [ds [E H]]]. exists d, ds.
    split; [exact H|]. split; [intros _; exact E|lia].
  - destruct (Hu (Pos.to_uint p)) as [d [ds [E H]]]. exists d, ds.
    split; [exact H|]. split; [lia|]. intros _. cbn. now rewrite E.
Qed.

Lemma digit_not_pipe (c : ascii) : is_digit c = true -> c <> "|".
Proof. intros H ->. discriminate H. Qed.

Lemma digits_no_pipe (s : text) : forallb is_digit s = true -> ~ In "|" s.
Proof.
  induction s as [|c s IH]; cbn; [tauto|].
  intros H. apply andb_true_iff in H as [Hc Hs]. intros [E|E].
  - now apply (digit_not_pipe c).
  - now apply IH.
Qed.

Lemma decimal_no_pipe (n : Z) : ~ In "|" (decimal n).
Proof.
  destruct (decimal_shape n) as [d [ds [H [Hp Hn]]]].
  destruct (Z.le_gt_cases 0 n) as [L|L].
  - rewrite (Hp L). now apply digits_no_pipe.
  - rewrite (Hn L). intros [E|E]; [discriminate E|].
    now apply (digits_no_pipe _ H).
Qed.

Lemma digits_value_nonneg (s : text) : (0 <= digits_value s)%Z.
Proof.
  unfold digits_value.
  assert (forall acc, (0 <= acc)%Z ->
            (0 <= fold_left (fun a c => 10 * a + digit_val c) s acc)%Z) as H.
  { induction s as [|c s IH]; intros acc Ha; cbn [fold_left]; [exact Ha|].
    apply IH. unfold digit_val. lia. }
  apply H. lia.
Qed.

Lemma int_of_digits_nonneg (s : text) (n : Z) :
  int_of_digits s = Some n -> (0 <= n)%Z.
Proof.
  unfold int_of_digits. destruct (zlen s <=? int_max_str_digits)%Z;
    [|discriminate].
  intros E. injection E as <-. apply digits_value_nonneg.
Qed.

Lemma extract_limit_nonneg (txt name : text) (n : Z) :
  extract_limit_from_template txt name = Some (Some n) -> (0 <= n)%Z.
Proof.
  unfold extract_limit_from_template, group1.
  destruct (search true (numbered_pattern name) txt) as [[[a b] caps]|].
  - destruct (int_of_digits (nth 0 caps [])) as [m|] eqn:E; [|discriminate].
    intros E'. injection E' as <-. now apply int_of_digits_nonneg in E.
  - destruct (search true (named_pattern name) txt) as [[[a b] caps]|];
      [|discriminate].
    destruct (int_of_digits (nth 0 caps [])) as [m|] eqn:E; [|discriminate].
    intros E'. injection E' as <-. now apply int_of_digits_nonneg in E.
Qed.

Lemma applied_limit_negative (custom : option Z) (default_limit : Z) :
  (forall n, custom = Some n -> 0 <= n)%Z ->
  (applied_limit custom default_limit < 0)%Z ->
  applied_limit custom default_limit = default_limit.
Proof.
  unfold applied_limit. destruct custom as [n|]; [|reflexivity].
  intros H. specialize (H n eq_refl). destruct (n =? 0)%Z; [reflexivity|lia].
Qed.


(** ** Stripping *)

Section DropwhileMore.

Variable p : ascii -> bool.

Lemma dropwhile_idem (s : text) : dropwhile p (dropwhile p s) = dropwhile p s.
Proof.
  apply dropwhile_fixed. intros c r E. now apply dropwhile_head in E.
Qed.

Lemma dropwhile_all (s : text) : forallb p s = true -> dropwhile p s = [].
Proof.
  induction s as [|c s IH]; cbn; [reflexivity|].
  intros H. apply andb_true_iff in H as [-> Hs]. now apply IH.
Qed.

Lemma dropwhile_snoc (a : text) (c : ascii) :
  dropwhile p (a ++ [c])
  = if forallb p a then (if p c then [] else [c]) else dropwhile p a ++ [c].
Proof.
  induction a as [|x a IH]; cbn [app dropwhile forallb]; [reflexivity|].
  destruct (p x); [exact IH|reflexivity].
Qed.

Lemma dropwhile_app_stop (a b : text) :
  stops p b -> dropwhile p (a ++ b) = dropwhile p a ++ b.
Proof.
  intros H. induction a as [|x a IH]; cbn [app dropwhile].
  - destruct b as [|y b]; [reflexivity|]. cbn in H |- *. now rewrite H.
  - destruct (p x); [exact IH|reflexivity].
Qed.

Lemma forallb_rev (s : text) : forallb p (rev s) = forallb p s.
Proof.
  induction s as [|c s IH]; cbn [rev forallb]; [reflexivity|].
  rewrite forallb_app, IH. cbn. rewrite andb_true_r. apply andb_comm.
Qed.

End DropwhileMore.

Lemma rstrip_cons (c : ascii) (s : text) :
  rstrip (c :: s)
  = if forallb is_space s && is_space c then [] else c :: rstrip s.
Proof.
  unfold rstrip. cbn [rev]. rewrite dropwhile_snoc, forallb_rev.
  destruct (forallb is_space s) eqn:E; cbn [andb].
  - rewrite (dropwhile_all is_space (rev s)) by (now rewrite forallb_rev).
    destruct (is_space c); reflexivity.
  - now rewrite rev_app_distr.
Qed.

Lemma rstrip_idem (s : text) : rstrip (rstrip s) = rstrip s.
Proof. unfold rstrip. now rewrite rev_involutive, dropwhile_idem. Qed.

Lemma lstrip_rstrip (s : text) : lstrip (rstrip s) = rstrip (lstrip s).
Proof.
  induction s as [|c s IH]; [reflexivity|].
  rewrite rstrip_cons. unfold lstrip at 2. cbn [dropwhile].
  fold (lstrip s).
  destruct (forallb is_space s) eqn:E; cbn [andb].
  - destruct (is_space c) eqn:Ec.
    + unfold lstrip at 2. now rewrite (dropwhile_all is_space s E).
    + unfold lstrip. cbn [dropwhile]. rewrite Ec, rstrip_cons, E, Ec.
      reflexivity.
  - unfold lstrip at 1. cbn [dropwhile]. fold (lstrip (rstrip s)).
    destruct (is_space c) eqn:Ec; [exact IH|].
    now rewrite rstrip_cons, E.
Qed.

Lemma strip_rstrip (s : text) : strip (rstrip s) = strip s.
Proof. unfold strip. now rewrite lstrip_rstrip, rstrip_idem. Qed.

Lemma strip_idem (s : text) : strip (strip s) = strip s.
Proof. apply strip_fixed; [apply strip_head_ok|apply strip_last_ok]. Qed.

Lemma rstrip_after_prefix (P s : text) :
  P <> [] -> head_ok (rev P) -> rstrip (P ++ s) = P ++ rstrip s.
Proof.
  intros Hne Hh. unfold rstrip. rewrite rev_app_distr, dropwhile_app_stop.
  - now rewrite rev_app_distr, rev_involutive.
  - destruct (rev P) as [|x r] eqn:E; [exact I|]. cbn. now apply (Hh x r).
Qed.


(** * Further properties of the rewrite engine *)

(** ** Source names that differ in letter case only *)

Section SamePattern.

Variable R : Type.
Variable ic : bool.

Lemma star_ext (p : ascii -> bool) (s : text) (caps : captures)
  (k k' : text -> captures -> option R) :
  (forall s' caps', k s' caps' = k' s' caps') ->
  star p s caps k = star p s caps k'.
Proof.
  intros H. induction s as [|c s IH]; cbn [star]; [apply H|].
  destruct (p c); [|apply H]. now rewrite IH, H.
Qed.

Lemma run_ext (r : regex) :
  forall (s : text) (caps : captures) (k k' : text -> captures -> option R),
    (forall s' caps', k s' caps' = k' s' caps') ->
    run ic r s caps k = run ic r s caps k'.
Proof.
  induction r as [|c|p|a IHa b IHb|a IHa|p|a IHa]; intros s caps k k' H;
    cbn [run].
  - apply H.
  - destruct s as [|x s]; [reflexivity|]. destruct (lit_eqb ic c x); auto.
  - destruct s as [|x s]; [reflexivity|]. destruct (p x); auto.
  - apply IHa. intros s' caps'. now apply IHb.
  - rewrite (IHa s caps k k' H). now rewrite H.
  - now apply star_ext.
  - apply IHa. intros s' caps'. apply H.
Qed.

End SamePattern.

Lemma alike_refl (r : regex) : alike r r.
Proof. now intros R s caps k. Qed.

Lemma alike_seq (a a' b b' : regex) :
  alike a a' -> alike b b' -> alike (Seq a b) (Seq a' b').
Proof.
  intros Ha Hb R s caps k. cbn [run]. rewrite Ha.
  apply run_ext. intros s' caps'. apply Hb.
Qed.

Lemma alike_lits (a b : text) : same_name a b -> alike (lits a) (lits b).
Proof.
  unfold same_name, str_lower. revert b.
  induction a as [|x a IH]; intros [|y b] E; try discriminate E.
  - apply alike_refl.
  - cbn [map] in E. injection E as Exy E. cbn [lits].
    apply alike_seq; [|now apply IH].
    intros R s caps k. cbn [run]. destruct s as [|c s]; [reflexivity|].
    unfold lit_eqb. now rewrite Exy.
Qed.

Lemma alike_source_pattern (a b : text) :
  same_name a b -> alike (source_pattern a) (source_pattern b).
Proof.
  intros H. unfold source_pattern, escape. cbn [seq].
  repeat (apply alike_seq; try apply alike_refl). now apply alike_lits.
Qed.

Lemma finditer_from_alike (r r' : regex) (s : text) :
  alike r r' ->
  forall pos k, finditer_from true r pos s k = finditer_from true r' pos s k.
Proof.
  intros H. induction s as [|c s IH]; intros pos k; cbn [finditer_from];
    [reflexivity|].
  destruct k as [|k]; [|apply IH].
  unfold match_at. rewrite H.
  destruct (run true r' (c :: s) [] _) as [[[|n] caps]|]; now rewrite ?IH.
Qed.

Lemma invocation_length (name s : text) :
  invocation name s -> length name + 4 <= length s.
Proof.
  intros [w1 n w2 _ Hn _|w1 n w2 args _ Hn _ _];
    apply same_name_length in Hn;
    cbn [list_ascii_of_string app length]; rewrite !length_app;
    cbn [length]; rewrite ?length_app; cbn [length]; lia.
Qed.

Lemma finditer_alone (a : text) :
  finditer true (source_pattern a) (T "{{" ++ a ++ T "}}")
  = [(0, length a + 4)].
Proof.
  assert (length (T "{{" ++ a ++ T "}}") = length a + 4) as Hlen.
  { cbn [list_ascii_of_string app length]. rewrite length_app. cbn. lia. }
  assert (invocation a (T "{{" ++ a ++ T "}}")) as I.
  { apply (@inv_bare a [] a []); reflexivity. }
  pose proof (@match_at_complete true (source_pattern a) _ []
                (source_pattern_complete _ _ I)) as M.
  rewrite app_nil_r in M.
  destruct (match_at true (source_pattern a) (T "{{" ++ a ++ T "}}"))
    as [[n caps]|] eqn:E; [|contradiction].
  assert (n = length a + 4) as ->.
  { pose proof (match_at_length _ _ _ _ _ E) as L.
    apply match_at_sound in E as [s1 [s2 [E1 [-> M1]]]].
    apply source_pattern_sound, invocation_length in M1. lia. }
  unfold finditer. cbn [list_ascii_of_string app] in E |- *.
  rewrite finditer_from_cons, E.
  replace (length a + 4) with (S (length a + 3)) by lia.
  rewrite skipn_all2; [reflexivity|].
  cbn [length]. rewrite length_app. cbn. lia.
Qed.

Lemma erase_second_copy (a b : text) (n : nat) (txt repl : text) :
  length txt = n -> 0 < n ->
  replace_first txt (Found a 0 n) [Found b 0 n] repl = [].
Proof.
  intros Hn Hpos. unfold replace_first. cbn [f_start f_end fold_left].
  unfold remove_step. cbn [f_start f_end].
  rewrite !slice_to_nat, slice_from_nat. cbn [firstn app].
  rewrite <- Hn, skipn_all, app_nil_r.
  unfold group0. cbn [f_start f_end skipn]. rewrite Nat.sub_0_r, firstn_all.
  assert ((Z.of_nat (length txt) >? Z.of_nat 0)%Z = true) as ->.
  { apply Z.gtb_lt. lia. }
  assert ((Z.of_nat 0 >? Z.of_nat 0)%Z = false) as -> by reflexivity.
  cbn [fst]. rewrite slice_to_nat. cbn [firstn app].
  replace (Z.of_nat (length txt) + (zlen repl - zlen txt))%Z
    with (Z.of_nat (length repl)) by (unfold zlen; lia).
  now rewrite slice_from_nat, skipn_all.
Qed.

(** A match of one of the two limit patterns is longer than the bare
    invocation of the name, so that on a page that is this invocation
    nothing is read. *)
Lemma args_pattern_length (name : text) (rest : regex) (s : text) (k : nat) :
  (forall t, Matches true rest t -> k <= length t) ->
  Matches true (args_pattern name rest) s -> length name + 3 + k <= length s.
Proof.
  intros Hk M. unfold args_pattern, ws in M.
  apply Matches_Seq_inv in M as [b1 [r1 [-> [Mb1 M]]]].
  apply Matches_Lit_inv in Mb1 as [x1 [-> _]].
  apply Matches_Seq_inv in M as [b2 [r2 [-> [Mb2 M]]]].
  apply Matches_Lit_inv in Mb2 as [x2 [-> _]].
  apply Matches_Seq_inv in M as [w1 [r3 [-> [_ M]]]].
  apply Matches_Seq_inv in M as [n [r4 [-> [Mn M]]]].
  apply Matches_lits_fold, same_name_length in Mn.
  apply Matches_Seq_inv in M as [w2 [r5 [-> [_ M]]]].
  apply Matches_Seq_inv in M as [b3 [r6 [-> [Mb3 M]]]].
  apply Matches_Lit_inv in Mb3 as [x3 [-> _]].
  apply Matches_Seq_inv in M as [w3 [t [-> [_ M]]]].
  apply Hk in M. rewrite !length_app. cbn [length]. lia.
Qed.

Lemma search_too_short (name : text) (rest : regex) (txt : text) (k : nat) :
  (forall t, Matches true rest t -> k <= length t) ->
  length txt < length name + 3 + k ->
  search true (args_pattern name rest) txt = None.
Proof.
  intros Hk Hlen. unfold search.
  destruct (search_from true (args_pattern name rest) 0 txt)
    as [[[a b] caps]|] eqn:Es; [exfalso|reflexivity].
  apply search_from_found in Es as [_ Hm].
  apply match_at_sound in Hm as [s1 [s2 [E [_ M]]]].
  apply (args_pattern_length _ _ _ k Hk) in M.
  assert (length (skipn (a - 0) txt) <= length txt) as Hs
    by (rewrite length_skipn; lia).
  rewrite E, length_app in Hs. lia.
Qed.

Lemma extract_from_bare_page (a : text) :
  extract_limit_from_template (T "{{" ++ a ++ T "}}") a = Some None.
Proof.
  assert (length (T "{{" ++ a ++ T "}}") < length a + 3 + 2) as Hlen
    by (cbn [list_ascii_of_string app length]; rewrite length_app; cbn; lia).
  unfold extract_limit_from_template.
  change (numbered_pattern a)
    with (args_pattern a (seq [Grp (plus is_digit); ws; Lit "}"; Lit "}"])).
  change (named_pattern a)
    with (args_pattern a
            (seq [lits (T "limit"); ws; Lit "="; ws; Grp (plus is_digit)])).
  rewrite (search_too_short a _ _ 2); [|clear Hlen|exact Hlen].
  - cbn [group1]. rewrite (search_too_short a _ _ 2); [reflexivity| |exact Hlen].
    intros t M. cbn [seq] in M.
    apply Matches_Seq_inv in M as [L [r1 [-> [ML _]]]].
    apply Matches_lits_fold, same_name_length in ML.
    rewrite length_app, ML. cbn. lia.
  - intros t M. cbn [seq] in M. unfold ws in M.
    apply Matches_Seq_inv in M as [g [r1 [-> [_ M]]]].
    apply Matches_Seq_inv in M as [w4 [r2 [-> [_ M]]]].
    apply Matches_Seq_inv in M as [b1 [r3 [-> [Mb1 M]]]].
    apply Matches_Lit_inv in Mb1 as [c1 [-> _]].
    apply Matches_Seq_inv in M as [b2 [r4 [-> [Mb2 M]]]].
    apply Matches_Lit_inv in Mb2 as [c2 [-> _]].
    rewrite !length_app. cbn [length]. lia.
Qed.

(** X1: source names that are equal up to letter case, as [CatDiffuse] and
    [Catdiffuse] of [config.SOURCE_TEMPLATES] are, record the same spans in
    every text; on a page that is one invocation of such a name and has no
    target the span is recorded twice, and the second copy is removed at
    the place of the replacement: the page comes back empty, with
    [changed = True], for every default limit that can be printed, and
    for any other the engine raises. *)
Theorem same_name_sources_erase_the_page (a b target : text)
  (others : list text) (default_limit : Z) :
  same_name a b ->
  has_target_template (T "{{" ++ a ++ T "}}") target = false ->
  Forall (fun o => finditer true (source_pattern o) (T "{{" ++ a ++ T "}}") = [])
    others ->
  (forall txt, finditer true (source_pattern a) txt
               = finditer true (source_pattern b) txt)
  /\ sort_found (source_found (T "{{" ++ a ++ T "}}") (a :: others ++ [b]))
     = [Found a 0 (length a + 4); Found b 0 (length a + 4)]
  /\ replace_templates (T "{{" ++ a ++ T "}}") (a :: others ++ [b]) target
       default_limit
     = match str_of_int default_limit with
       | Some limit => Some ([], true, replaced_action a target limit 2)
       | None => None
       end.
Proof.
  intros Hab Ht Ho.
  assert (forall txt, finditer true (source_pattern a) txt
                      = finditer true (source_pattern b) txt) as Hsame.
  { intros txt. apply finditer_from_alike. now apply alike_source_pattern. }
  assert (sort_found (source_found (T "{{" ++ a ++ T "}}") (a :: others ++ [b]))
          = [Found a 0 (length a + 4); Found b 0 (length a + 4)]) as Hl.
  { unfold source_found. cbn [flat_map]. rewrite flat_map_app. cbn [flat_map].
    rewrite <- Hsame, finditer_alone. cbn [map fst snd].
    assert (flat_map
              (fun source =>
                 map (fun se => Found source (fst se) (snd se))
                   (finditer true (source_pattern source) (T "{{" ++ a ++ T "}}")))
              others = []) as ->.
    { induction Ho as [|o others Ho _ IH]; cbn [flat_map]; [reflexivity|].
      now rewrite Ho, IH. }
    reflexivity. }
  split; [exact Hsame|]. split; [exact Hl|].
  unfold replace_templates. rewrite Hl, Ht. cbn [f_source].
  assert (group0 (T "{{" ++ a ++ T "}}") (Found a 0 (length a + 4))
          = T "{{" ++ a ++ T "}}") as ->.
  { unfold group0. cbn [f_start f_end skipn]. rewrite Nat.sub_0_r.
    apply firstn_all2.
    cbn [list_ascii_of_string app length]. rewrite length_app. cbn. lia. }
  rewrite extract_from_bare_page. cbv zeta. cbn [applied_limit].
  destruct (str_of_int default_limit) as [limit|]; [|reflexivity].
  do 3 f_equal. apply erase_second_copy; [|lia].
  cbn [list_ascii_of_string app length]. rewrite length_app. cbn. lia.
Qed.

Lemma same_name_sources_erase_the_page_witness :
  same_name (T "CatDiffuse") (T "Catdiffuse")
  /\ replace_templates (T "{{CatDiffuse}}")
       [T "CatDiffuse"; T "Cat diffuse"; T "Category diffuse"; T "Catdiffuse"]
       (T "Diffusion by condition") 200
     = Some ([], true,
             T "Replaced CatDiffuse with Diffusion by condition|200 and removed 1 duplicate(s)").
Proof.
  assert (Forall
            (fun o => finditer true (source_pattern o)
                        (T "{{" ++ T "CatDiffuse" ++ T "}}") = [])
            [T "Cat diffuse"; T "Category diffuse"]) as Ho
    by (repeat constructor).
  split; [reflexivity|].
  exact (proj2 (proj2 (same_name_sources_erase_the_page
                         (T "CatDiffuse") (T "Catdiffuse")
                         (T "Diffusion by condition")
                         [T "Cat diffuse"; T "Category diffuse"] 200%Z
                         eq_refl eq_refl Ho))).
Defined.

(** ** A limit of zero *)

(** X2: the extraction reads a limit of zero, written with up to 4300
    zeros, and the truth test on it drops it: the default limit is the one
    applied.  On a longer run of zeros [int] raises, and so does the
    extraction. *)
Theorem zero_limit_is_dropped (name w1 n w2 w3 w4 ds post : text) (d : ascii)
  (default_limit : Z) :
  name <> [] -> head_ok name ->
  blank w1 -> same_name n name -> blank w2 -> blank w3 -> blank w4 ->
  forallb is_digit (d :: ds) = true ->
  digits_value (d :: ds) = 0%Z ->
  let inv := T "{{" ++ w1 ++ n ++ w2 ++ T "|" ++ w3 ++ (d :: ds) ++ w4 ++ T "}}"
               ++ post in
  extract_limit_from_template inv name
  = (if (zlen (d :: ds) <=? 4300)%Z then Some (Some 0%Z) else None)
  /\ (forall custom_limit,
        extract_limit_from_template inv name = Some custom_limit ->
        applied_limit custom_limit default_limit = default_limit).
Proof.
  intros Hne Hh H1 Hn H2 H3 H4 Hd H0 inv. subst inv.
  rewrite (extract_numbered name Hne Hh w1 n w2 w3 w4 ds post d H1 Hn H2 H3 H4 Hd).
  unfold int_of_digits, int_max_str_digits. rewrite H0.
  destruct (zlen (d :: ds) <=? 4300)%Z; cbn [option_map].
  - split; [reflexivity|]. intros c E. now injection E as <-.
  - split; [reflexivity|]. discriminate.
Qed.

Lemma zero_limit_is_dropped_witness :
  extract_limit_from_template (T "{{ CatDiffuse | 00 }}") (T "CatDiffuse")
  = Some (Some 0%Z)
  /\ (forall custom_limit,
        extract_limit_from_template (T "{{ CatDiffuse | 00 }}") (T "CatDiffuse")
        = Some custom_limit ->
        applied_limit custom_limit 200 = 200%Z).
Proof.
  assert (head_ok (T "CatDiffuse")) as Hh.
  { intros c r E. injection E as <- _. reflexivity. }
  exact (zero_limit_is_dropped (T "CatDiffuse") (T " ") (T "CatDiffuse") (T " ")
           (T " ") (T " ") (T "0") [] "0" 200%Z
           ltac:(discriminate) Hh eq_refl eq_refl eq_refl eq_refl eq_refl eq_refl
           eq_refl).
Defined.

(** ** What a change is *)

Lemma sort_found_nil (l : list found) : sort_found l = [] -> l = [].
Proof.
  destruct l as [|f l]; [reflexivity|]. cbn [sort_found].
  destruct (sort_found l) as [|g l']; cbn [insert_found]; [discriminate|].
  destruct (f_start f <=? f_start g)%nat; discriminate.
Qed.

(** X5: the engine returns [changed = False] exactly when no substring of
    the text is an invocation of a source name, and whatever it returns,
    [changed] says whether there is one; with [changed = False] the text
    comes back as it was. *)
Theorem changed_iff_a_source_is_invoked (txt : text) (sources : list text)
  (target : text) (default_limit : Z) :
  ((exists out action,
       replace_templates txt sources target default_limit
       = Some (out, false, action))
   <-> no_source txt sources)
  /\ (forall out changed action,
        replace_templates txt sources target default_limit
        = Some (out, changed, action) ->
        (changed = false <-> no_source txt sources)
        /\ (changed = false -> out = txt)).
Proof.
  split; [split|].
  - intros [out [action E]].
    apply replace_templates_cases in E
      as [[E _]|[[first [rest [_ [_ [_ [E _]]]]]]
                |[first [rest [c [l [_ [_ [_ [_ [_ [E _]]]]]]]]]]]];
      try discriminate E.
    apply sort_found_nil in E. now apply no_source_iff.
  - intros H. apply no_source_iff in H. unfold replace_templates.
    rewrite H. cbn [sort_found]. now eexists _, _.
  - intros out changed action E.
    apply replace_templates_cases in E
      as [[E [-> [-> _]]]|[[first [rest [E [_ [_ [-> _]]]]]]
                         |[first [rest [c [l [E [_ [_ [_ [_ [-> _]]]]]]]]]]]].
    + apply sort_found_nil in E. split; [|reflexivity].
      split; [intros _; now apply no_source_iff|reflexivity].
    + split; [|discriminate]. split; [discriminate|].
      intros H. apply no_source_iff in H. rewrite H in E. discriminate E.
    + split; [|discriminate]. split; [discriminate|].
      intros H. apply no_source_iff in H. rewrite H in E. discriminate E.
Qed.

(** ** The remove branch makes the text shorter *)

Lemma cut_le (t : text) (f : found) :
  f_start f <= f_end f -> length (cut t f) <= length t.
Proof.
  intros H. rewrite cut_nat, length_app, length_firstn, length_skipn. lia.
Qed.

Lemma cut_lt (t : text) (f : found) :
  f_start f < f_end f -> f_end f <= length t -> length (cut t f) < length t.
Proof.
  intros H1 H2. rewrite cut_nat, length_app, length_firstn, length_skipn. lia.
Qed.

Lemma fold_cut_le (l : list found) :
  forall t,
    Forall (fun f => f_start f <= f_end f) l ->
    length (fold_left cut l t) <= length t.
Proof.
  induction l as [|f l IH]; intros t H; cbn [fold_left]; [lia|].
  inversion H; subst.
  etransitivity; [now apply IH|now apply cut_le].
Qed.

Section SubLength.

Variable ic : bool.
Variable r : regex.
Variable repl : text.

Hypothesis match_long :
  forall s n caps, match_at ic r s = Some (n, caps) -> length repl <= n.

Lemma sub_from_le (m : nat) :
  forall s, length s <= m -> length (sub_from ic r repl s 0) <= length s.
Proof.
  induction m as [|m IH]; intros s Hs.
  - destruct s; [cbn; lia|cbn in Hs; lia].
  - destruct s as [|c s]; [cbn; lia|].
    rewrite sub_from_cons.
    destruct (match_at ic r (c :: s)) as [[[|n] caps]|] eqn:E.
    + cbn [length] in *. specialize (IH s ltac:(lia)). lia.
    + pose proof (match_long _ _ _ E) as L.
      pose proof (match_at_length _ _ _ _ _ E) as L'.
      rewrite length_app.
      specialize (IH (skipn n s)).
      rewrite length_skipn in IH. cbn [length] in *.
      specialize (IH ltac:(lia)). lia.
    + cbn [length] in *. specialize (IH s ltac:(lia)). lia.
Qed.

End SubLength.

Lemma match_run_length (c : ascii) (s : text) (n : nat) (caps : captures) :
  match_at false (run_of c) s = Some (n, caps) -> 2 <= n.
Proof.
  intros E. apply match_at_sound in E as [s1 [s2 [_ [-> M]]]].
  unfold run_of, plus in M. cbn [seq] in M.
  apply Matches_Seq_inv in M as [a [b [-> [Ma Mb]]]].
  apply Matches_Lit_inv in Ma as [x [-> _]].
  apply Matches_Seq_inv in Mb as [b1 [b2 [-> [Mb _]]]].
  apply Matches_Seq_inv in Mb as [b3 [b4 [-> [Mb _]]]].
  apply Matches_Cls_inv in Mb as [y [-> _]].
  cbn [app length]. lia.
Qed.

Lemma collapse_newlines_le (s : text) :
  length (collapse_newlines s) <= length s.
Proof.
  apply (sub_from_le false (run_of nl) [nl; nl]) with (m := length s); [|lia].
  intros t n caps E. apply match_run_length in E. cbn. lia.
Qed.

Lemma collapse_spaces_le (s : text) :
  length (collapse_spaces s) <= length s.
Proof.
  apply (sub_from_le false (run_of " ") [" "]) with (m := length s); [|lia].
  intros t n caps E. apply match_run_length in E. cbn. lia.
Qed.

(** X6: when the target is present and an invocation of a source name is
    found, the text returned is strictly shorter than the text given,
    whether or not the recorded spans overlap. *)
Theorem remove_branch_shortens (txt : text) (sources : list text)
  (target : text) (default_limit : Z) :
  has_target_template txt target = true ->
  source_found txt sources <> [] ->
  exists out action,
    replace_templates txt sources target default_limit = Some (out, true, action)
    /\ length out < length txt.
Proof.
  intros Ht Hne. unfold replace_templates. rewrite Ht.
  destruct (sort_found (source_found txt sources)) as [|first rest] eqn:E;
    [apply sort_found_nil in E; contradiction|].
  eexists _, _. split; [reflexivity|]. unfold remove_redundant.
  eapply Nat.le_lt_trans; [apply collapse_spaces_le|].
  eapply Nat.le_lt_trans; [apply collapse_newlines_le|].
  assert (Forall (fun f => f_start f < f_end f /\ f_end f <= length txt)
            (rev (first :: rest))) as Hall.
  { apply Forall_forall. intros f Hf. apply in_rev in Hf. rewrite <- E in Hf.
    apply found_entries in Hf. tauto. }
  destruct (rev (first :: rest)) as [|f l] eqn:Er.
  - apply (f_equal (@length found)) in Er. rewrite length_rev in Er.
    discriminate Er.
  - cbn [fold_left]. inversion Hall as [|f' l' [Hf1 Hf2] Hl]; subst.
    apply Nat.le_lt_trans with (m := length (cut txt f));
      [|now apply cut_lt].
    apply fold_cut_le. eapply Forall_impl; [|exact Hl].
    intros g [Hg _]. lia.
Qed.

Lemma remove_branch_shortens_witness :
  has_target_template (T "{{Diffusion by condition|200}} {{CatDiffuse}}")
    (T "Diffusion by condition") = true
  /\ exists out action,
       replace_templates (T "{{Diffusion by condition|200}} {{CatDiffuse}}")
         [T "CatDiffuse"; T "Catdiffuse"] (T "Diffusion by condition") 200
       = Some (out, true, action)
       /\ length out < length (T "{{Diffusion by condition|200}} {{CatDiffuse}}").
Proof.
  assert (source_found (T "{{Diffusion by condition|200}} {{CatDiffuse}}")
            [T "CatDiffuse"; T "Catdiffuse"] <> []) as Hne
    by (vm_compute; discriminate).
  split; [reflexivity|].
  exact (remove_branch_shortens
           (T "{{Diffusion by condition|200}} {{CatDiffuse}}")
           [T "CatDiffuse"; T "Catdiffuse"] (T "Diffusion by condition") 200%Z
           eq_refl Hne).
Defined.

(** ** The replace branch writes the target *)

Section RunKeeps.

Variable c : ascii.
Variable repl : text.
Variable q : text.

Hypothesis q_free : forallb (not_char c) q = true.
Hypothesis q_not_empty : q <> [].

Lemma all_char_repeat (w : text) :
  forallb (is_char c) w = true -> w = repeat c (length w).
Proof.
  induction w as [|x w IH]; cbn; [reflexivity|].
  intros H. apply andb_true_iff in H as [Hx Hw].
  apply is_char_true in Hx. subst x. now rewrite <- IH.
Qed.

Lemma sub_run_prefix :
  forall p s,
    forallb (not_char c) p = true ->
    starts_with p s = true ->
    starts_with p (sub_from false (run_of c) repl s 0) = true.
Proof.
  induction p as [|y p IH]; intros s Hp H; [now destruct (sub_from _ _ _ _ _)|].
  destruct s as [|x s]; [discriminate H|].
  cbn [starts_with] in H. apply andb_true_iff in H as [Hyx Hs].
  cbn [forallb] in Hp. apply andb_true_iff in Hp as [Hy Hp].
  apply ascii_eqb_true in Hyx. subst x.
  destruct (sub_run_head c repl y s) as [[w [r [_ [E _]]]]|[_ E]].
  - subst y. unfold not_char in Hy. now rewrite ascii_eqb_refl in Hy.
  - rewrite E. cbn [starts_with]. rewrite ascii_eqb_refl. now apply IH.
Qed.

Lemma sub_run_keeps (n : nat) :
  forall s,
    length s <= n ->
    contains q s = true ->
    contains q (sub_from false (run_of c) repl s 0) = true.
Proof.
  induction n as [|n IH]; intros s Hs H.
  - destruct s; [|cbn in Hs; lia]. destruct q; [contradiction|discriminate H].
  - destruct s as [|x s]; [destruct q; [contradiction|discriminate H]|].
    destruct (sub_run_head c repl x s)
      as [[w [r [Es [Ex [Hw [Hr E]]]]]]|[_ E]]; rewrite E.
    + subst x s. apply contains_suffix. apply IH.
      * cbn [length] in Hs. rewrite length_app in Hs. lia.
      * rewrite (all_char_repeat w Hw) in H.
        change (c :: c :: repeat c (length w) ++ r)
          with (repeat c (S (S (length w))) ++ r) in H.
        now rewrite contains_after_run in H.
    + rewrite contains_cons in H |- *. apply orb_true_iff in H as [H|H].
      * apply sub_run_prefix in H; [|exact q_free].
        rewrite E in H. now rewrite H.
      * rewrite (IH s) by (cbn in Hs; lia || exact H). apply orb_true_r.
Qed.

End RunKeeps.

Lemma not_nl_digits (s : text) :
  forallb is_digit s = true -> forallb (not_char nl) s = true.
Proof.
  induction s as [|x s IH]; cbn; [reflexivity|].
  intros H. apply andb_true_iff in H as [Hx Hs]. rewrite (IH Hs), andb_true_r.
  unfold not_char. destruct (ascii_eqb x nl) eqn:E; [|reflexivity].
  apply ascii_eqb_true in E. subst x. discriminate Hx.
Qed.

Lemma not_nl_free (s : text) : ~ In nl s -> forallb (not_char nl) s = true.
Proof.
  induction s as [|x s IH]; cbn; [reflexivity|].
  intros H. rewrite IH by tauto. rewrite andb_true_r.
  unfold not_char. destruct (ascii_eqb x nl) eqn:E; [|reflexivity].
  apply ascii_eqb_true in E. subst x. tauto.
Qed.

Lemma not_nl_decimal (n : Z) : forallb (not_char nl) (decimal n) = true.
Proof.
  destruct (decimal_shape n) as [d [ds [H [Hp Hn]]]].
  destruct (Z.le_gt_cases 0 n) as [L|L].
  - rewrite (Hp L). now apply not_nl_digits.
  - rewrite (Hn L). change ("-" :: d :: ds)%list with (["-"] ++ d :: ds).
    rewrite forallb_app. now rewrite (not_nl_digits _ H).
Qed.

Lemma not_nl_replacement (target : text) (limit : Z) :
  ~ In nl target ->
  forallb (not_char nl) (replacement target (decimal limit)) = true.
Proof.
  intros H. unfold replacement. rewrite !forallb_app.
  now rewrite (not_nl_free _ H), not_nl_decimal.
Qed.

Lemma replacement_is_invocation (target : text) (limit : Z) :
  invocation target (replacement target (decimal limit)).
Proof.
  unfold replacement.
  assert (forallb (not_char "}") (decimal limit) = true) as Hd.
  { destruct (decimal_shape limit) as [d [ds [H [Hp Hn]]]].
    assert (forallb (not_char "}") (d :: ds) = true) as Hds.
    { clear Hp Hn. induction (d :: ds) as [|x s IH]; cbn; [reflexivity|].
      cbn in H. apply andb_true_iff in H as [Hx Hs].
      rewrite (IH Hs), andb_true_r.
      unfold not_char. destruct (ascii_eqb x "}") eqn:E; [|reflexivity].
      apply ascii_eqb_true in E. subst x. discriminate Hx. }
    destruct (Z.le_gt_cases 0 limit) as [L|L].
    - now rewrite (Hp L).
    - rewrite (Hn L). change ("-" :: d :: ds)%list with (["-"] ++ d :: ds).
      rewrite forallb_app. now rewrite Hds. }
  exact (@inv_args target [] target [] (decimal limit) eq_refl eq_refl
           eq_refl Hd).
Qed.

Lemma has_target_of_occurrence (out target inv : text) :
  invocation target inv -> occurs inv out ->
  has_target_template out target = true.
Proof.
  intros I [pre [post E]].
  destruct (target_pattern_head _ _ I) as [head [rest [Eh M]]].
  unfold has_target_template, search.
  pose proof (@search_from_finds true (target_pattern target) out 0 (length pre))
    as Hs.
  destruct (search_from true (target_pattern target) 0 out); [reflexivity|].
  exfalso. apply Hs; [|reflexivity].
  rewrite E, skipn_length_app, Eh, <- app_assoc.
  now apply match_at_complete.
Qed.

Lemma str_of_int_decimal (n : Z) (s : text) :
  str_of_int n = Some s -> s = decimal n.
Proof.
  unfold str_of_int.
  destruct (zlen (decimal (Z.abs n)) <=? int_max_str_digits)%Z; [|discriminate].
  intros E. now injection E.
Qed.

(** X7: in the replace branch, when the recorded spans do not overlap, the
    target name has no newline in it and the engine returns, the
    invocation written stands in the text returned, which therefore has
    the target: the text differs from the one given, and a second run does
    not replace again. *)
Theorem replace_branch_writes_the_target (txt : text) (sources : list text)
  (target : text) (default_limit : Z) (first : found) (rest : list found)
  (out : text) (changed : bool) (action : text) :
  sort_found (source_found txt sources) = first :: rest ->
  has_target_template txt target = false ->
  separated (first :: rest) = true ->
  ~ In nl target ->
  replace_templates txt sources target default_limit
  = Some (out, changed, action) ->
  exists custom_limit limit,
    extract_limit_from_template (group0 txt first) (f_source first)
    = Some custom_limit
    /\ str_of_int (applied_limit custom_limit default_limit) = Some limit
    /\ occurs (replacement target limit) out
    /\ has_target_template out target = true
    /\ out <> txt.
Proof.
  intros Hl Ht Hs Hnl E.
  apply replace_templates_cases in E
    as [[E _]|[[f [r [_ [E _]]]]
              |[f [r [custom_limit [limit [El [_ [Hc [Hp [Eout _]]]]]]]]]]];
    [rewrite Hl in E; discriminate E|congruence|].
  rewrite Hl in El. injection El as <- <-.
  exists custom_limit, limit. split; [exact Hc|]. split; [exact Hp|].
  pose proof (str_of_int_decimal _ _ Hp) as Ed.
  assert (out = collapse_newlines
                  (firstn (f_start first) txt ++ replacement target limit
                     ++ gaps txt (f_end first) rest)) as Eout'.
  { rewrite Eout.
    pose proof (found_chain _ _ _ Hl Hs) as [H1 [H2 H3]].
    assert (In first (sort_found (source_found txt sources))) as Hfirst
      by (rewrite Hl; now left).
    apply found_entries in Hfirst as [Hlt _].
    unfold replace_first. f_equal.
    rewrite slice_to_nat, slice_from_nat, app_assoc.
    rewrite remove_rest; [now rewrite <- app_assoc|exact H3|exact Hlt|].
    unfold zlen. rewrite length_group0 by (pose proof (chain_bounds _ _ _ H3); lia).
    rewrite length_app, length_firstn.
    pose proof (chain_bounds _ _ _ H3). lia. }
  assert (occurs (replacement target limit) out) as Hocc.
  { apply contains_occurs. rewrite Eout'. unfold collapse_newlines, sub.
    apply (sub_run_keeps nl [nl; nl] (replacement target limit)) with
      (n := length (firstn (f_start first) txt ++ replacement target limit
                      ++ gaps txt (f_end first) rest)).
    - rewrite Ed. now apply not_nl_replacement.
    - unfold replacement. discriminate.
    - lia.
    - apply contains_occurs. now exists (firstn (f_start first) txt),
        (gaps txt (f_end first) rest). }
  assert (has_target_template out target = true) as Hout.
  { apply (has_target_of_occurrence _ _ (replacement target limit));
      [rewrite Ed; apply replacement_is_invocation|exact Hocc]. }
  split; [exact Hocc|]. split; [exact Hout|].
  intros E. rewrite E in Hout. congruence.
Qed.

Lemma replace_branch_writes_the_target_witness :
  sort_found (source_found (T "{{CatDiffuse|150}} a {{Cat diffuse}} b")
                [T "CatDiffuse"; T "Cat diffuse"])
  = [Found (T "CatDiffuse") 0 18; Found (T "Cat diffuse") 21 36]
  /\ replace_templates (T "{{CatDiffuse|150}} a {{Cat diffuse}} b")
       [T "CatDiffuse"; T "Cat diffuse"] (T "Diffusion by condition") 200
     = Some (T "{{Diffusion by condition|150}} a  b", true,
             T "Replaced CatDiffuse with Diffusion by condition|150 and removed 1 duplicate(s)")
  /\ has_target_template (T "{{Diffusion by condition|150}} a  b")
       (T "Diffusion by condition") = true.
Proof.
  assert (sort_found (source_found (T "{{CatDiffuse|150}} a {{Cat diffuse}} b")
                        [T "CatDiffuse"; T "Cat diffuse"])
          = [Found (T "CatDiffuse") 0 18; Found (T "Cat diffuse") 21 36]) as H1
    by (vm_compute; reflexivity).
  assert (replace_templates (T "{{CatDiffuse|150}} a {{Cat diffuse}} b")
            [T "CatDiffuse"; T "Cat diffuse"] (T "Diffusion by condition") 200
          = Some (T "{{Diffusion by condition|150}} a  b", true,
                  T "Replaced CatDiffuse with Diffusion by condition|150 and removed 1 duplicate(s)"))
    as H5 by (vm_compute; reflexivity).
  assert (~ In nl (T "Diffusion by condition")) as H4.
  { intros H; cbn in H;
      repeat (destruct H as [H|H]; [discriminate H|]); exact H. }
  split; [exact H1|]. split; [exact H5|].
  destruct (replace_branch_writes_the_target
              (T "{{CatDiffuse|150}} a {{Cat diffuse}} b")
              [T "CatDiffuse"; T "Cat diffuse"]
              (T "Diffusion by condition") 200%Z _ _ _ _ _ H1 eq_refl
              eq_refl H4 H5) as [c [l [_ [_ [_ [H _]]]]]].
  exact H.
Defined.

(** ** The cleanup after an edit *)

(** X4: whenever the engine reports a change, the text returned has no run
    of three newlines, that is, no two blank lines in a row; and when the
    target was present, so that the source invocations were only removed,
    it has no run of two blanks either. *)
Theorem cleanup_after_an_edit (txt : text) (sources : list text)
  (target : text) (default_limit : Z) (out action : text) :
  replace_templates txt sources target default_limit = Some (out, true, action) ->
  contains [nl; nl; nl] out = false
  /\ (has_target_template txt target = true -> contains (T "  ") out = false).
Proof.
  intros H. split.
  - exact (cleanup_after_every_edit _ _ _ _ _ _ H).
  - exact (remove_branch_collapses_blanks _ _ _ _ _ _ H).
Qed.

Lemma cleanup_after_an_edit_witness :
  replace_templates
    (T "a" ++ [nl; nl] ++ T "{{CatDiffuse}}" ++ [nl; nl] ++ T "b")
    [T "CatDiffuse"] (T "Diffusion by condition") 200
  = Some (T "a" ++ [nl; nl] ++ T "{{Diffusion by condition|200}}" ++ [nl; nl]
            ++ T "b", true,
          T "Replaced CatDiffuse with Diffusion by condition|200")
  /\ contains [nl; nl; nl]
       (T "a" ++ [nl; nl] ++ T "{{Diffusion by condition|200}}" ++ [nl; nl]
          ++ T "b") = false.
Proof.
  assert (replace_templates
            (T "a" ++ [nl; nl] ++ T "{{CatDiffuse}}" ++ [nl; nl] ++ T "b")
            [T "CatDiffuse"] (T "Diffusion by condition") 200
          = Some (T "a" ++ [nl; nl] ++ T "{{Diffusion by condition|200}}"
                    ++ [nl; nl] ++ T "b", true,
                  T "Replaced CatDiffuse with Diffusion by condition|200")) as H
    by (vm_compute; reflexivity).
  split; [exact H|].
  exact (proj1 (cleanup_after_an_edit _ _ _ _ _ _ H)).
Defined.

(** ** The name normaliser *)

Lemma fold_char_lower (c : ascii) : fold_char (lower c) = fold_char c.
Proof. unfold fold_char. now rewrite lower_idem. Qed.

Lemma fold_char_clean (c : ascii) :
  fold_char c <> "_" /\ lower (fold_char c) = fold_char c.
Proof.
  unfold fold_char. destruct (ascii_eqb (lower c) "_") eqn:E.
  - split; [discriminate|reflexivity].
  - apply ascii_eqb_false in E. split; [exact E|apply lower_idem].
Qed.

Lemma dropwhile_space_lower (s : text) :
  dropwhile is_space (str_lower s) = str_lower (dropwhile is_space s).
Proof.
  unfold str_lower. induction s as [|c s IH]; cbn [map dropwhile]; [reflexivity|].
  rewrite lower_space. destruct (is_space c); [exact IH|reflexivity].
Qed.

Lemma strip_lower (s : text) : strip (str_lower s) = str_lower (strip s).
Proof.
  unfold strip, rstrip, lstrip. rewrite dropwhile_space_lower.
  unfold str_lower at 1. rewrite <- map_rev. fold (str_lower (rev (dropwhile is_space s))).
  rewrite dropwhile_space_lower. unfold str_lower. now rewrite map_rev.
Qed.

Lemma lower_is_colon (c : ascii) : ascii_eqb (lower c) ":" = ascii_eqb c ":".
Proof.
  destruct (ascii_eqb c ":") eqn:E.
  - apply ascii_eqb_true in E. now subst c.
  - apply ascii_eqb_false. intros H. apply lower_colon in H.
    apply ascii_eqb_false in E. contradiction.
Qed.

Lemma without_namespace_lower (s : text) :
  without_namespace (str_lower s) = str_lower (without_namespace s).
Proof.
  unfold without_namespace, mem_char, str_lower.
  assert (existsb (ascii_eqb ":") (map lower s) = existsb (ascii_eqb ":") s) as ->.
  { induction s as [|c s IH]; cbn [map existsb]; [reflexivity|].
    rewrite IH. f_equal.
    destruct (ascii_eqb ":" (lower c)) eqn:E1, (ascii_eqb ":" c) eqn:E2;
      try reflexivity.
    - apply ascii_eqb_true in E1. symmetry in E1. apply lower_colon in E1.
      subst c. now rewrite ascii_eqb_refl in E2.
    - apply ascii_eqb_true in E2. subst c. vm_compute in E1. discriminate E1. }
  destruct (existsb (ascii_eqb ":") s); [|reflexivity].
  induction s as [|c s IH]; cbn [map after_first]; [reflexivity|].
  rewrite lower_is_colon. destruct (ascii_eqb c ":"); [reflexivity|exact IH].
Qed.

Lemma without_namespace_prefix (ns name : text) :
  ~ In ":" ns -> without_namespace (ns ++ ":" :: name) = name.
Proof.
  intros H. unfold without_namespace.
  assert (mem_char ":" (ns ++ ":" :: name) = true) as ->.
  { unfold mem_char. rewrite existsb_app. cbn. apply orb_true_r. }
  induction ns as [|c ns IH]; cbn [app after_first]; [reflexivity|].
  destruct (ascii_eqb c ":") eqn:E.
  - apply ascii_eqb_true in E. subst c. exfalso. apply H. now left.
  - apply IH. intros Hin. apply H. now right.
Qed.

(** X9: what the normaliser of replace_templates.py returns has no capital
    letter and no underscore; letter case does not matter to it; and one
    namespace prefix, whatever it is, is dropped. *)
Theorem normalized_names (name : text) :
  Forall (fun c => c <> "_" /\ lower c = c) (normalize_template_name name)
  /\ normalize_template_name (str_lower name) = normalize_template_name name
  /\ (forall ns,
        ~ In ":" ns -> ~ In ":" name ->
        normalize_template_name (ns ++ ":" :: name) = normalize_template_name name).
Proof.
  split; [|split].
  - rewrite normalize_as_map. apply Forall_forall. intros c Hc.
    apply in_map_iff in Hc as [x [<- _]]. apply fold_char_clean.
  - rewrite !normalize_as_map, without_namespace_lower, strip_lower.
    unfold str_lower. rewrite map_map. apply map_ext. apply fold_char_lower.
  - intros ns Hns Hname. rewrite !normalize_as_map.
    rewrite (without_namespace_prefix _ _ Hns).
    unfold without_namespace. apply mem_char_false in Hname.
    now rewrite Hname.
Qed.

(** ** What counts as the target *)

Lemma target_pattern_sound (name s : text) :
  Matches true (target_pattern name) s -> target_head name s.
Proof.
  unfold target_pattern. cbn [seq escape]. intros H.
  split_match H. apply Matches_Lit_inv in M as [x1 [-> H1]].
  split_match H. apply Matches_Lit_inv in M as [x2 [-> H2]].
  split_match H. apply Matches_Star_inv in M.
  split_match H. apply Matches_lits_fold in M0.
  split_match H. apply Matches_Star_inv in M1.
  split_match H. apply Matches_Cls_inv in M2 as [c [-> Hc]].
  apply Matches_Eps_inv in H.
  apply lit_true_char, lower_open_brace in H1, H2. subst.
  eexists _, _, _, c. split; [|split; [exact M|split; [exact M0|split; [exact M1|]]]].
  - cbn [list_ascii_of_string app]. reflexivity.
  - apply orb_true_iff in Hc as [Hc|Hc]; apply is_char_true in Hc; auto.
Qed.

Lemma target_pattern_complete (name s : text) :
  target_head name s -> Matches true (target_pattern name) s.
Proof.
  intros [w1 [n [w2 [c [-> [H1 [Hn [H2 Hc]]]]]]]].
  unfold target_pattern. cbn [seq escape].
  change (T "{{" ++ w1 ++ n ++ w2 ++ [c])
    with (["{"] ++ ["{"] ++ w1 ++ n ++ w2 ++ [c]).
  replace [c] with ([c] ++ []) by apply app_nil_r.
  repeat (constructor; try apply Matches_char); try assumption.
  - now apply Matches_lits_fold.
  - destruct Hc as [->| ->]; reflexivity.
Qed.

(** X8: the target counts as present exactly when the text shows the
    opening of an invocation of it: the braces, the name in any letter
    case with blanks around it, and then a ["|"] or a single ["}"]; the
    invocation need not be closed. *)
Theorem target_detection_exact (txt target : text) :
  (has_target_template txt target = true
   <-> exists head, target_head target head /\ occurs head txt)
  /\ (forall pre post,
        has_target_template (pre ++ T "{{" ++ target ++ T "|" ++ post) target
        = true).
Proof.
  assert (forall t, (exists head, target_head target head /\ occurs head t) ->
                    has_target_template t target = true) as Hback.
  { intros t [head [Hh [pre [post E]]]].
    unfold has_target_template, search.
    pose proof (@search_from_finds true (target_pattern target) t 0 (length pre))
      as Hs.
    destruct (search_from true (target_pattern target) 0 t); [reflexivity|].
    exfalso. apply Hs; [|reflexivity].
    rewrite E, skipn_length_app.
    now apply match_at_complete, target_pattern_complete. }
  split; [split; [|apply Hback]|].
  - unfold has_target_template, search.
    destruct (search_from true (target_pattern target) 0 txt)
      as [[[a b] caps]|] eqn:E; [|discriminate].
    intros _. apply search_from_found in E as [_ E].
    apply match_at_sound in E as [s1 [s2 [E [_ M]]]].
    exists s1. split; [now apply target_pattern_sound|].
    exists (firstn (a - 0) txt), s2.
    now rewrite <- E, firstn_skipn.
  - intros pre post. apply Hback. exists (T "{{" ++ target ++ T "|").
    split.
    + exists [], target, [], "|"%char. repeat split; auto.
    + exists pre, post. now rewrite <- !app_assoc.
Qed.

(** ** The limit that is written *)

(** X10: a limit read from the page is never negative, and whenever one
    is read without an error the limit that the replace branch writes is
    the default or a positive number read from the page. *)
Theorem limit_written_is_default_or_positive (txt name : text)
  (default_limit : Z) :
  (forall n, extract_limit_from_template txt name = Some (Some n) -> (0 <= n)%Z)
  /\ (forall custom_limit,
        extract_limit_from_template txt name = Some custom_limit ->
        applied_limit custom_limit default_limit = default_limit
        \/ (0 < applied_limit custom_limit default_limit)%Z).
Proof.
  split; [intros n; apply extract_limit_nonneg|].
  intros [n|] E; [|now left].
  apply extract_limit_nonneg in E. unfold applied_limit.
  destruct (n =? 0)%Z eqn:E0; [now left|right].
  apply Z.eqb_neq in E0. lia.
Qed.

(** * The functions around the rewrite engine *)

(** ** The summary of an edit *)

Section TemplatePages.

Import TemplateRun.

Lemma limit_pattern_head (x : ascii) (s : text) :
  x <> "|" -> match_at false limit_pattern (x :: s) = None.
Proof.
  intros H. unfold match_at, limit_pattern. cbn.
  destruct (ascii_eqb x "|") eqn:E; [|reflexivity].
  apply ascii_eqb_true in E. contradiction.
Qed.

Lemma limit_pattern_no_digit (x : ascii) (s : text) :
  is_digit x = false -> match_at false limit_pattern ("|" :: x :: s) = None.
Proof. intros H. unfold match_at, limit_pattern. cbn. now rewrite H. Qed.

Lemma limit_pattern_digits (d : ascii) (ds rest : text) :
  forallb is_digit (d :: ds) = true -> stops is_digit rest ->
  match_at false limit_pattern ("|" :: (d :: ds) ++ rest)
  = Some (S (length (d :: ds)), [d :: ds]).
Proof.
  intros H Hs. unfold match_at, limit_pattern. cbn [seq].
  rewrite run_lit_seq by reflexivity.
  apply run_group_plus; [exact H|exact Hs|].
  cbn [run app]. f_equal. f_equal.
  cbn [length]. rewrite length_app. cbn [length]. lia.
Qed.

Lemma search_step (x : ascii) (s : text) (pos : nat) :
  match_at false limit_pattern (x :: s) = None ->
  search_from false limit_pattern pos (x :: s)
  = search_from false limit_pattern (S pos) s.
Proof. cbn [search_from]. now intros ->. Qed.

Lemma search_no_pipe (s : text) :
  forall pos, ~ In "|" s -> search_from false limit_pattern pos s = None.
Proof.
  induction s as [|x s IH]; intros pos H; cbn [search_from].
  - reflexivity.
  - rewrite limit_pattern_head by (intros ->; apply H; now left).
    apply IH. intros Hin. apply H. now right.
Qed.

Lemma search_after_prefix (pre s : text) :
  forall pos,
    ~ In "|" pre ->
    search_from false limit_pattern pos (pre ++ s)
    = search_from false limit_pattern (pos + length pre) s.
Proof.
  induction pre as [|x pre IH]; intros pos H; cbn [app length].
  - now rewrite Nat.add_0_r.
  - cbn [search_from].
    rewrite limit_pattern_head by (intros ->; apply H; now left).
    rewrite IH by (intros Hin; apply H; now right).
    f_equal. lia.
Qed.

Lemma action_tail (n_found : nat) :
  let tail := if (1 <? n_found)%nat
              then T " and removed " ++ decimal (Z.of_nat (n_found - 1))
                     ++ T " duplicate(s)"
              else [] in
  stops is_digit tail /\ ~ In "|" tail.
Proof.
  destruct (1 <? n_found)%nat; cbn zeta; [|cbn; tauto].
  split; [reflexivity|].
  intros H. cbn [list_ascii_of_string app In] in H.
  repeat (destruct H as [H|H]; [discriminate H|]).
  apply in_app_or in H as [H|H]; [now apply decimal_no_pipe in H|].
  cbn in H. repeat (destruct H as [H|H]; [discriminate H|]). exact H.
Qed.

Lemma action_limit (src target : text) (limit default_limit : Z) (n_found : nat)
  (digits : text) :
  ~ In "|" src -> ~ In "|" target ->
  ((limit < 0)%Z -> limit = default_limit) ->
  str_of_int limit = Some digits ->
  match search false limit_pattern (replaced_action src target digits n_found) with
  | Some (_, _, caps) => Some (EDIT_SUMMARY (nth 0 caps []))
  | None =>
      match str_of_int default_limit with
      | None => None
      | Some digits => Some (EDIT_SUMMARY digits)
      end
  end = Some (EDIT_SUMMARY digits).
Proof.
  intros Hs Ht Hneg Hd. pose proof (str_of_int_decimal _ _ Hd) as ->.
  unfold replaced_action, search.
  pose proof (action_tail n_found) as [Tl1 Tl2]. cbv zeta in Tl1, Tl2.
  set (tail := if (1 <? n_found)%nat
               then T " and removed " ++ decimal (Z.of_nat (n_found - 1))
                      ++ T " duplicate(s)"
               else []) in *.
  assert (~ In "|" (T "Replaced " ++ src ++ T " with " ++ target)) as Hp.
  { intros H. apply in_app_or in H as [H|H];
      [cbn in H; repeat (destruct H as [H|H]; [discriminate H|]); exact H|].
    apply in_app_or in H as [H|H]; [now apply Hs|].
    apply in_app_or in H as [H|H]; [|now apply Ht].
    cbn in H. repeat (destruct H as [H|H]; [discriminate H|]). exact H. }
  replace (T "Replaced " ++ src ++ T " with " ++ target ++ T "|"
             ++ decimal limit ++ tail)
    with ((T "Replaced " ++ src ++ T " with " ++ target)
            ++ "|" :: decimal limit ++ tail)
    by (now rewrite <- !app_assoc).
  rewrite search_after_prefix by exact Hp.
  destruct (decimal_shape limit) as [d [ds [H [Hpos Hnegs]]]].
  destruct (Z.le_gt_cases 0 limit) as [L|L].
  - rewrite (Hpos L).
    erewrite search_from_first by (now apply limit_pattern_digits).
    reflexivity.
  - rewrite (Hnegs L). cbn [app].
    rewrite search_step by (now apply limit_pattern_no_digit).
    rewrite search_no_pipe.
    + rewrite <- (Hneg L), Hd. now rewrite (Hnegs L).
    + intros [Hin|Hin]; [discriminate Hin|].
      change (In "|" ((d :: ds) ++ tail)) in Hin.
      apply in_app_or in Hin as [Hin|Hin]; [|now apply Tl2].
      now apply (digits_no_pipe _ H).
Qed.

(** X11: when the engine returns, the summary of a replacement names the
    limit that was written into the page, read back from the action text,
    when no source name and not the target contains a ["|"]; the summary
    of a removal is the fixed one.  An action that contains the words
    [Removed redundant], through a name, gets the summary of a removal. *)
Theorem summary_names_the_limit_written (txt : text) (sources : list text)
  (target : text) (default_limit : Z) (first : found) (rest : list found)
  (out : text) (changed : bool) (action : text) :
  sort_found (source_found txt sources) = first :: rest ->
  Forall (fun s => ~ In "|" s) sources ->
  ~ In "|" target ->
  replace_templates txt sources target default_limit
  = Some (out, changed, action) ->
  (has_target_template txt target = true ->
   summary_of action default_limit = Some EDIT_SUMMARY_REMOVED_REDUNDANT)
  /\ (has_target_template txt target = false ->
      exists custom_limit limit,
        extract_limit_from_template (group0 txt first) (f_source first)
        = Some custom_limit
        /\ str_of_int (applied_limit custom_limit default_limit) = Some limit
        /\ summary_of action default_limit
           = Some (if contains (T "Removed redundant") action
                   then EDIT_SUMMARY_REMOVED_REDUNDANT
                   else EDIT_SUMMARY limit)).
Proof.
  intros Hl Hsrc Ht Hr.
  apply replace_templates_cases in Hr
    as [[E _]|[[f [r [E [Ht1 [_ [_ ->]]]]]]
              |[f [r [c [l [E [Ht0 [Ec [El [_ [_ ->]]]]]]]]]]]].
  - rewrite Hl in E. discriminate E.
  - split; [intros _; reflexivity|]. intros H0. rewrite H0 in Ht1.
    discriminate Ht1.
  - split; [intros H1; rewrite H1 in Ht0; discriminate Ht0|]. intros _.
    rewrite Hl in E. injection E as <- <-.
    exists c, l. split; [exact Ec|]. split; [exact El|].
    unfold summary_of.
    destruct (contains (T "Removed redundant")
                (replaced_action (f_source first) target l
                   (length (first :: rest)))); [reflexivity|].
    apply (action_limit _ _ (applied_limit c default_limit));
      [|exact Ht| |exact El].
    + assert (In first (sort_found (source_found txt sources))) as Hin
        by (rewrite Hl; now left).
      apply found_entries in Hin as [_ [_ [Hin _]]].
      rewrite Forall_forall in Hsrc. now apply Hsrc.
    + apply applied_limit_negative. intros n ->.
      now apply extract_limit_nonneg in Ec.
Qed.

Lemma summary_names_the_limit_written_witness :
  sort_found (source_found (T "{{CatDiffuse|150}} a {{Cat diffuse}} b")
                [T "CatDiffuse"; T "Cat diffuse"])
  = [Found (T "CatDiffuse") 0 18; Found (T "Cat diffuse") 21 36]
  /\ replace_templates (T "{{CatDiffuse|150}} a {{Cat diffuse}} b")
       [T "CatDiffuse"; T "Cat diffuse"] (T "Diffusion by condition") 200
     = Some (T "{{Diffusion by condition|150}} a  b", true,
             T "Replaced CatDiffuse with Diffusion by condition|150 and removed 1 duplicate(s)")
  /\ exists custom_limit limit,
       extract_limit_from_template
         (group0 (T "{{CatDiffuse|150}} a {{Cat diffuse}} b")
            (Found (T "CatDiffuse") 0 18)) (T "CatDiffuse")
       = Some custom_limit
       /\ str_of_int (applied_limit custom_limit 200) = Some limit
       /\ summary_of
            (T "Replaced CatDiffuse with Diffusion by condition|150 and removed 1 duplicate(s)")
            200
          = Some (if contains (T "Removed redundant")
                       (T "Replaced CatDiffuse with Diffusion by condition|150 and removed 1 duplicate(s)")
                  then EDIT_SUMMARY_REMOVED_REDUNDANT
                  else EDIT_SUMMARY limit).
Proof.
  assert (sort_found (source_found (T "{{CatDiffuse|150}} a {{Cat diffuse}} b")
                        [T "CatDiffuse"; T "Cat diffuse"])
          = [Found (T "CatDiffuse") 0 18; Found (T "Cat diffuse") 21 36]) as H1
    by (vm_compute; reflexivity).
  assert (Forall (fun s => ~ In "|" s) [T "CatDiffuse"; T "Cat diffuse"]) as H2.
  { repeat constructor; intros H; cbn in H;
      repeat (destruct H as [H|H]; [discriminate H|]); exact H. }
  assert (~ In "|" (T "Diffusion by condition")) as H3.
  { intros H; cbn in H;
      repeat (destruct H as [H|H]; [discriminate H|]); exact H. }
  assert (replace_templates (T "{{CatDiffuse|150}} a {{Cat diffuse}} b")
            [T "CatDiffuse"; T "Cat diffuse"] (T "Diffusion by condition") 200
          = Some (T "{{Diffusion by condition|150}} a  b", true,
                  T "Replaced CatDiffuse with Diffusion by condition|150 and removed 1 duplicate(s)"))
    as H4 by (vm_compute; reflexivity).
  split; [exact H1|]. split; [exact H4|].
  exact (proj2 (summary_names_the_limit_written
                  (T "{{CatDiffuse|150}} a {{Cat diffuse}} b")
                  [T "CatDiffuse"; T "Cat diffuse"] (T "Diffusion by condition")
                  200%Z _ _ _ _ _ H1 H2 H3 H4) eq_refl).
Defined.

(** ** [process_category] and the loop of [main] *)

Import Site.

Lemma process_cases (pg : page) (sources : list text) (target : text)
  (default_limit : Z) (dry_run : bool) :
  (exists e, get pg = Err e
             /\ process_category pg sources target default_limit dry_run
                = (false, []))
  \/ (exists txt,
        get pg = Ok txt
        /\ replace_templates txt sources target default_limit = None
        /\ process_category pg sources target default_limit dry_run
           = (false, []))
  \/ (exists txt new action,
        get pg = Ok txt
        /\ replace_templates txt sources target default_limit
           = Some (new, false, action)
        /\ process_category pg sources target default_limit dry_run = (true, []))
  \/ (exists txt new action,
        get pg = Ok txt
        /\ replace_templates txt sources target default_limit
           = Some (new, true, action)
        /\ ((dry_run = true
             /\ process_category pg sources target default_limit dry_run
                = (true, []))
            \/ (dry_run = false
                /\ summary_of action default_limit = None
                /\ process_category pg sources target default_limit dry_run
                   = (false, []))
            \/ (exists summary,
                  dry_run = false
                  /\ summary_of action default_limit = Some summary
                  /\ (exists e, save pg new summary = Err e)
                  /\ process_category pg sources target default_limit dry_run
                     = (false, []))
            \/ (exists summary,
                  dry_run = false
                  /\ summary_of action default_limit = Some summary
                  /\ save pg new summary = Ok tt
                  /\ process_category pg sources target default_limit dry_run
                     = (true, [Edit (title pg) new summary])))).
Proof.
  unfold process_category.
  destruct (get pg) as [txt|e] eqn:G; [|left; now exists e].
  right.
  destruct (replace_templates txt sources target default_limit)
    as [[[new changed] action]|] eqn:R; [|left; now exists txt].
  right.
  destruct changed; cbn [negb].
  - right. exists txt, new, action. split; [reflexivity|]. split; [exact R|].
    destruct dry_run; [left; now split|right].
    destruct (summary_of action default_limit) as [summary|] eqn:Su;
      [right|left; now repeat split].
    destruct (save pg new summary) as [u|e] eqn:S.
    + right. destruct u. exists summary. now repeat split.
    + left. exists summary. repeat split; [now exists e].
  - left. exists txt, new, action. now repeat split.
Qed.

Lemma process_edit_shape (pg : page) (sources : list text) (target : text)
  (default_limit : Z) (dry_run : bool) (e : edit) :
  In e (snd (process_category pg sources target default_limit dry_run)) ->
  dry_run = false
  /\ process_category pg sources target default_limit dry_run = (true, [e])
  /\ e_title e = title pg
  /\ exists txt action,
       get pg = Ok txt
       /\ replace_templates txt sources target default_limit
          = Some (e_text e, true, action)
       /\ summary_of action default_limit = Some (e_summary e)
       /\ save pg (e_text e) (e_summary e) = Ok tt.
Proof.
  intros He.
  destruct (process_cases pg sources target default_limit dry_run)
    as [[x [_ E]]
       |[[txt [_ [_ E]]]
        |[[txt [new [action [_ [_ E]]]]]
         |[txt [new [action [G [R [[_ E]
                                  |[[_ [_ E]]
                                   |[[su [_ [_ [_ E]]]]
                                    |[su [D [Su [S E]]]]]]]]]]]]]]];
    rewrite E in He |- *; cbn [snd In] in He; try contradiction.
  destruct He as [<-|[]]. cbn [e_title e_summary e_text].
  repeat split; [exact D|]. exists txt, action. auto.
Qed.

(** X12: [process_category] saves at most once, and only a text for which
    the engine reports a change, with that text and the summary of its
    action; a dry run saves nothing; a page without an invocation of a
    source name is left alone and counts as a success; a page that can be
    read gives, in a dry run, [True] when the engine returns and [False]
    when it raises; a page that cannot be read, an engine that raises, a
    summary that cannot be printed, or a save that is refused, gives
    [False]. *)
Theorem process_category_saves_the_engine_text (pg : page)
  (sources : list text) (target : text) (default_limit : Z) (dry_run : bool) :
  let r := process_category pg sources target default_limit dry_run in
  (dry_run = true -> snd r = [])
  /\ (fst r = false -> snd r = [])
  /\ (forall e, In e (snd r) ->
        r = (true, [e])
        /\ e_title e = title pg
        /\ exists txt action,
             get pg = Ok txt
             /\ replace_templates txt sources target default_limit
                = Some (e_text e, true, action)
             /\ summary_of action default_limit = Some (e_summary e)
             /\ save pg (e_text e) (e_summary e) = Ok tt)
  /\ (forall txt, get pg = Ok txt -> no_source txt sources -> r = (true, []))
  /\ (forall txt,
        get pg = Ok txt -> dry_run = true ->
        r = (match replace_templates txt sources target default_limit with
             | Some _ => true
             | None => false
             end, []))
  /\ (forall e, get pg = Err e -> r = (false, []))
  /\ (forall txt,
        get pg = Ok txt ->
        replace_templates txt sources target default_limit = None ->
        r = (false, []))
  /\ (forall txt new action,
        get pg = Ok txt ->
        replace_templates txt sources target default_limit
        = Some (new, true, action) ->
        dry_run = false ->
        r = match summary_of action default_limit with
            | None => (false, [])
            | Some summary =>
                match save pg new summary with
                | Ok _ => (true, [Edit (title pg) new summary])
                | Err _ => (false, [])
                end
            end).
Proof.
  intros r. subst r.
  split; [|split; [|split; [|split; [|split; [|split; [|split]]]]]].
  - intros D.
    destruct (snd (process_category pg sources target default_limit dry_run))
      as [|e es] eqn:E; [reflexivity|].
    assert (In e (snd (process_category pg sources target default_limit dry_run)))
      as He by (rewrite E; now left).
    apply process_edit_shape in He as [D' _]. congruence.
  - intros F.
    destruct (snd (process_category pg sources target default_limit dry_run))
      as [|e es] eqn:E; [reflexivity|].
    assert (In e (snd (process_category pg sources target default_limit dry_run)))
      as He by (rewrite E; now left).
    apply process_edit_shape in He as [_ [E' _]]. rewrite E' in F. discriminate F.
  - intros e He. now apply process_edit_shape in He.
  - intros txt G N. apply no_source_iff in N.
    unfold process_category, replace_templates. now rewrite G, N.
  - intros txt G ->. unfold process_category. rewrite G.
    destruct (replace_templates txt sources target default_limit)
      as [[[new changed] action]|]; [|reflexivity]. now destruct changed.
  - intros e G. unfold process_category. now rewrite G.
  - intros txt G R. unfold process_category. now rewrite G, R.
  - intros txt new action G R ->. unfold process_category.
    rewrite G, R. cbn [negb]. reflexivity.
Qed.

Section TemplateLoop.

Variable limit : Z.
Variable sources : list text.
Variable target : text.
Variable default_limit : Z.
Variable dry_run : bool.

Lemma process_edits (pg : page) :
  length (snd (process_category pg sources target default_limit dry_run))
  <= (if fst (process_category pg sources target default_limit dry_run)
      then 1 else 0).
Proof.
  destruct (process_cases pg sources target default_limit dry_run)
    as [[x [_ E]]
       |[[txt [_ [_ E]]]
        |[[txt [new [action [_ [_ E]]]]]
         |[txt [new [action [G [R [[_ E]
                                  |[[_ [_ E]]
                                   |[[su [_ [_ [_ E]]]]
                                    |[su [D [Su [S E]]]]]]]]]]]]]]];
    rewrite E; cbn; lia.
Qed.

Lemma template_loop_of_list (pages : list page) :
  forall (processed updated : Z) (edits : list edit),
    (0 <= updated <= processed)%Z ->
    (Z.of_nat (length edits) <= updated)%Z ->
    exists p u es,
      loop limit (of_list pages) sources target default_limit dry_run
        processed updated edits = Some (p, u, es)
      /\ p = (if (limit >? 0)%Z
              then Z.max processed (Z.min limit (processed + Z.of_nat (length pages)))
              else processed + Z.of_nat (length pages))%Z
      /\ (0 <= u <= p)%Z
      /\ (Z.of_nat (length es) <= u)%Z
      /\ (dry_run = true -> es = edits)
      /\ (dry_run = true ->
          (forall pg, In pg pages ->
             exists txt,
               get pg = Ok txt
               /\ replace_templates txt sources target default_limit <> None) ->
          (u - updated = p - processed)%Z).
Proof.
  induction pages as [|pg pages IH]; intros processed updated edits Hu He;
    cbn [of_list loop].
  - exists processed, updated, edits. split; [reflexivity|].
    cbn [length]. destruct (limit >? 0)%Z; repeat split; auto; lia.
  - destruct ((limit >? 0)%Z && (processed >=? limit)%Z) eqn:B.
    + apply andb_true_iff in B as [B1 B2]. rewrite B1.
      exists processed, updated, edits. split; [reflexivity|].
      repeat split; auto; lia.
    + pose proof (process_edits pg) as L.
      assert (dry_run = true ->
              snd (process_category pg sources target default_limit dry_run) = [])
        as Hd.
      { intros D.
        destruct (snd (process_category pg sources target default_limit dry_run))
          as [|e es] eqn:E; [reflexivity|].
        assert (In e (snd (process_category pg sources target default_limit
                             dry_run))) as Hin by (rewrite E; now left).
        apply process_edit_shape in Hin as [D' _]. congruence. }
      assert (dry_run = true ->
              (exists txt,
                  get pg = Ok txt
                  /\ replace_templates txt sources target default_limit <> None) ->
              fst (process_category pg sources target default_limit dry_run)
              = true) as Hf.
      { intros D [txt [G R]]. unfold process_category. rewrite G, D.
        destruct (replace_templates txt sources target default_limit)
          as [[[new changed] action]|]; [|contradiction]. now destruct changed. }
      destruct (process_category pg sources target default_limit dry_run)
        as [success es0]. cbn [fst snd] in L, Hd, Hf.
      destruct (IH (processed + 1)%Z
                  (if success then (updated + 1)%Z else updated) (edits ++ es0))
        as [p [u [es [E [Hp [Hu' [He' [Hdry Hall]]]]]]]].
      { destruct success; lia. }
      { rewrite length_app. destruct success; lia. }
      exists p, u, es. split; [exact E|]. rewrite length_cons.
      split; [|split; [lia|split; [exact He'|split]]].
      * rewrite Hp. destruct (limit >? 0)%Z eqn:B1; [|lia].
        cbn [andb] in B. lia.
      * intros D. rewrite (Hdry D), (Hd D). apply app_nil_r.
      * intros D Hread.
        rewrite (Hf D (Hread pg (or_introl eq_refl))) in Hall.
        specialize (Hall D (fun pg' H => Hread pg' (or_intror H))). lia.
Qed.

Lemma template_loop_raise (pages : list page) :
  forall (processed updated : Z) (edits : list edit),
    ((limit <= 0)%Z \/ (processed + Z.of_nat (length pages) <= limit)%Z) ->
    loop limit (then_raise pages) sources target default_limit dry_run
      processed updated edits = None.
Proof.
  induction pages as [|pg pages IH]; intros processed updated edits H;
    cbn [then_raise loop]; [reflexivity|].
  rewrite length_cons in H.
  assert ((limit >? 0)%Z && (processed >=? limit)%Z = false) as ->.
  { apply andb_false_iff. destruct H as [H|H]; [left|right]; lia. }
  destruct (process_category pg sources target default_limit dry_run)
    as [success es0].
  apply IH. lia.
Qed.

End TemplateLoop.

(** X13: over a generator that yields [pages], the loop of [main] processes
    all of them, or [limit] of them when the limit is positive; it counts
    as updated at most the pages processed and at least the pages saved;
    in a dry run it saves nothing, and counts every page as updated,
    changed or not, when each can be read and the engine returns on its
    text.  An exception of the generator, unless the limit stops the loop
    first, ends the run without its summary. *)
Theorem pages_counted_up_to_the_limit (limit : Z) (pages : list page)
  (sources : list text) (target : text) (default_limit : Z) (dry_run : bool) :
  (exists p u es,
      loop limit (of_list pages) sources target default_limit dry_run 0 0 []
      = Some (p, u, es)
      /\ p = (if (limit >? 0)%Z then Z.min limit (Z.of_nat (length pages))
              else Z.of_nat (length pages))
      /\ (Z.of_nat (length es) <= u <= p)%Z
      /\ (dry_run = true -> es = [])
      /\ (dry_run = true ->
          (forall pg, In pg pages ->
             exists txt,
               get pg = Ok txt
               /\ replace_templates txt sources target default_limit <> None) ->
          u = p))
  /\ ((limit <= 0)%Z \/ (Z.of_nat (length pages) <= limit)%Z ->
      loop limit (then_raise pages) sources target default_limit dry_run 0 0 []
      = None).
Proof.
  split.
  - destruct (template_loop_of_list limit sources target default_limit dry_run
                pages 0 0 [] ltac:(lia) ltac:(cbn; lia))
      as [p [u [es [E [Hp [Hu [He [Hd Hall]]]]]]]].
    exists p, u, es. split; [exact E|].
    split; [|split; [lia|split; [exact Hd|]]].
    + rewrite Hp. destruct (limit >? 0)%Z eqn:B; lia.
    + intros D Hread. specialize (Hall D Hread). lia.
  - intros H. apply template_loop_raise. lia.
Qed.

End TemplatePages.

(** ** The template names of the command line *)

Lemma split_not_empty (a : ascii) (s : text) : TemplateRun.split a s <> [].
Proof.
  induction s as [|c s IH]; cbn [TemplateRun.split]; [discriminate|].
  destruct (ascii_eqb c a); [discriminate|].
  destruct (TemplateRun.split a s); discriminate.
Qed.

Lemma split_pieces (a : ascii) (s : text) :
  Forall (fun piece => ~ In a piece) (TemplateRun.split a s).
Proof.
  induction s as [|c s IH]; cbn [TemplateRun.split].
  - repeat constructor. tauto.
  - destruct (ascii_eqb c a) eqn:E.
    + constructor; [tauto|exact IH].
    + apply ascii_eqb_false in E.
      destruct (TemplateRun.split a s) as [|piece pieces].
      * repeat constructor. intros [H|[]]. now apply E.
      * inversion IH; subst. constructor; [|assumption].
        intros [H|H]; [now apply E|contradiction].
Qed.

Lemma split_trailing (a : ascii) (s : text) :
  TemplateRun.split a (s ++ [a]) = TemplateRun.split a s ++ [[]].
Proof.
  induction s as [|c s IH]; cbn [app TemplateRun.split].
  - now rewrite ascii_eqb_refl.
  - destruct (ascii_eqb c a); [now rewrite IH|].
    rewrite IH. pose proof (split_not_empty a s) as H.
    destruct (TemplateRun.split a s); [contradiction|reflexivity].
Qed.

Lemma map_strip_filter (l : list text) :
  map strip (filter (fun t => negb (Nat.eqb (length (strip t)) 0)) l)
  = filter (fun n => negb (Nat.eqb (length n) 0)) (map strip l).
Proof.
  induction l as [|t l IH]; cbn [filter map]; [reflexivity|].
  destruct (negb (Nat.eqb (length (strip t)) 0)); cbn [map]; now rewrite IH.
Qed.

(** X14: the names that [main] reads from [--templates] are stripped and
    free of commas, and there is at least one; replace_catdiffuse.py drops
    the empty ones, replace_templates.py keeps them, so that a comma at
    the end gives it an empty source name; and the empty name is found in
    every text that has a pair of braces with nothing but blanks inside. *)
Theorem template_names_of_the_command_line (templates : text) :
  let names := TemplateRun.source_templates_of templates in
  names <> []
  /\ Forall (fun n => strip n = n /\ ~ In "," n) names
  /\ CatdiffuseRun.source_templates_of templates
     = filter (fun n => negb (Nat.eqb (length n) 0)) names
  /\ Forall (fun n => n <> [] /\ strip n = n /\ ~ In "," n)
       (CatdiffuseRun.source_templates_of templates)
  /\ In [] (TemplateRun.source_templates_of (templates ++ T ","))
  /\ (forall pre w post,
        blank w ->
        source_found (pre ++ T "{{" ++ w ++ T "}}" ++ post) [[]] <> []).
Proof.
  intros names. subst names. unfold TemplateRun.source_templates_of.
  assert (Forall (fun n => strip n = n /\ ~ In "," n)
            (map strip (TemplateRun.split "," templates))) as Hall.
  { apply Forall_forall. intros n Hn. apply in_map_iff in Hn as [t [<- Ht]].
    split; [apply strip_idem|].
    pose proof (split_pieces "," templates) as H.
    rewrite Forall_forall in H. intros Hin. apply strip_In in Hin.
    now apply (H t Ht). }
  assert (CatdiffuseRun.source_templates_of templates
          = filter (fun n => negb (Nat.eqb (length n) 0))
              (map strip (TemplateRun.split "," templates))) as Hf
    by apply map_strip_filter.
  split; [|split; [exact Hall|split; [exact Hf|split; [|split]]]].
  - pose proof (split_not_empty "," templates) as H.
    destruct (TemplateRun.split "," templates); [contradiction|discriminate].
  - rewrite Hf. apply Forall_forall. intros n Hn.
    apply filter_In in Hn as [Hn Hlen].
    rewrite Forall_forall in Hall. split; [|now apply Hall].
    intros ->. discriminate Hlen.
  - change (T ",") with [","]. rewrite split_trailing, map_app.
    apply in_or_app. right. now left.
  - intros pre w post Hw H.
    assert (invocation [] (T "{{" ++ w ++ T "}}")) as I.
    { pose proof (@inv_bare [] w [] [] Hw eq_refl eq_refl) as I.
      now rewrite !app_nil_l in I. }
    destruct (invocation_is_covered
                (pre ++ (T "{{" ++ w ++ T "}}") ++ post) [] pre
                (T "{{" ++ w ++ T "}}") post eq_refl I) as [a [b [Hin _]]].
    assert (In (Found [] a b)
              (source_found (pre ++ (T "{{" ++ w ++ T "}}") ++ post) [[]]))
      as Hf' by (apply source_found_In; cbn; auto).
    rewrite <- !app_assoc in Hf'. rewrite H in Hf'. contradiction.
Qed.


(** * The functions around the tag remover *)

Section DiffusionPages.

Import Site.

(** ** Listings that fail *)

Lemma count_loop_then_raise (A : Type) (l : list A) (count threshold : Z) :
  (count <= threshold)%Z ->
  count_loop (then_raise l) count threshold
  = Z.min (count + Z.of_nat (length l)) (threshold + 1).
Proof.
  revert count; induction l as [|x l IH]; intros count H; cbn [then_raise count_loop].
  - cbn [length]. lia.
  - destruct (count + 1 >? threshold)%Z eqn:E.
    + rewrite length_cons. lia.
    + rewrite IH by lia. rewrite length_cons. lia.
Qed.

Lemma count_loop_opt_then_raise (A : Type) (l : list A) (count threshold : Z) :
  (count <= threshold)%Z ->
  ReplaceCatdiffuse.count_loop (then_raise l) count threshold
  = if (count + Z.of_nat (length l) <=? threshold)%Z then None
    else Some (threshold + 1)%Z.
Proof.
  revert count; induction l as [|x l IH]; intros count H;
    cbn [then_raise ReplaceCatdiffuse.count_loop].
  - cbn [length]. destruct (count + Z.of_nat 0 <=? threshold)%Z eqn:E;
      [reflexivity|]. apply Z.leb_gt in E. lia.
  - rewrite length_cons. destruct (count + 1 >? threshold)%Z eqn:E.
    + destruct (count + Z.of_nat (S (length l)) <=? threshold)%Z eqn:E';
        [apply Z.leb_le in E'; lia|]. f_equal. lia.
    + rewrite IH by lia.
      replace (count + 1 + Z.of_nat (length l))%Z
        with (count + Z.of_nat (S (length l)))%Z by lia.
      reflexivity.
Qed.

(** X15: a listing that fails after [l] files counts as a listing of [l]
    files in category_diffusion_bot.py, so a category whose listing fails
    within the first [threshold] files passes the test of [main]; the
    counter of replace_catdiffuse.py lets the exception through in that
    case. *)
Theorem failed_listing_counts_as_small (A : Type) (cat : category A)
  (threshold : Z) (l : list A) :
  (0 <= threshold)%Z ->
  cat (threshold + 1)%Z = then_raise l ->
  count_files_in_category cat threshold
  = Z.min (Z.of_nat (length l)) (threshold + 1)
  /\ (eligible (count_files_in_category cat threshold) threshold = true
      <-> (Z.of_nat (length l) <= threshold)%Z)
  /\ ReplaceCatdiffuse.count_files_in_category cat threshold
     = if (Z.of_nat (length l) <=? threshold)%Z then None
       else Some (threshold + 1)%Z.
Proof.
  intros H E.
  unfold count_files_in_category, ReplaceCatdiffuse.count_files_in_category,
    eligible.
  rewrite E, count_loop_then_raise, count_loop_opt_then_raise by exact H.
  split; [reflexivity|]. split; [|reflexivity].
  rewrite Z.leb_le. lia.
Qed.

Lemma failed_listing_counts_as_small_witness :
  (0 <= 200)%Z
  /\ count_files_in_category (fun _ : Z => @Raise unit) 200 = 0%Z.
Proof.
  split; [lia|].
  exact (proj1 (failed_listing_counts_as_small unit (fun _ => Raise) 200 []
                  ltac:(lia) eq_refl)).
Defined.

(** ** The tag remover with its page *)


Lemma removal_cases (pg : page) (parent : text) (dry_run : bool) (threshold : Z) :
  DiffusionRun.remove_category_from_parent pg parent dry_run threshold
  = (false, [])
  \/ (exists txt new,
        get pg = Ok txt
        /\ remove_category_from_parent txt parent = (new, true)
        /\ ((dry_run = true
             /\ DiffusionRun.remove_category_from_parent pg parent dry_run threshold
                = (true, []))
            \/ (exists summary,
                  dry_run = false
                  /\ DiffusionRun.EDIT_SUMMARY threshold = Some summary
                  /\ save pg new summary = Ok tt
                  /\ DiffusionRun.remove_category_from_parent pg parent dry_run
                       threshold
                     = (true, [Edit (title pg) new summary])))).
Proof.
  unfold DiffusionRun.remove_category_from_parent.
  destruct (get pg) as [txt|e] eqn:G; [|now left].
  destruct (remove_category_from_parent txt parent) as [new removed] eqn:R.
  destruct removed; cbn [negb]; [|now left].
  destruct dry_run.
  - right. exists txt, new. split; [reflexivity|]. split; [exact R|].
    left. split; reflexivity.
  - destruct (DiffusionRun.EDIT_SUMMARY threshold) as [summary|] eqn:Su;
      [|now left].
    destruct (save pg new summary) as [u|e] eqn:S; [|now left].
    right. exists txt, new. split; [reflexivity|]. split; [exact R|].
    right. destruct u. exists summary. now repeat split.
Qed.

Lemma removal_edit_shape (pg : page) (parent : text) (dry_run : bool)
  (threshold : Z) (e : edit) :
  In e (snd (DiffusionRun.remove_category_from_parent pg parent dry_run threshold)) ->
  dry_run = false
  /\ DiffusionRun.remove_category_from_parent pg parent dry_run threshold
     = (true, [e])
  /\ e_title e = title pg
  /\ DiffusionRun.EDIT_SUMMARY threshold = Some (e_summary e)
  /\ exists txt,
       get pg = Ok txt
       /\ remove_category_from_parent txt parent = (e_text e, true)
       /\ length (e_text e) < length txt
       /\ save pg (e_text e) (e_summary e) = Ok tt.
Proof.
  intros He.
  destruct (removal_cases pg parent dry_run threshold)
    as [E|[txt [new [G [R [[_ E]|[su [D [Su [S E]]]]]]]]]]; rewrite E in He |- *;
    cbn [snd In] in He; try contradiction.
  destruct He as [<-|[]]. cbn [e_title e_summary e_text].
  repeat split; [exact D|exact Su|]. exists txt. split; [exact G|].
  split; [exact R|]. split; [|exact S].
  pose proof (remove_tag_outcomes txt parent) as [_ [_ [L _]]].
  rewrite R in L. now apply L.
Qed.

(** X16: the tag remover saves at most once, and only the text without the
    tag, under the summary that names the threshold; a dry run saves
    nothing and returns [True] exactly when a tag would be removed; a page
    that cannot be read gives [False]; and with a tag to remove, outside a
    dry run, the page is saved once under that summary, while a threshold
    that cannot be printed, or a save that is refused, gives [False]. *)
Theorem removal_saves_only_the_tag_edit (pg : page) (parent : text)
  (dry_run : bool) (threshold : Z) :
  let r := DiffusionRun.remove_category_from_parent pg parent dry_run threshold in
  (dry_run = true -> snd r = [])
  /\ (fst r = false -> snd r = [])
  /\ (forall e, In e (snd r) ->
        r = (true, [e])
        /\ e_title e = title pg
        /\ DiffusionRun.EDIT_SUMMARY threshold = Some (e_summary e)
        /\ exists txt,
             get pg = Ok txt
             /\ remove_category_from_parent txt parent = (e_text e, true)
             /\ length (e_text e) < length txt
             /\ save pg (e_text e) (e_summary e) = Ok tt)
  /\ (fst (DiffusionRun.remove_category_from_parent pg parent true threshold) = true
      <-> exists txt,
            get pg = Ok txt
            /\ snd (remove_category_from_parent txt parent) = true)
  /\ (fst r = true ->
      fst (DiffusionRun.remove_category_from_parent pg parent true threshold) = true)
  /\ (forall e, get pg = Err e -> r = (false, []))
  /\ (forall txt new,
        get pg = Ok txt ->
        remove_category_from_parent txt parent = (new, true) ->
        dry_run = false ->
        r = match DiffusionRun.EDIT_SUMMARY threshold with
            | None => (false, [])
            | Some summary =>
                match save pg new summary with
                | Ok _ => (true, [Edit (title pg) new summary])
                | Err _ => (false, [])
                end
            end).
Proof.
  intros r. subst r.
  split; [|split; [|split; [|split; [|split; [|split]]]]].
  - intros ->.
    destruct (removal_cases pg parent true threshold)
      as [->|[txt [new [_ [_ [[_ ->]|[su [D _]]]]]]]]; try reflexivity.
    discriminate D.
  - destruct (removal_cases pg parent dry_run threshold)
      as [->|[txt [new [_ [_ [[_ ->]|[su [_ [_ [_ ->]]]]]]]]]]; try reflexivity.
    discriminate.
  - intros e He. now apply removal_edit_shape in He.
  - unfold DiffusionRun.remove_category_from_parent. split.
    + destruct (get pg) as [txt|e]; [|discriminate].
      destruct (remove_category_from_parent txt parent) as [new removed] eqn:R.
      destruct removed; [|discriminate]. intros _. exists txt.
      split; [reflexivity|]. now rewrite R.
    + intros [txt [-> R]].
      destruct (remove_category_from_parent txt parent) as [new removed].
      cbn [snd] in R. now rewrite R.
  - destruct (removal_cases pg parent dry_run threshold)
      as [->|[txt [new [G [R _]]]]]; [discriminate|].
    intros _. unfold DiffusionRun.remove_category_from_parent.
    now rewrite G, R.
  - intros e G. unfold DiffusionRun.remove_category_from_parent. now rewrite G.
  - intros txt new G R ->.
    unfold DiffusionRun.remove_category_from_parent.
    rewrite G, R. cbn [negb]. reflexivity.
Qed.

(** ** The loop of [main] in category_diffusion_bot.py *)

Section DiffusionLoop.

Import DiffusionRun.

Variable limit threshold : Z.
Variable dry_run : bool.
Variable parent : text.




Lemma loop_edits (subs : list subcategory) :
  forall (t : tally) (edits : list edit) (e : edit),
    In e (snd (loop limit threshold dry_run parent subs t edits)) ->
    In e edits
    \/ exists sc,
         In sc subs
         /\ (count_files_in_category (files sc) threshold <= threshold)%Z
         /\ In e (snd (remove_category_from_parent (page_of sc) parent dry_run
                         threshold)).
Proof.
  induction subs as [|sc subs IH]; intros t edits e; cbn [loop].
  - cbn. auto.
  - destruct (negb (limit =? 0)%Z && (processed t >=? limit)%Z); [cbn; auto|].
    unfold eligible.
    destruct (count_files_in_category (files sc) threshold <=? threshold)%Z eqn:C.
    + apply Z.leb_le in C.
      destruct (remove_category_from_parent (page_of sc) parent dry_run threshold)
        as [ok es] eqn:R.
      assert (In e (edits ++ es) ->
              In e edits
              \/ exists sc0,
                   In sc0 (sc :: subs)
                   /\ (count_files_in_category (files sc0) threshold <= threshold)%Z
                   /\ In e (snd (remove_category_from_parent (page_of sc0) parent
                                   dry_run threshold))) as Hhere.
      { intros H. apply in_app_or in H as [H|H]; [now left|].
        right. exists sc. split; [now left|]. split; [exact C|].
        now rewrite R. }
      destruct ok; intros H; apply IH in H as [H|[sc0 [H1 H2]]];
        try (now apply Hhere); right; exists sc0; (split; [now right|exact H2]).
    + intros H. apply IH in H as [H|[sc0 [H1 H2]]]; [now left|].
      right. exists sc0. split; [now right|exact H2].
Qed.

End DiffusionLoop.


(** X18: the loop saves nothing in a dry run, and every page it saves is
    the page of a subcategory whose count is at most the threshold, saved
    with the text that the tag remover returns for it. *)
Theorem only_small_categories_are_edited (limit threshold : Z)
  (dry_run : bool) (parent : text) (subs : list DiffusionRun.subcategory) :
  let r := DiffusionRun.loop limit threshold dry_run parent subs
             (DiffusionRun.Tally 0 0 0) [] in
  (dry_run = true -> snd r = [])
  /\ (forall e, In e (snd r) ->
        exists sc txt,
          In sc subs
          /\ (count_files_in_category (DiffusionRun.files sc) threshold
              <= threshold)%Z
          /\ e_title e = title (DiffusionRun.page_of sc)
          /\ get (DiffusionRun.page_of sc) = Ok txt
          /\ remove_category_from_parent txt parent = (e_text e, true)
          /\ DiffusionRun.EDIT_SUMMARY threshold = Some (e_summary e)).
Proof.
  intros r. subst r.
  assert (forall e,
             In e (snd (DiffusionRun.loop limit threshold dry_run parent subs
                          (DiffusionRun.Tally 0 0 0) [])) ->
             exists sc,
               In sc subs
               /\ (count_files_in_category (DiffusionRun.files sc) threshold
                   <= threshold)%Z
               /\ In e (snd (DiffusionRun.remove_category_from_parent
                               (DiffusionRun.page_of sc) parent dry_run threshold)))
    as H.
  { intros e He. apply loop_edits in He as [[]|He]. exact He. }
  split.
  - intros D.
    destruct (snd (DiffusionRun.loop limit threshold dry_run parent subs
                     (DiffusionRun.Tally 0 0 0) [])) as [|e es] eqn:E;
      [reflexivity|].
    destruct (H e (or_introl eq_refl)) as [sc [_ [_ He]]].
    apply removal_edit_shape in He as [D' _]. congruence.
  - intros e He. destruct (H e He) as [sc [Hsc [Hc Hin]]].
    apply removal_edit_shape in Hin as [_ [_ [Ht [Hsum [txt [G [R _]]]]]]].
    exists sc, txt. auto 7.
Qed.

Lemma loop_dry_run (limit threshold : Z) (parent : text)
  (subs : list DiffusionRun.subcategory) (t : DiffusionRun.tally) :
  snd (DiffusionRun.loop limit threshold true parent subs t []) = [].
Proof.
  destruct (snd (DiffusionRun.loop limit threshold true parent subs t []))
    as [|e es] eqn:E; [reflexivity|].
  assert (In e (snd (DiffusionRun.loop limit threshold true parent subs t [])))
    as He by (rewrite E; now left).
  apply loop_edits in He as [[]|[sc [_ [_ He]]]].
  apply removal_edit_shape in He as [D _]. discriminate D.
Qed.

Lemma get_subcategories_of_list (A : Type) (l : list A) :
  DiffusionRun.get_subcategories (of_list l) = l.
Proof. induction l as [|x l IH]; cbn; [reflexivity|now rewrite IH]. Qed.

Lemma get_subcategories_then_raise (A : Type) (l : list A) :
  DiffusionRun.get_subcategories (then_raise l) = l.
Proof. induction l as [|x l IH]; cbn; [reflexivity|now rewrite IH]. Qed.

(** X19: [main] works on the subcategories that were fetched before the
    listing ended or failed: a listing that fails after [l] is processed
    like the listing [l], a listing that fails at once like an empty one;
    and without [-live] nothing is saved. *)
Theorem main_runs_on_what_was_fetched (live : bool) (min limit : Z)
  (l : list DiffusionRun.subcategory) :
  DiffusionRun.main live min limit (then_raise l)
  = DiffusionRun.main live min limit (of_list l)
  /\ DiffusionRun.main live min limit (of_list l)
     = DiffusionRun.loop limit min (negb live) DiffusionRun.DIFFUSION_CATEGORY l
         (DiffusionRun.Tally 0 0 0) []
  /\ DiffusionRun.main live min limit Raise = (DiffusionRun.Tally 0 0 0, [])
  /\ (live = false -> snd (DiffusionRun.main live min limit (of_list l)) = []).
Proof.
  assert (DiffusionRun.main live min limit (of_list l)
          = DiffusionRun.loop limit min (negb live) DiffusionRun.DIFFUSION_CATEGORY
              l (DiffusionRun.Tally 0 0 0) []) as E.
  { unfold DiffusionRun.main. rewrite get_subcategories_of_list.
    destruct l; reflexivity. }
  split; [|split; [exact E|split; [reflexivity|]]].
  - unfold DiffusionRun.main.
    now rewrite get_subcategories_of_list, get_subcategories_then_raise.
  - intros ->. rewrite E. apply loop_dry_run.
Qed.

End DiffusionPages.

(** * Further properties of the parse-tree engine *)

(** ** Template names in replace_catdiffuse.py *)

Section ParseTreeMore.

Import ReplaceCatdiffuse.

Lemma is_threshold_by_name (p : param) (name : text) :
  strip (p_name p) = strip name ->
  is_threshold p = text_eqb (str_lower (strip name)) (T "threshold").
Proof. unfold is_threshold. now intros ->. Qed.

Lemma add_named_present (ps : list param) (name value : text) :
  text_eqb (str_lower (strip name)) (T "threshold") = true ->
  existsb is_threshold (add ps name value) = true.
Proof.
  intros Hn. induction ps as [|p ps IH]; cbn [add existsb].
  - rewrite (is_threshold_by_name (Param name value) name eq_refl), Hn.
    reflexivity.
  - destruct (text_eqb (strip (p_name p)) (strip name)) eqn:E; cbn [existsb].
    + apply text_eqb_true in E.
      rewrite (is_threshold_by_name (Param (p_name p) value) name E), Hn.
      reflexivity.
    + rewrite IH. apply orb_true_r.
Qed.

Lemma add_named_absent (ps : list param) (name value : text) :
  text_eqb (str_lower (strip name)) (T "threshold") = true ->
  existsb is_threshold ps = false ->
  add ps name value = ps ++ [Param name value].
Proof.
  intros Hn. induction ps as [|p ps IH]; cbn [add existsb app]; [reflexivity|].
  intros H. apply orb_false_iff in H as [Hp Hps].
  destruct (text_eqb (strip (p_name p)) (strip name)) eqn:E.
  - apply text_eqb_true in E.
    rewrite (is_threshold_by_name p name E), Hn in Hp. discriminate Hp.
  - now rewrite IH.
Qed.

Lemma add_no_threshold (acc : list ReplaceCatdiffuse.param) (name value : text) :
  ReplaceCatdiffuse.is_threshold (ReplaceCatdiffuse.Param name value) = false ->
  existsb ReplaceCatdiffuse.is_threshold acc = false ->
  existsb ReplaceCatdiffuse.is_threshold (ReplaceCatdiffuse.add acc name value)
  = false.
Proof.
  intros Hn. induction acc as [|q acc IH];
    cbn [ReplaceCatdiffuse.add existsb]; intros Hacc.
  - now rewrite Hn.
  - apply orb_false_iff in Hacc as [Hq Hacc].
    destruct (text_eqb (strip (ReplaceCatdiffuse.p_name q)) (strip name));
      cbn [existsb].
    + rewrite Hacc, orb_false_r. exact Hq.
    + now rewrite Hq, IH.
Qed.

Lemma copied_params_no_threshold (ps acc : list ReplaceCatdiffuse.param) :
  existsb ReplaceCatdiffuse.is_threshold ps = false ->
  existsb ReplaceCatdiffuse.is_threshold acc = false ->
  existsb ReplaceCatdiffuse.is_threshold
    (fold_left (fun a p => ReplaceCatdiffuse.add a (ReplaceCatdiffuse.p_name p)
                             (ReplaceCatdiffuse.p_value p)) ps acc) = false.
Proof.
  revert acc. induction ps as [|p ps IH]; intros acc Hps Hacc;
    cbn [fold_left]; [exact Hacc|].
  cbn [existsb] in Hps. apply orb_false_iff in Hps as [Hp Hps].
  apply IH; [exact Hps|].
  apply add_no_threshold; [|exact Hacc]. exact Hp.
Qed.

Lemma no_threshold_param_none (ps : list ReplaceCatdiffuse.param) :
  existsb ReplaceCatdiffuse.is_threshold ps = false ->
  ReplaceCatdiffuse.existing_threshold ps = None.
Proof.
  unfold ReplaceCatdiffuse.existing_threshold. generalize (@None Z) as acc.
  induction ps as [|p ps IH]; intros acc H; cbn [fold_left]; [reflexivity|].
  cbn [existsb] in H. apply orb_false_iff in H as [Hp Hps].
  rewrite Hp. now apply IH.
Qed.

Lemma same_name_not_blank (P Q : text) :
  same_name P Q -> forallb (fun c => negb (is_space c)) Q = true ->
  forallb (fun c => negb (is_space c)) P = true.
Proof.
  unfold same_name, str_lower. revert Q.
  induction P as [|x P IH]; intros [|y Q] E H; try discriminate E;
    [reflexivity|].
  cbn [map] in E. injection E as Exy E. cbn [forallb] in H |- *.
  apply andb_true_iff in H as [Hy HQ]. rewrite (IH Q E HQ), andb_true_r.
  now rewrite <- lower_space, Exy, lower_space.
Qed.

Lemma after_first_prefix (P s : text) :
  ~ In ":" P -> after_first ":" (P ++ ":" :: s) = s.
Proof.
  induction P as [|c P IH]; intros H; cbn [app after_first]; [reflexivity|].
  destruct (ascii_eqb c ":") eqn:E.
  - apply ascii_eqb_true in E. subst c. exfalso. apply H. now left.
  - apply IH. intros Hin. apply H. now right.
Qed.

(** X20: the normaliser of replace_catdiffuse.py gives the same name when
    applied twice; and the name under which a template is compared with the
    source names is the normalised name without one leading [Template:],
    in any letter case, so [{{Template:Name}}] and [{{Name}}] are the
    same template for the engine. *)
Theorem template_prefix_is_ignored (name : text) :
  normalize_template_name (normalize_template_name name)
  = normalize_template_name name
  /\ (forall P ps,
        same_name P (T "Template:") ->
        tpl_key (Template (P ++ name) ps) = normalize_template_name name)
  /\ (forall ps,
        starts_with (T "template:") (normalize_template_name name) = false ->
        tpl_key (Template name ps) = normalize_template_name name).
Proof.
  unfold normalize_template_name. split; [|split].
  - now rewrite strip_lower, strip_idem, <- strip_lower, strip_lower;
      unfold str_lower; rewrite map_map;
      erewrite map_ext by (intros; apply lower_idem).
  - intros P ps HP. unfold tpl_key, normalize_template_name. cbn [t_name].
    pose proof (same_name_not_blank _ _ HP eq_refl) as Hnb.
    pose proof (same_name_length _ _ HP) as Hlen. cbn in Hlen.
    assert (exists P' , P = P' ++ [":"] /\ str_lower P' = T "template") as HPc.
    { do 9 (destruct P as [|? P]; [discriminate Hlen|]).
      destruct P; [|discriminate Hlen].
      unfold same_name in HP. cbn in HP.
      injection HP as H0 H1 H2 H3 H4 H5 H6 H7 H8. apply lower_colon in H8.
      subst. eexists [_; _; _; _; _; _; _; _]. split; [reflexivity|].
      cbn. now rewrite H0, H1, H2, H3, H4, H5, H6, H7. }
    destruct HPc as [P' [-> HP']].
    assert (strip ((P' ++ [":"]) ++ name) = (P' ++ [":"]) ++ rstrip name) as ->.
    { unfold strip, lstrip. rewrite dropwhile_fixed.
      - apply rstrip_after_prefix; [now destruct P'|].
        rewrite rev_app_distr. intros c r E. injection E as <- _. reflexivity.
      - intros c r E. destruct P' as [|x P']; [discriminate HP'|].
        cbn in E. injection E as <- _. cbn in Hnb.
        apply andb_true_iff in Hnb as [Hx _]. now destruct (is_space x). }
    unfold str_lower. rewrite !map_app. fold (str_lower P'). rewrite HP'.
    change ((T "template" ++ map lower [":"]) ++ map lower (rstrip name))
      with (T "template:" ++ map lower (rstrip name)).
    rewrite starts_with_self.
    change (T "template:" ++ map lower (rstrip name))
      with (T "template" ++ ":" :: map lower (rstrip name)).
    rewrite after_first_prefix
      by (intros H; cbn in H;
          repeat (destruct H as [H|H]; [discriminate H|]); exact H).
    fold (str_lower (rstrip name)). rewrite strip_lower, strip_rstrip.
    reflexivity.
  - intros ps H. unfold tpl_key, normalize_template_name. cbn [t_name].
    unfold normalize_template_name in H. now rewrite H.
Qed.

(** ** A second pass *)

Section SecondPass.

Variable src : list text.
Variable target : text.
Variable threshold : Z.
Variable preserve : bool.




End SecondPass.

(** ** Numbers written and read back *)

Ltac digit_step :=
  match goal with
  | |- context [digit_val ?c] =>
      let v := eval vm_compute in (digit_val c) in
      change (digit_val c) with v
  end.

Lemma digits_fold_acc (d : Decimal.uint) :
  forall acc : positive,
    fold_left (fun a c => (10 * a + digit_val c)%Z)
      (list_ascii_of_string (NilEmpty.string_of_uint d)) (Z.pos acc)
    = Z.pos (Pos.of_uint_acc d acc).
Proof.
  induction d; intros acc; cbn [NilEmpty.string_of_uint list_ascii_of_string
                                 fold_left Pos.of_uint_acc];
    try reflexivity; digit_step; rewrite <- IHd; f_equal; lia.
Qed.

Lemma digits_fold (d : Decimal.uint) :
  fold_left (fun a c => (10 * a + digit_val c)%Z)
    (list_ascii_of_string (NilEmpty.string_of_uint d)) 0%Z
  = Z.of_N (Pos.of_uint d).
Proof.
  induction d; cbn [NilEmpty.string_of_uint list_ascii_of_string fold_left
                     Pos.of_uint]; try reflexivity; digit_step;
    try (exact IHd); cbn [Z.of_N]; rewrite <- digits_fold_acc; f_equal.
Qed.

Lemma digits_value_decimal (n : Z) :
  (0 <= n)%Z -> digits_value (decimal n) = n.
Proof.
  intros H. unfold digits_value, decimal.
  destruct n as [|p|p]; [reflexivity| |lia].
  cbn [Z.to_int NilZero.string_of_int].
  pose proof (DecimalPos.Unsigned.of_to p) as E.
  unfold NilZero.string_of_uint.
  destruct (Pos.to_uint p) eqn:Ep; try (rewrite digits_fold, E; reflexivity).
  cbn in E. discriminate E.
Qed.

Lemma int_digits_all (s : text) :
  forall (after_digit : bool) (acc : Z),
    forallb is_digit s = true ->
    s <> [] \/ after_digit = true ->
    int_digits s after_digit acc
    = Some (fold_left (fun a c => (10 * a + digit_val c)%Z) s acc).
Proof.
  induction s as [|c s IH]; intros b acc H Hne; cbn [int_digits fold_left].
  - destruct Hne as [Hne| ->]; [contradiction|reflexivity].
  - cbn [forallb] in H. apply andb_true_iff in H as [Hc Hs]. rewrite Hc.
    apply IH; [exact Hs|now right].
Qed.

Lemma strip_no_space (s : text) :
  (forall c, In c s -> is_space c = false) -> strip s = s.
Proof.
  intros H. apply strip_fixed.
  - intros c r E. apply H. rewrite E. now left.
  - intros c r E. apply H. apply in_rev. rewrite E. now left.
Qed.

(** A string of digits is the print of a [Decimal.uint]. *)
Lemma digits_uint (s : text) :
  forallb is_digit s = true ->
  exists d, list_ascii_of_string (NilEmpty.string_of_uint d) = s.
Proof.
  induction s as [|c s IH]; intros H; [now exists Decimal.Nil|].
  cbn [forallb] in H. apply andb_true_iff in H as [Hc Hs].
  destruct (IH Hs) as [d <-].
  destruct c as [[] [] [] [] [] [] [] []]; try discriminate Hc;
    first [now exists (Decimal.D0 d) | now exists (Decimal.D1 d)
          | now exists (Decimal.D2 d) | now exists (Decimal.D3 d)
          | now exists (Decimal.D4 d) | now exists (Decimal.D5 d)
          | now exists (Decimal.D6 d) | now exists (Decimal.D7 d)
          | now exists (Decimal.D8 d) | now exists (Decimal.D9 d)].
Qed.

Lemma string_of_uint_length (d : Decimal.uint) :
  length (list_ascii_of_string (NilEmpty.string_of_uint d)) = Decimal.nb_digits d.
Proof.
  induction d; cbn [NilEmpty.string_of_uint list_ascii_of_string length
                     Decimal.nb_digits]; congruence.
Qed.

Lemma decimal_of_uint (d : Decimal.uint) :
  decimal (Z.of_N (Pos.of_uint d))
  = list_ascii_of_string (NilEmpty.string_of_uint (Decimal.unorm d)).
Proof.
  unfold decimal.
  assert (Z.to_int (Z.of_N (Pos.of_uint d))
          = Decimal.Pos (N.to_uint (Pos.of_uint d))) as ->
    by (now destruct (Pos.of_uint d)).
  rewrite DecimalPos.Unsigned.to_of. cbn [NilZero.string_of_int].
  unfold NilZero.string_of_uint, Decimal.unorm.
  now destruct (Decimal.nzhead d).
Qed.

(** What [int] reads from digits, [str] prints in no more digits. *)
Lemma decimal_digits_length (s : text) :
  forallb is_digit s = true ->
  length (decimal (digits_value s)) <= Nat.max 1 (length s).
Proof.
  intros H. destruct s as [|c s]; [cbn; lia|].
  destruct (digits_uint _ H) as [d E].
  assert (d <> Decimal.Nil) as Hd by (intros ->; discriminate E).
  pose proof (string_of_uint_length d) as L. rewrite E in L.
  unfold digits_value. rewrite <- E, digits_fold, decimal_of_uint.
  rewrite string_of_uint_length, E.
  pose proof (DecimalFacts.nb_digits_unorm d Hd). lia.
Qed.

Lemma str_of_int_digits (s : text) :
  forallb is_digit s = true ->
  (zlen s <= int_max_str_digits)%Z ->
  str_of_int (digits_value s) = Some (decimal (digits_value s)).
Proof.
  intros H L. unfold str_of_int.
  rewrite Z.abs_eq by apply digits_value_nonneg.
  pose proof (decimal_digits_length s H) as B.
  destruct (zlen (decimal (digits_value s)) <=? int_max_str_digits)%Z eqn:E;
    [reflexivity|].
  apply Z.leb_gt in E. unfold zlen, int_max_str_digits in *. lia.
Qed.

Lemma str_of_int_opp (n : Z) (s : text) :
  str_of_int n = Some s -> str_of_int (- n) = Some (decimal (- n)).
Proof.
  unfold str_of_int. rewrite Z.abs_opp.
  destruct (zlen (decimal (Z.abs n)) <=? int_max_str_digits)%Z; [|discriminate].
  reflexivity.
Qed.

Lemma int_digits_value (s : text) :
  forall (after_digit : bool) (acc v : Z),
    int_digits s after_digit acc = Some v ->
    v = fold_left (fun a c => (10 * a + digit_val c)%Z) (filter is_digit s) acc.
Proof.
  induction s as [|c s IH]; intros b acc v; cbn [int_digits filter fold_left].
  - destruct b; [|discriminate]. intros E. now injection E.
  - destruct (is_digit c) eqn:Hc; cbn [fold_left]; [apply IH|].
    destruct (ascii_eqb c "_" && b); [apply IH|discriminate].
Qed.

Lemma forallb_filter_digits (s : text) :
  forallb is_digit (filter is_digit s) = true.
Proof.
  induction s as [|c s IH]; cbn [filter]; [reflexivity|].
  destruct (is_digit c) eqn:Hc; [|exact IH]. cbn [forallb]. now rewrite Hc, IH.
Qed.

(** The integer that [int] reads can be printed. *)
Lemma parse_int_prints (s : text) (n : Z) :
  parse_int s = Some n -> str_of_int n = Some (decimal n).
Proof.
  unfold parse_int.
  destruct (zlen (filter is_digit s) <=? int_max_str_digits)%Z eqn:L;
    [|discriminate].
  apply Z.leb_le in L.
  assert (forall s' v,
             (zlen (filter is_digit s') <= int_max_str_digits)%Z ->
             int_digits s' false 0 = Some v ->
             str_of_int v = Some (decimal v)) as Hv.
  { intros s' v L' E. apply int_digits_value in E. subst v.
    apply (str_of_int_digits (filter is_digit s'));
      [apply forallb_filter_digits|exact L']. }
  destruct s as [|c s']; [discriminate|].
  destruct (ascii_dec c "-") as [->|Hm].
  - cbn [filter] in L. change (is_digit "-") with false in L. cbv iota in L.
    destruct (int_digits s' false 0) as [v|] eqn:E; [|discriminate].
    cbn [option_map]. intros E'. injection E' as <-.
    eapply str_of_int_opp. now apply (Hv s').
  - destruct (ascii_dec c "+") as [->|Hp].
    + cbn [filter] in L. change (is_digit "+") with false in L. cbv iota in L.
      now apply Hv.
    + assert (match c :: s' with
              | "-"%char :: s'0 => option_map Z.opp (int_digits s'0 false 0)
              | "+"%char :: s'0 => int_digits s'0 false 0
              | _ => int_digits (c :: s') false 0
              end = int_digits (c :: s') false 0) as ->.
      { destruct c as [[] [] [] [] [] [] [] []]; try reflexivity;
          contradiction. }
      now apply Hv.
Qed.

Lemma decimal_digits_only (n : Z) :
  filter is_digit (decimal n) = decimal (Z.abs n).
Proof.
  destruct (decimal_shape n) as [d [ds [H [Hp Hn]]]].
  assert (filter is_digit (d :: ds) = d :: ds) as F.
  { apply forallb_filter_id. exact H. }
  destruct (Z.le_gt_cases 0 n) as [L|L].
  - rewrite Z.abs_eq by exact L. now rewrite (Hp L).
  - rewrite (Hn L).
    change (filter is_digit ("-" :: d :: ds)) with (filter is_digit (d :: ds)).
    rewrite F. rewrite Z.abs_neq by lia.
    unfold decimal in Hn |- *. specialize (Hn L).
    destruct n as [|p|p]; try lia. cbn in Hn |- *. now injection Hn.
Qed.

Lemma parse_decimal (n : Z) (digits : text) :
  str_of_int n = Some digits -> parse_int (strip digits) = Some n.
Proof.
  intros Hd. pose proof (str_of_int_decimal _ _ Hd) as ->.
  assert ((zlen (filter is_digit (decimal n)) <=? int_max_str_digits)%Z = true)
    as Hcap.
  { rewrite decimal_digits_only. unfold str_of_int in Hd.
    now destruct (zlen (decimal (Z.abs n)) <=? int_max_str_digits)%Z. }
  destruct (decimal_shape n) as [d [ds [H [Hp Hn]]]].
  assert (forall c, In c (d :: ds) -> is_space c = false) as Hsp.
  { intros c Hc. apply digit_not_space.
    rewrite forallb_forall in H. now apply H. }
  destruct (Z.le_gt_cases 0 n) as [L|L].
  - pose proof (digits_value_decimal n L) as E. unfold digits_value in E.
    rewrite (Hp L) in E, Hcap |- *. rewrite (strip_no_space _ Hsp).
    assert (parse_int (d :: ds) = int_digits (d :: ds) false 0) as ->.
    { unfold parse_int. rewrite Hcap.
      cbn [forallb] in H. apply andb_true_iff in H as [Hd' _].
      destruct d as [[] [] [] [] [] [] [] []]; try reflexivity; discriminate Hd'. }
    rewrite int_digits_all by (auto; left; discriminate). now rewrite E.
  - assert (decimal (- n) = d :: ds) as Epos.
    { unfold decimal in Hn |- *. specialize (Hn L).
      destruct n as [|p|p]; try lia. cbn in Hn |- *. now injection Hn. }
    pose proof (digits_value_decimal (- n) ltac:(lia)) as E. unfold digits_value in E.
    rewrite Epos in E. rewrite (Hn L) in Hcap |- *.
    rewrite strip_no_space
      by (intros c [<-|Hc]; [reflexivity|now apply Hsp]).
    unfold parse_int. rewrite Hcap.
    rewrite int_digits_all by (auto; left; discriminate).
    rewrite E. cbn [option_map]. f_equal. lia.
Qed.

Lemma existing_threshold_prints (ps : list param) (n : Z) :
  existing_threshold ps = Some n -> str_of_int n = Some (decimal n).
Proof.
  unfold existing_threshold.
  assert (forall acc : option Z,
             (forall m, acc = Some m -> str_of_int m = Some (decimal m)) ->
             forall m,
               fold_left
                 (fun acc p =>
                    if is_threshold p then
                      match parse_int (strip (p_value p)) with
                      | Some n => Some n
                      | None => acc
                      end
                    else acc) ps acc = Some m ->
               str_of_int m = Some (decimal m)) as H.
  { induction ps as [|p ps IH]; intros acc Ha m; cbn [fold_left];
      [apply Ha|].
    apply IH. intros k.
    destruct (is_threshold p); [|apply Ha].
    destruct (parse_int (strip (p_value p))) as [v|] eqn:E; [|apply Ha].
    intros E'. injection E' as <-. now apply parse_int_prints in E. }
  apply H. discriminate.
Qed.





(** X23: the threshold that the engine writes is the one it reads back:
    when the parameters are not copied, or the source template has no
    [threshold] parameter, the new template's threshold reads as the
    source template's integer threshold, or else as the default; no new
    template is built only when the source template has no integer
    threshold and the default cannot be printed. *)
Theorem written_threshold_is_read_back (t : template) (target : text)
  (threshold : Z) (preserve : bool) :
  preserve = false \/ existsb is_threshold (t_params t) = false ->
  match new_tpl t target threshold preserve with
  | Some nt =>
      existing_threshold (t_params nt)
      = Some match existing_threshold (t_params t) with
             | Some n => n
             | None => threshold
             end
  | None =>
      existing_threshold (t_params t) = None /\ str_of_int threshold = None
  end.
Proof.
  assert (forall final digits,
             str_of_int final = Some digits ->
             existing_threshold (add [] (T "threshold") digits) = Some final)
    as Hnew.
  { intros final digits Hd. cbn [add]. unfold existing_threshold.
    cbn [fold_left].
    change (is_threshold (Param (T "threshold") _)) with true. cbv iota.
    cbn [p_value]. now rewrite (parse_decimal _ _ Hd). }
  assert (forall final,
             (final = threshold \/ str_of_int final <> None) ->
             match str_of_int final with
             | Some digits =>
                 existing_threshold (add [] (T "threshold") digits) = Some final
             | None => final = threshold /\ str_of_int threshold = None
             end) as Hcase.
  { intros final Hf. destruct (str_of_int final) as [digits|] eqn:Hd;
      [now apply Hnew|].
    destruct Hf as [->|Hf]; [now split|contradiction]. }
  intros [->|Hno].
  - unfold new_tpl. cbn [existsb].
    destruct (existing_threshold (t_params t)) as [n|] eqn:E.
    + rewrite (existing_threshold_prints _ _ E). cbn [t_params].
      apply Hnew. now apply existing_threshold_prints in E.
    + specialize (Hcase threshold (or_introl eq_refl)).
      destruct (str_of_int threshold) as [digits|]; [exact Hcase|].
      now split.
  - unfold new_tpl. rewrite (no_threshold_param_none _ Hno).
    destruct preserve.
    + rewrite (copied_params_no_threshold _ [] Hno eq_refl).
      destruct (str_of_int threshold) as [digits|] eqn:Hd; [|now split].
      cbn [t_params].
      rewrite add_named_absent
        by (try reflexivity; now apply copied_params_no_threshold).
      unfold existing_threshold. rewrite fold_left_app. cbn [fold_left].
      change (is_threshold (Param (T "threshold") _)) with true. cbv iota.
      cbn [p_value]. now rewrite (parse_decimal _ _ Hd).
    + cbn [existsb].
      destruct (str_of_int threshold) as [digits|] eqn:Hd; [|now split].
      cbn [t_params]. now apply Hnew.
Qed.

Lemma written_threshold_is_read_back_witness :
  new_tpl (Template (T "CatDiffuse") [Param (T "1") (T "x")])
    (T "Diffusion by condition") 200 true
  = Some (Template (T "Diffusion by condition")
            [Param (T "1") (T "x"); Param (T "threshold") (T "200")])
  /\ existing_threshold
       [Param (T "1") (T "x"); Param (T "threshold") (T "200")]
     = Some 200%Z.
Proof.
  split; [vm_compute; reflexivity|].
  exact (written_threshold_is_read_back
           (Template (T "CatDiffuse") [Param (T "1") (T "x")])
           (T "Diffusion by condition") 200%Z true (or_intror eq_refl)).
Defined.

(** ** The quick check of [main] *)

Lemma occurs_lower (a b : text) :
  occurs a b -> occurs (str_lower a) (str_lower b).
Proof.
  intros [p [q ->]]. exists (str_lower p), (str_lower q).
  unfold str_lower. now rewrite !map_app.
Qed.

Lemma occurs_strip (s : text) : occurs (strip s) s.
Proof.
  destruct (dropwhile_suffix is_space s) as [w1 E1].
  destruct (rstrip_prefix (lstrip s)) as [w2 E2].
  exists w1, w2. unfold strip. unfold lstrip in E2 |- *.
  now rewrite <- E2.
Qed.

Lemma occurs_after_first (a : ascii) (s : text) : occurs (after_first a s) s.
Proof.
  induction s as [|c s IH]; cbn [after_first]; [apply occurs_refl|].
  destruct (ascii_eqb c a).
  - exists [c], []. now rewrite app_nil_r.
  - destruct IH as [p [q E]]. exists (c :: p), q. cbn. now rewrite <- E.
Qed.

Lemma tpl_key_occurs (t : template) : occurs (tpl_key t) (str_lower (t_name t)).
Proof.
  assert (occurs (normalize_template_name (t_name t)) (str_lower (t_name t)))
    as H by (apply occurs_lower, occurs_strip).
  unfold tpl_key.
  destruct (starts_with (T "template:") (normalize_template_name (t_name t)));
    [|exact H].
  eapply occurs_trans; [apply occurs_strip|].
  eapply occurs_trans; [apply occurs_after_first|exact H].
Qed.

(** X24: the quick check of [main] does not skip a page whose text shows
    the name of a template that the engine would replace, the source names
    being stripped as [main] strips them. *)
Theorem quick_check_keeps_source_pages (txt : text) (sources : list text)
  (t : template) :
  Forall (fun s => strip s = s) sources ->
  is_source (map normalize_template_name sources) t = true ->
  occurs (t_name t) txt ->
  CatdiffuseRun.quick_skip txt sources = false.
Proof.
  intros Hs Ht Hocc. unfold is_source in Ht.
  apply existsb_exists in Ht as [n [Hn E]]. apply text_eqb_true in E.
  apply in_map_iff in Hn as [s [<- Hin]].
  unfold CatdiffuseRun.quick_skip.
  destruct (forallb (fun s0 => negb (contains (str_lower s0) (str_lower txt)))
              sources) eqn:F; [|reflexivity].
  rewrite forallb_forall in F. specialize (F s Hin).
  rewrite Forall_forall in Hs. specialize (Hs s Hin).
  assert (contains (str_lower s) (str_lower txt) = true) as C.
  { apply contains_occurs.
    replace (str_lower s) with (tpl_key t)
      by (rewrite E; unfold normalize_template_name; now rewrite Hs).
    eapply occurs_trans; [apply tpl_key_occurs|now apply occurs_lower]. }
  rewrite C in F. discriminate F.
Qed.

Lemma quick_check_keeps_source_pages_witness :
  CatdiffuseRun.quick_skip (T "x {{ Template:catdiffuse |a=1}} y") [T "CatDiffuse"]
  = false.
Proof.
  assert (occurs (T " Template:catdiffuse ")
            (T "x {{ Template:catdiffuse |a=1}} y")) as H
    by (now exists (T "x {{"), (T "|a=1}} y")).
  exact (quick_check_keeps_source_pages
           (T "x {{ Template:catdiffuse |a=1}} y") [T "CatDiffuse"]
           (Template (T " Template:catdiffuse ") [Param (T "a") (T "1")])
           (Forall_cons _ eq_refl (Forall_nil _)) eq_refl H).
Defined.

End ParseTreeMore.

(** ** The loops of [main] in replace_catdiffuse.py *)

Section CatdiffuseMain.

Import Site CatdiffuseRun.

Variable parse : text -> ReplaceCatdiffuse.wikicode.
Variable render : ReplaceCatdiffuse.wikicode -> text.
Variable source_templates : list text.
Variable target : text.
Variable threshold : Z.
Variable dry_run : bool.
Variable limit : Z.
Variable summary : option text.

Lemma bounded_refl (st : progress) : bounded limit dry_run st st.
Proof.
  unfold bounded. split; [lia|]. split; [lia|]. split; [lia|]. split; auto.
Qed.

Lemma bounded_trans (a b c : progress) :
  bounded limit dry_run a b -> bounded limit dry_run b c ->
  bounded limit dry_run a c.
Proof.
  unfold bounded. intros [A1 [A2 [A3 [A4 A5]]]] [B1 [B2 [B3 [B4 B5]]]].
  split; [lia|]. split; [lia|]. split; [lia|]. split.
  - intros H1 H2. apply B4; [exact H1|]. now apply A4.
  - intros D. now rewrite (B5 D), (A5 D).
Qed.

Lemma pages_loop_inv (gen : members cat_page) (src : text) :
  forall st st',
    pages_loop parse render source_templates target threshold dry_run limit
      summary gen src st = Some st' ->
    bounded limit dry_run st st'
    /\ (forall e, In e (edits st') ->
          In e (edits st)
          \/ justified parse render source_templates target threshold summary
               src gen e).
Proof.
  induction gen as [|cat rest IH|]; intros st st' H; cbn [pages_loop] in H.
  - injection H as <-. split; [apply bounded_refl|auto].
  - assert (forall stm,
               bounded limit dry_run st stm ->
               (forall e, In e (edits stm) ->
                          In e (edits st)
                          \/ justified parse render source_templates target
                               threshold summary src (Item cat rest) e) ->
               pages_loop parse render source_templates target threshold dry_run
                 limit summary rest src stm = Some st' ->
               bounded limit dry_run st st'
               /\ (forall e, In e (edits st') ->
                             In e (edits st)
                             \/ justified parse render source_templates
                                  target threshold summary src
                                  (Item cat rest) e)) as Hnext.
    { intros stm Hb He Hr. apply IH in Hr as [Hb' He'].
      split; [now apply (bounded_trans _ stm)|].
      intros e Hin. apply He' in Hin as [Hin|Hin]; [now apply He|].
      right. destruct Hin as [c [t [n [nw [det [Hy Hrest]]]]]].
      exists c, t, n, nw, det. split; [now right|exact Hrest]. }
    assert (bounded limit dry_run st
              (Progress (processed st) (total_candidates st + 1) (edits st)))
      as Hb0.
    { unfold bounded. cbn [processed total_candidates edits].
      split; [lia|]. split; [lia|]. split; [lia|]. split; auto. }
    destruct (negb (limit =? 0)%Z && (processed st >=? limit)%Z) eqn:B;
      cbn [processed] in H; rewrite B in H.
    { injection H as <-. split; [exact Hb0|cbn; auto]. }
    destruct (get (c_page cat)) as [txt|x] eqn:G;
      [|apply (Hnext _ Hb0); [cbn; auto|exact H]].
    destruct (quick_skip txt source_templates) eqn:Q;
      [apply (Hnext _ Hb0); [cbn; auto|exact H]|].
    destruct (ReplaceCatdiffuse.count_files_in_category (c_files cat) threshold)
      as [n|] eqn:C; [|discriminate H].
    destruct (n <=? threshold)%Z eqn:L;
      [|apply (Hnext _ Hb0); [cbn; auto|exact H]].
    apply Z.leb_le in L.
    destruct (ReplaceCatdiffuse.find_and_replace_templates (parse txt) [src]
                target threshold true) as [[[new changed] detected]|] eqn:F;
      [|discriminate H].
    destruct changed; [|apply (Hnext _ Hb0); [cbn; auto|exact H]].
    cbn [processed total_candidates edits] in H.
    apply andb_false_iff in B.
    assert (forall saved,
               (dry_run = true -> saved = []) ->
               length saved <= 1 ->
               (forall e, In e saved ->
                          justified parse render source_templates target
                            threshold summary src (Item cat rest) e) ->
               pages_loop parse render source_templates target threshold dry_run
                 limit summary rest src
                 (Progress (processed st + 1) (total_candidates st + 1)
                    (edits st ++ saved)) = Some st' ->
               bounded limit dry_run st st'
               /\ (forall e, In e (edits st') ->
                             In e (edits st)
                             \/ justified parse render source_templates
                                  target threshold summary src
                                  (Item cat rest) e)) as Hsave.
    { intros saved Hdry Hlen Hj Hr. refine (Hnext _ _ _ Hr); cbn [edits].
      - unfold bounded. cbn [processed total_candidates edits].
        split; [lia|]. split; [lia|]. split; [|split].
        + rewrite length_app. lia.
        + intros Hpos Hle. destruct B as [B|B]; [|lia].
          apply negb_false_iff, Z.eqb_eq in B. lia.
        + intros D. rewrite (Hdry D). apply app_nil_r.
      - intros e Hin. apply in_app_or in Hin as [Hin|Hin]; [now left|].
        right. now apply Hj. }
    destruct dry_run eqn:D.
    { apply (Hsave []); [reflexivity|cbn; lia|intros e []|exact H]. }
    destruct (edit_summary_of summary src target
                (used_threshold detected threshold)) as [edit_summary|] eqn:Su;
      [|discriminate H].
    destruct (save (c_page cat) (render new) edit_summary) as [u|x] eqn:S.
    + apply (Hsave [Edit (title (c_page cat)) (render new) edit_summary]);
        [discriminate|cbn; lia| |exact H].
      intros e [<-|[]].
      exists cat, txt, n, new, detected.
      cbn [e_title e_text e_summary yields]. repeat split; auto.
    + apply (Hsave []); [reflexivity|cbn; lia|intros e []|exact H].
  - discriminate H.
Qed.

Lemma sources_loop_inv
  (embedding : list (text * option (members cat_page))) :
  forall st st',
    sources_loop parse render source_templates target threshold dry_run limit
      summary embedding st = Some st' ->
    bounded limit dry_run st st'
    /\ (forall e, In e (edits st') ->
          In e (edits st)
          \/ exists src gen,
               In (src, Some gen) embedding
               /\ justified parse render source_templates target threshold
                    summary src gen e).
Proof.
  induction embedding as [|[src [gen|]] rest IH]; intros st st' H;
    cbn [sources_loop] in H.
  - injection H as <-. split; [apply bounded_refl|auto].
  - destruct (pages_loop parse render source_templates target threshold dry_run
                limit summary gen src st) as [stm|] eqn:P; [|discriminate H].
    apply pages_loop_inv in P as [Hb He].
    assert (forall e, In e (edits stm) ->
              In e (edits st)
              \/ exists src0 gen0,
                   In (src0, Some gen0) ((src, Some gen) :: rest)
                   /\ justified parse render source_templates target threshold
                        summary src0 gen0 e) as He'.
    { intros e Hin. apply He in Hin as [Hin|Hin]; [now left|].
      right. exists src, gen. split; [now left|exact Hin]. }
    destruct (negb (limit =? 0)%Z && (processed stm >=? limit)%Z).
    + injection H as <-. now split.
    + apply IH in H as [Hb2 He2]. split; [now apply (bounded_trans _ stm)|].
      intros e Hin. apply He2 in Hin as [Hin|[s0 [g0 [Hin Hj]]]];
        [now apply He'|].
      right. exists s0, g0. split; [now right|exact Hj].
  - apply IH in H as [Hb He]. split; [exact Hb|].
    intros e Hin. apply He in Hin as [Hin|[s0 [g0 [Hin Hj]]]]; [now left|].
    right. exists s0, g0. split; [now right|exact Hj].
Qed.

End CatdiffuseMain.

(** X25: whatever the parser and the printer are, replace_catdiffuse.py
    saves nothing in a dry run, and every page it saves is the page of a
    category that a generator yielded, that could be read and passed the
    quick check, whose count is at most the threshold and for whose
    parsed text the engine, run for the current source name alone,
    reported a change; the text saved is the printed result of the engine,
    under the summary that names the threshold used.  No more pages are
    saved than are counted as processed, and with a positive limit no more
    are processed than the limit. *)
Theorem catdiffuse_saves_only_small_categories
  (parse : text -> ReplaceCatdiffuse.wikicode)
  (render : ReplaceCatdiffuse.wikicode -> text)
  (source_templates : list text) (target : text) (threshold : Z)
  (dry_run : bool) (limit : Z) (summary : option text)
  (embedding : list (text * option (members CatdiffuseRun.cat_page)))
  (st : CatdiffuseRun.progress) :
  CatdiffuseRun.sources_loop parse render source_templates target threshold
    dry_run limit summary embedding (CatdiffuseRun.Progress 0 0 []) = Some st ->
  (dry_run = true -> CatdiffuseRun.edits st = [])
  /\ (forall e, In e (CatdiffuseRun.edits st) ->
        exists src gen,
          In (src, Some gen) embedding
          /\ justified parse render source_templates target threshold summary
               src gen e)
  /\ (Z.of_nat (length (CatdiffuseRun.edits st)) <= CatdiffuseRun.processed st
      <= CatdiffuseRun.total_candidates st)%Z
  /\ ((0 < limit)%Z -> (CatdiffuseRun.processed st <= limit)%Z).
Proof.
  intros H. apply sources_loop_inv in H as [[B1 [B2 [B3 [B4 B5]]]] He].
  cbn [CatdiffuseRun.processed CatdiffuseRun.total_candidates
         CatdiffuseRun.edits length] in *.
  split; [exact B5|]. split; [|split; [lia|intros Hl; apply B4; lia]].
  intros e Hin. apply He in Hin as [[]|Hin]. exact Hin.
Qed.

Lemma catdiffuse_saves_only_small_categories_witness :
  CatdiffuseRun.sources_loop
    (fun _ => [ReplaceCatdiffuse.NTemplate
                 (ReplaceCatdiffuse.Template (T "CatDiffuse") [])])
    (fun _ => T "{{Diffusion by condition|threshold=200}}")
    [T "CatDiffuse"] (T "Diffusion by condition") 200 true 0 None
    [(T "CatDiffuse",
      Some (Item (CatdiffuseRun.CatPage
                    (Site.Page (T "Category:A") (Site.Ok (T "{{CatDiffuse}}"))
                       (fun _ _ => Site.Ok tt))
                    (fun _ => Stop)) Stop))]
    (CatdiffuseRun.Progress 0 0 [])
  = Some (CatdiffuseRun.Progress 1 1 [])
  /\ CatdiffuseRun.edits (CatdiffuseRun.Progress 1 1 []) = [].
Proof.
  assert (CatdiffuseRun.sources_loop
            (fun _ => [ReplaceCatdiffuse.NTemplate
                         (ReplaceCatdiffuse.Template (T "CatDiffuse") [])])
            (fun _ => T "{{Diffusion by condition|threshold=200}}")
            [T "CatDiffuse"] (T "Diffusion by condition") 200 true 0 None
            [(T "CatDiffuse",
              Some (Item (CatdiffuseRun.CatPage
                            (Site.Page (T "Category:A")
                               (Site.Ok (T "{{CatDiffuse}}"))
                               (fun _ _ => Site.Ok tt))
                            (fun _ => Stop)) Stop))]
            (CatdiffuseRun.Progress 0 0 [])
          = Some (CatdiffuseRun.Progress 1 1 [])) as H
    by (vm_compute; reflexivity).
  split; [exact H|].
  exact (proj1 (catdiffuse_saves_only_small_categories _ _ _ _ _ _ _ _ _ _ H)
           eq_refl).
Defined.

(** * When the engine of replace_templates.py raises *)

Section EngineRaises.

Import TemplateRun Site.

Lemma groups_of_lits (name : text) : groups_of (lits name) = [].
Proof. induction name as [|c name IH]; cbn [lits groups_of app]; auto. Qed.

Lemma digits_group (ic : bool) (g : text) :
  Matches ic (plus is_digit) g -> forallb is_digit g = true.
Proof.
  unfold plus. intros M.
  apply Matches_Seq_inv in M as [s1 [s2 [-> [M1 M2]]]].
  apply Matches_Cls_inv in M1 as [x [-> Hx]].
  apply Matches_Star_inv in M2. cbn [app forallb]. now rewrite Hx, M2.
Qed.

(** The limit that a search for one of the two patterns captures is a run
    of digits of the text. *)
Lemma limit_group (r : regex) (txt : text) (a b : nat) (caps : captures) :
  groups_of r = [plus is_digit] ->
  search true r txt = Some (a, b, caps) ->
  forallb is_digit (nth 0 caps []) = true
  /\ (nth 0 caps [] = [] \/ occurs (nth 0 caps []) txt).
Proof.
  intros Hg H. apply search_captures in H. rewrite Hg in H.
  destruct caps as [|g caps]; [split; [reflexivity|now left]|].
  apply Forall_inv in H as [Ho [a0 [[<-|[]] Hm]]]. cbn [nth].
  split; [now apply digits_group in Hm|now right].
Qed.

Lemma numbered_groups (name : text) :
  groups_of (numbered_pattern name) = [plus is_digit].
Proof.
  unfold numbered_pattern, escape, ws. cbn [seq groups_of app].
  now rewrite groups_of_lits.
Qed.

Lemma named_groups (name : text) :
  groups_of (named_pattern name) = [plus is_digit].
Proof.
  unfold named_pattern, escape, ws. cbn [seq groups_of app].
  now rewrite !groups_of_lits.
Qed.

Lemma extract_limit_cases (txt name : text) :
  extract_limit_from_template txt name = Some None
  \/ exists digits,
       forallb is_digit digits = true
       /\ (digits = [] \/ occurs digits txt)
       /\ extract_limit_from_template txt name
          = option_map Some (int_of_digits digits).
Proof.
  unfold extract_limit_from_template, group1.
  destruct (search true (numbered_pattern name) txt) as [[[a b] caps]|] eqn:E1.
  - right. exists (nth 0 caps []).
    destruct (limit_group _ _ _ _ _ (numbered_groups name) E1) as [H1 H2].
    auto.
  - destruct (search true (named_pattern name) txt) as [[[a b] caps]|] eqn:E2;
      [|now left].
    right. exists (nth 0 caps []).
    destruct (limit_group _ _ _ _ _ (named_groups name) E2) as [H1 H2].
    auto.
Qed.

Lemma group0_occurs (txt : text) (f : found) : occurs (group0 txt f) txt.
Proof.
  unfold group0. apply (occurs_skipn _ _ (f_start f)).
  rewrite <- (firstn_skipn (f_end f - f_start f) (skipn (f_start f) txt)) at 2.
  apply occurs_app_l, occurs_refl.
Qed.

(** X27: the engine ends in a [ValueError] only on a page that holds a
    run of more than 4300 digits, or under a default limit that cannot be
    printed; so with a default of at most 4300 digits it returns on every
    page of at most 4300 characters.  A limit of 4301 digits does make it
    raise, and [process_category] then returns [False] without a save, in
    a dry run and in a live one. *)
Theorem engine_raises_only_on_long_numbers (txt : text) (sources : list text)
  (target : text) (default_limit : Z) :
  (replace_templates txt sources target default_limit = None ->
   (exists digits,
       forallb is_digit digits = true /\ (4300 < zlen digits)%Z
       /\ occurs digits txt)
   \/ str_of_int default_limit = None)
  /\ ((zlen txt <= 4300)%Z ->
      (zlen (decimal (Z.abs default_limit)) <= 4300)%Z ->
      exists out changed action,
        replace_templates txt sources target default_limit
        = Some (out, changed, action))
  /\ replace_templates (T "{{CatDiffuse|" ++ repeat "1"%char 4301 ++ T "}}")
       [T "CatDiffuse"] (T "Diffusion by condition") 200
     = None
  /\ (forall pg dry_run,
        get pg = Ok (T "{{CatDiffuse|" ++ repeat "1"%char 4301 ++ T "}}") ->
        process_category pg [T "CatDiffuse"] (T "Diffusion by condition") 200
          dry_run
        = (false, [])).
Proof.
  assert (replace_templates txt sources target default_limit = None ->
          (exists digits,
              forallb is_digit digits = true /\ (4300 < zlen digits)%Z
              /\ occurs digits txt)
          \/ str_of_int default_limit = None) as Hraise.
  { unfold replace_templates.
    destruct (sort_found (source_found txt sources)) as [|first rest];
      [discriminate|].
    destruct (has_target_template txt target); [discriminate|].
    pose proof (group0_occurs txt first) as Hocc.
    destruct (extract_limit_cases (group0 txt first) (f_source first))
      as [->|[digits [Hd [Hl ->]]]].
    - cbv zeta. cbn [applied_limit].
      destruct (str_of_int default_limit); [discriminate|]. now right.
    - unfold int_of_digits.
      destruct (zlen digits <=? int_max_str_digits)%Z eqn:L; cbn [option_map].
      + apply Z.leb_le in L. cbv zeta. unfold applied_limit.
        destruct (digits_value digits =? 0)%Z.
        * destruct (str_of_int default_limit); [discriminate|]. now right.
        * rewrite (str_of_int_digits digits Hd L). discriminate.
      + intros _. left. apply Z.leb_gt in L. exists digits.
        split; [exact Hd|]. split; [exact L|].
        destruct Hl as [->|Hl]; [discriminate L|].
        now apply (occurs_trans _ (group0 txt first)). }
  assert (replace_templates (T "{{CatDiffuse|" ++ repeat "1"%char 4301 ++ T "}}")
            [T "CatDiffuse"] (T "Diffusion by condition") 200 = None) as Hex
    by (vm_compute; reflexivity).
  split; [exact Hraise|]. split; [|split; [exact Hex|]].
  - intros Ht Hd.
    destruct (replace_templates txt sources target default_limit)
      as [[[out changed] action]|] eqn:E; [now exists out, changed, action|].
    exfalso. destruct (Hraise eq_refl) as [[digits [_ [L Ho]]]|H].
    { apply occurs_length in Ho. unfold zlen in *. lia. }
    unfold str_of_int in H. apply Z.leb_le in Hd.
    unfold int_max_str_digits in H. rewrite Hd in H. discriminate H.
  - intros pg dry_run G. unfold process_category. now rewrite G, Hex.
Qed.

End EngineRaises.
